(** * The downloader's peer bookkeeping (ctxc/downloader/peer.go)

    A shallow embedding of [peerConnection] (one remote peer's scheduling
    state) and [peerSet] (the registry of active peers), and the properties
    of them that the specification states.

    Go pointers are locations of an explicit heap: a [*peerConnection] is a
    location of [conns], a [*msgrate.Tracker] a location of [trks].  Every
    method is modelled as one atomic step (locks and atomics are left out).  A
    method either returns or panics.  Goroutines started with [go] are recorded
    in the order they were started, in [wire]; events sent on a feed are
    recorded in the feed. *)

From stdpp Require Import gmap strings list fin_maps sorting.
From Stdlib Require Import ZArith Lia.

Open Scope Z_scope.

(** ** What the file takes from other packages *)

(** The message codes of ctxc/protocols/ctxc that peer.go names.  The package
    is not among the sources at hand; the four codes are distinct constants. *)
Inductive MsgCode := BlockHeadersMsg | BlockBodiesMsg | NodeDataMsg | ReceiptsMsg.

Global Instance MsgCode_eq_dec : EqDecision MsgCode.
Proof. solve_decision. Defined.

(** [time.Time], [time.Now] (an argument of the methods that read the clock)
    and [Time.Sub]; a [time.Duration] is a number of nanoseconds. *)
Class Clock := {
  Time : Type;
  time_zero : Time;
  time_Sub : Time → Time → Z
}.

Definition time_Second : Z := 1000000000.

(** p2p/msgrate: a [Tracker] estimates the throughput of one peer per
    message code.  The package is not among the sources at hand, its methods
    are taken as they are declared. *)
Class Msgrate := {
  Tracker : Type;
  Capacities : Type;
  Tracker_Update : Tracker → MsgCode → Z → Z → Tracker;
  Tracker_Capacity : Tracker → MsgCode → Z → Z;
  NewTracker : Capacities → Z → Tracker;
  MeanCapacities : gmap string Tracker → Capacities;
  MedianRoundTrip : gmap string Tracker → Z
}.

(** The request size limits of downloader.go, which is not among the sources
    at hand. *)
Class Limits := {
  MaxHeaderFetch : Z;
  MaxBlockFetch : Z;
  MaxReceiptFetch : Z;
  MaxStateFetch : Z
}.

(** [types.Header] and its [Hash] method; a [common.Hash] is 32 bytes, read
    here as a number (no method below looks inside a hash). *)
Class Chain := {
  Header : Type;
  Header_Hash : Header → N
}.

Abbreviation Hash := N (only parsing).
Abbreviation loc := positive (only parsing).

Definition maxLackingHashes : Z := 4096.

Inductive error :=
| errAlreadyFetching
| errAlreadyRegistered
| errNotRegistered
| errTracked.

Inductive panic :=
| panicProtocol (what : string) (need : N) (have : N)
| panicNil.

Inductive outcome (A : Type) :=
| Return (a : A)
| Panic (e : panic).
Arguments Return {A} a.
Arguments Panic {A} e.

Global Instance outcome_ret : MRet outcome := λ A a, Return a.
Global Instance outcome_bind : MBind outcome := λ A B k m,
  match m with
  | Return a => k a
  | Panic e => Panic e
  end.

(** The four data kinds, to state properties of the four copies of each
    method at once. *)
Inductive Kind := Headers | Bodies | Receipts | NodeData.

Global Instance Kind_eq_dec : EqDecision Kind.
Proof. solve_decision. Defined.

(** ** Package sort of the Go standard library

    [sort.Sort] sees the data through three methods only. *)
Record Interface (D : Type) := mkInterface {
  Len : D → Z;
  Less : D → Z → Z → bool;
  Swap : D → Z → Z → D
}.
Arguments Len {D} _ _.
Arguments Less {D} _ _ _ _.
Arguments Swap {D} _ _ _ _.

(** The algorithm of [sort.Sort] since Go 1.19 (pattern-defeating quicksort,
    sort/zsortinterface.go), function by function; the data is passed along
    and every loop carries a bound on its turns.  The general results below
    do not rest on it: they take [sort.Sort] by its documented contract.  It
    is what the closed examples run. *)
Module gosort.
Section gosort.
Context {D : Type} (data : Interface D).

Inductive sortedHint := unknownHint | increasingHint | decreasingHint.

Definition maxInsertion : Z := 12.
Definition maxSteps : nat := 5.
Definition shortestShifting : Z := 50.
Definition shortestNinther : Z := 50.
Definition maxSwaps : Z := 4 * 3.

(** [bits.Len] of a non-negative number. *)
Definition bits_Len (n : Z) : Z := if n <=? 0 then 0 else Z.log2 n + 1.

Fixpoint insertionSort_inner (fuel : nat) (a j : Z) (d : D) : D :=
  match fuel with
  | O => d
  | S fuel =>
      if a <? j then
        if Less data d j (j - 1)
        then insertionSort_inner fuel a (j - 1) (Swap data d j (j - 1))
        else d
      else d
  end.

Fixpoint insertionSort_outer (fuel : nat) (a b i : Z) (d : D) : D :=
  match fuel with
  | O => d
  | S fuel =>
      if i <? b
      then insertionSort_outer fuel a b (i + 1)
             (insertionSort_inner (Z.to_nat (i - a)) a i d)
      else d
  end.

Definition insertionSort (d : D) (a b : Z) : D :=
  insertionSort_outer (Z.to_nat (b - a)) a b (a + 1) d.

Fixpoint siftDown_loop (fuel : nat) (hi first root : Z) (d : D) : D :=
  match fuel with
  | O => d
  | S fuel =>
      let child := 2 * root + 1 in
      if hi <=? child then d
      else
        let child :=
          if child + 1 <? hi then
            if Less data d (first + child) (first + child + 1) then child + 1 else child
          else child in
        if negb (Less data d (first + root) (first + child)) then d
        else siftDown_loop fuel hi first child
               (Swap data d (first + root) (first + child))
  end.

Definition siftDown (d : D) (lo hi first : Z) : D :=
  siftDown_loop (Z.to_nat hi) hi first lo d.

Fixpoint heapSort_build (fuel : nat) (hi first i : Z) (d : D) : D :=
  match fuel with
  | O => d
  | S fuel =>
      if 0 <=? i then heapSort_build fuel hi first (i - 1) (siftDown d i hi first)
      else d
  end.

Fixpoint heapSort_pop (fuel : nat) (first lo i : Z) (d : D) : D :=
  match fuel with
  | O => d
  | S fuel =>
      if 0 <=? i
      then heapSort_pop fuel first lo (i - 1)
             (siftDown (Swap data d first (first + i)) lo i first)
      else d
  end.

Definition heapSort (d : D) (a b : Z) : D :=
  let first := a in
  let lo := 0 in
  let hi := b - a in
  let d := heapSort_build (Z.to_nat hi + 1) hi first ((hi - 1) ÷ 2) d in
  heapSort_pop (Z.to_nat hi + 1) first lo (hi - 1) d.

(** [for i <= j && cond(i) { i++ }] and [for i <= j && cond(j) { j-- }]. *)
Fixpoint scan_up (fuel : nat) (cond : Z → bool) (i j : Z) : Z :=
  match fuel with
  | O => i
  | S fuel =>
      if i <=? j then if cond i then scan_up fuel cond (i + 1) j else i else i
  end.

Fixpoint scan_down (fuel : nat) (cond : Z → bool) (i j : Z) : Z :=
  match fuel with
  | O => j
  | S fuel =>
      if i <=? j then if cond j then scan_down fuel cond i (j - 1) else j else j
  end.

Fixpoint partition_loop (fuel : nat) (a i j : Z) (d : D) : D * Z :=
  match fuel with
  | O => (d, j)
  | S fuel =>
      let i := scan_up (S fuel) (λ i, Less data d i a) i j in
      let j := scan_down (S fuel) (λ j, negb (Less data d j a)) i j in
      if j <? i then (d, j)
      else partition_loop fuel a (i + 1) (j - 1) (Swap data d i j)
  end.

Definition partition (d : D) (a b pivot : Z) : D * Z * bool :=
  let n := Z.to_nat (b - a) in
  let d := Swap data d a pivot in
  let i := a + 1 in
  let j := b - 1 in
  let i := scan_up n (λ i, Less data d i a) i j in
  let j := scan_down n (λ j, negb (Less data d j a)) i j in
  if j <? i then (Swap data d j a, j, true)
  else
    let d := Swap data d i j in
    let '(d, j) := partition_loop n a (i + 1) (j - 1) d in
    (Swap data d j a, j, false).

Fixpoint partitionEqual_loop (fuel : nat) (a i j : Z) (d : D) : D * Z :=
  match fuel with
  | O => (d, i)
  | S fuel =>
      let i := scan_up (S fuel) (λ i, negb (Less data d a i)) i j in
      let j := scan_down (S fuel) (λ j, Less data d a j) i j in
      if j <? i then (d, i)
      else partitionEqual_loop fuel a (i + 1) (j - 1) (Swap data d i j)
  end.

Definition partitionEqual (d : D) (a b pivot : Z) : D * Z :=
  let d := Swap data d a pivot in
  partitionEqual_loop (Z.to_nat (b - a)) a (a + 1) (b - 1) d.

(** [for i < b && !data.Less(i, i-1) { i++ }]. *)
Fixpoint ordered_prefix (fuel : nat) (b i : Z) (d : D) : Z :=
  match fuel with
  | O => i
  | S fuel =>
      if i <? b then
        if negb (Less data d i (i - 1)) then ordered_prefix fuel b (i + 1) d else i
      else i
  end.

Fixpoint shift_left (fuel : nat) (j : Z) (d : D) : D :=
  match fuel with
  | O => d
  | S fuel =>
      if 1 <=? j then
        if negb (Less data d j (j - 1)) then d
        else shift_left fuel (j - 1) (Swap data d j (j - 1))
      else d
  end.

Fixpoint shift_right (fuel : nat) (b j : Z) (d : D) : D :=
  match fuel with
  | O => d
  | S fuel =>
      if j <? b then
        if negb (Less data d j (j - 1)) then d
        else shift_right fuel b (j + 1) (Swap data d j (j - 1))
      else d
  end.

Fixpoint partialInsertionSort_steps (steps : nat) (a b i : Z) (d : D) : D * bool :=
  match steps with
  | O => (d, false)
  | S steps =>
      let i := ordered_prefix (Z.to_nat (b - a)) b i d in
      if i =? b then (d, true)
      else if b - a <? shortestShifting then (d, false)
      else
        let d := Swap data d i (i - 1) in
        let d := if 2 <=? i - a then shift_left (Z.to_nat i) (i - 1) d else d in
        let d := if 2 <=? b - i then shift_right (Z.to_nat (b - i)) b (i + 1) d else d in
        partialInsertionSort_steps steps a b i d
  end.

Definition partialInsertionSort (d : D) (a b : Z) : D * bool :=
  partialInsertionSort_steps maxSteps a b (a + 1) d.

(** The 64-bit xorshift generator of breakPatterns. *)
Definition xorshift_Next (r : Z) : Z :=
  let r := Z.lxor r (Z.shiftl r 13 mod 2 ^ 64) in
  let r := Z.lxor r (Z.shiftr r 7) in
  let r := Z.lxor r (Z.shiftl r 17 mod 2 ^ 64) in
  r.

Definition nextPowerOfTwo (length : Z) : Z := Z.shiftl 1 (bits_Len length).

Fixpoint breakPatterns_loop (turns : nat) (a length idx modulus i random : Z) (d : D) : D :=
  match turns with
  | O => d
  | S turns =>
      let random := xorshift_Next random in
      let other := Z.land random (modulus - 1) in
      let other := if length <=? other then other - length else other in
      breakPatterns_loop turns a length idx modulus (i + 1) random
        (Swap data d (idx - 1 + i) (a + other))
  end.

Definition breakPatterns (d : D) (a b : Z) : D :=
  let length := b - a in
  if 8 <=? length then
    let random := length in
    let modulus := nextPowerOfTwo length in
    let idx := a + (length ÷ 4) * 2 - 1 in
    breakPatterns_loop 3 a length idx modulus 0 random d
  else d.

Definition order2 (d : D) (a b swaps : Z) : Z * Z * Z :=
  if Less data d b a then (b, a, swaps + 1) else (a, b, swaps).

Definition median (d : D) (a b c swaps : Z) : Z * Z :=
  let '(a, b, swaps) := order2 d a b swaps in
  let '(b, c, swaps) := order2 d b c swaps in
  let '(a, b, swaps) := order2 d a b swaps in
  (b, swaps).

Definition medianAdjacent (d : D) (a swaps : Z) : Z * Z :=
  median d (a - 1) a (a + 1) swaps.

Definition choosePivot (d : D) (a b : Z) : Z * sortedHint :=
  let l := b - a in
  let swaps := 0 in
  let i := a + l ÷ 4 * 1 in
  let j := a + l ÷ 4 * 2 in
  let k := a + l ÷ 4 * 3 in
  let '(j, swaps) :=
    if 8 <=? l then
      let '(i, j, k, swaps) :=
        if shortestNinther <=? l then
          let '(i, swaps) := medianAdjacent d i swaps in
          let '(j, swaps) := medianAdjacent d j swaps in
          let '(k, swaps) := medianAdjacent d k swaps in
          (i, j, k, swaps)
        else (i, j, k, swaps) in
      median d i j k swaps
    else (j, swaps) in
  if swaps =? 0 then (j, increasingHint)
  else if swaps =? maxSwaps then (j, decreasingHint)
  else (j, unknownHint).

Fixpoint reverseRange_loop (fuel : nat) (i j : Z) (d : D) : D :=
  match fuel with
  | O => d
  | S fuel =>
      if i <? j then reverseRange_loop fuel (i + 1) (j - 1) (Swap data d i j) else d
  end.

Definition reverseRange (d : D) (a b : Z) : D :=
  reverseRange_loop (Z.to_nat (b - a)) a (b - 1) d.

(** pdqsort sorts data[a:b].  [wasBalanced] and [wasPartitioned] are the
    locals of the Go loop; a turn of the loop and a recursive call both work
    on a shorter range, so [b - a + 1] turns are enough. *)
Fixpoint pdqsort (fuel : nat) (d : D) (a b limit : Z) (wasBalanced wasPartitioned : bool)
  : D :=
  match fuel with
  | O => d
  | S fuel =>
      let length := b - a in
      if length <=? maxInsertion then insertionSort d a b
      else if limit =? 0 then heapSort d a b
      else
        let '(d, limit) :=
          if negb wasBalanced then (breakPatterns d a b, limit - 1) else (d, limit) in
        let '(pivot, hint) := choosePivot d a b in
        let '(d, pivot, hint) :=
          match hint with
          | decreasingHint => (reverseRange d a b, (b - 1) - (pivot - a), increasingHint)
          | _ => (d, pivot, hint)
          end in
        let '(d, sorted) :=
          match wasBalanced, wasPartitioned, hint with
          | true, true, increasingHint => partialInsertionSort d a b
          | _, _, _ => (d, false)
          end in
        if sorted then d
        else if (0 <? a) && negb (Less data d (a - 1) pivot) then
          let '(d, mid) := partitionEqual d a b pivot in
          pdqsort fuel d mid b limit wasBalanced wasPartitioned
        else
          let '(d, mid, alreadyPartitioned) := partition d a b pivot in
          let wasPartitioned := alreadyPartitioned in
          let leftLen := mid - a in
          let rightLen := b - mid in
          let balanceThreshold := length ÷ 8 in
          if leftLen <? rightLen then
            let wasBalanced := balanceThreshold <=? leftLen in
            let d := pdqsort fuel d a mid limit true true in
            pdqsort fuel d (mid + 1) b limit wasBalanced wasPartitioned
          else
            let wasBalanced := balanceThreshold <=? rightLen in
            let d := pdqsort fuel d (mid + 1) b limit true true in
            pdqsort fuel d a mid limit wasBalanced wasPartitioned
  end.

(** Sort sorts data in ascending order as determined by the Less method.
    The sort is not guaranteed to be stable. *)
Definition Sort (d : D) : D :=
  let n := Len data d in
  if n <=? 1 then d
  else pdqsort (Z.to_nat n + 1) d 0 n (bits_Len n) true true.

End gosort.
End gosort.

Section Downloader.
Context {clock : Clock} {msgrate : Msgrate} {chain : Chain} {limits : Limits}.

(** ** peerConnection *)

(** The flags keep the source's names: [headerIdle] is [true] while a header
    fetch is outstanding ("idle = 0, active = 1"). *)
Record peerConnection := mkPeerConnection {
  id : string;
  headerIdle : bool;
  blockIdle : bool;
  receiptIdle : bool;
  stateIdle : bool;
  headerStarted : Time;
  blockStarted : Time;
  receiptStarted : Time;
  stateStarted : Time;
  rates : option loc;
  lacking : gset N;
  peer : loc;
  version : N
}.

Record fetchRequest := { Headers_ : list Header }.

(** What a session asks of its remote peer (the [Peer] interface). *)
Inductive request :=
| RequestHeadersByNumber (from : Z) (count : Z) (skip : Z) (reverse : bool)
| RequestBodies (hashes : list N)
| RequestReceipts (hashes : list N)
| RequestNodeData (hashes : list N).

Record World := mkWorld {
  conns : gmap positive peerConnection;
  trks : gmap positive Tracker;
  wire : list (positive * request)
}.

Definition set_conn (p : loc) (c : peerConnection) (w : World) : World :=
  mkWorld (<[p := c]> (conns w)) (trks w) (wire w).

Definition set_trk (t : loc) (r : Tracker) (w : World) : World :=
  mkWorld (conns w) (<[t := r]> (trks w)) (wire w).

Definition go (to : loc) (r : request) (w : World) : World :=
  mkWorld (conns w) (trks w) (wire w ++ [(to, r)]).

Definition set_headerIdle (b : bool) (c : peerConnection) : peerConnection :=
  mkPeerConnection (id c) b (blockIdle c) (receiptIdle c) (stateIdle c)
    (headerStarted c) (blockStarted c) (receiptStarted c) (stateStarted c)
    (rates c) (lacking c) (peer c) (version c).

Definition set_blockIdle (b : bool) (c : peerConnection) : peerConnection :=
  mkPeerConnection (id c) (headerIdle c) b (receiptIdle c) (stateIdle c)
    (headerStarted c) (blockStarted c) (receiptStarted c) (stateStarted c)
    (rates c) (lacking c) (peer c) (version c).

Definition set_receiptIdle (b : bool) (c : peerConnection) : peerConnection :=
  mkPeerConnection (id c) (headerIdle c) (blockIdle c) b (stateIdle c)
    (headerStarted c) (blockStarted c) (receiptStarted c) (stateStarted c)
    (rates c) (lacking c) (peer c) (version c).

Definition set_stateIdle (b : bool) (c : peerConnection) : peerConnection :=
  mkPeerConnection (id c) (headerIdle c) (blockIdle c) (receiptIdle c) b
    (headerStarted c) (blockStarted c) (receiptStarted c) (stateStarted c)
    (rates c) (lacking c) (peer c) (version c).

Definition set_headerStarted (t : Time) (c : peerConnection) : peerConnection :=
  mkPeerConnection (id c) (headerIdle c) (blockIdle c) (receiptIdle c) (stateIdle c)
    t (blockStarted c) (receiptStarted c) (stateStarted c)
    (rates c) (lacking c) (peer c) (version c).

Definition set_blockStarted (t : Time) (c : peerConnection) : peerConnection :=
  mkPeerConnection (id c) (headerIdle c) (blockIdle c) (receiptIdle c) (stateIdle c)
    (headerStarted c) t (receiptStarted c) (stateStarted c)
    (rates c) (lacking c) (peer c) (version c).

Definition set_receiptStarted (t : Time) (c : peerConnection) : peerConnection :=
  mkPeerConnection (id c) (headerIdle c) (blockIdle c) (receiptIdle c) (stateIdle c)
    (headerStarted c) (blockStarted c) t (stateStarted c)
    (rates c) (lacking c) (peer c) (version c).

Definition set_stateStarted (t : Time) (c : peerConnection) : peerConnection :=
  mkPeerConnection (id c) (headerIdle c) (blockIdle c) (receiptIdle c) (stateIdle c)
    (headerStarted c) (blockStarted c) (receiptStarted c) t
    (rates c) (lacking c) (peer c) (version c).

Definition set_rates (r : option loc) (c : peerConnection) : peerConnection :=
  mkPeerConnection (id c) (headerIdle c) (blockIdle c) (receiptIdle c) (stateIdle c)
    (headerStarted c) (blockStarted c) (receiptStarted c) (stateStarted c)
    r (lacking c) (peer c) (version c).

Definition set_lacking (s : gset N) (c : peerConnection) : peerConnection :=
  mkPeerConnection (id c) (headerIdle c) (blockIdle c) (receiptIdle c) (stateIdle c)
    (headerStarted c) (blockStarted c) (receiptStarted c) (stateStarted c)
    (rates c) s (peer c) (version c).

(** [atomic.Bool.CompareAndSwap old new] on a flag that holds [cur]: whether
    it swapped, and what the flag holds afterwards. *)
Definition CompareAndSwap (old new cur : bool) : bool * bool :=
  if Bool.eqb cur old then (true, new) else (false, cur).

(** newPeerConnection allocates the session; every field the composite
    literal leaves out has its zero value. *)
Definition newPeerConnection (id0 : string) (version0 : N) (peer0 : loc) (w : World)
  : loc * World :=
  let p := fresh (dom (conns w)) in
  (p, set_conn p (mkPeerConnection id0 false false false false
                    time_zero time_zero time_zero time_zero
                    None ∅ peer0 version0) w).

(** Reading through a [*peerConnection]: the nil pointer and a pointer to
    nothing panic. *)
Definition deref (p : loc) (w : World) : outcome peerConnection :=
  match conns w !! p with
  | Some c => Return c
  | None => Panic panicNil
  end.

(** Reset clears the internal state of a peer entity. *)
Definition peerConnection_Reset (p : loc) (w : World) : outcome World :=
  c ← deref p w;
  let c := set_headerIdle false c in
  let c := set_blockIdle false c in
  let c := set_receiptIdle false c in
  let c := set_stateIdle false c in
  let c := set_lacking ∅ c in
  Return (set_conn p c w).

(** FetchHeaders sends a header retrieval request to the remote peer. *)
Definition FetchHeaders (now : Time) (p : loc) (from count : Z) (w : World)
  : outcome (option error * World) :=
  c ← deref p w;
  if (version c <? 62)%N then Panic (panicProtocol "header fetch" 62 (version c))
  else
    let '(swapped, flag) := CompareAndSwap false true (headerIdle c) in
    if negb swapped then Return (Some errAlreadyFetching, w)
    else
      let c := set_headerIdle flag c in
      let c := set_headerStarted now c in
      Return (None, go (peer c) (RequestHeadersByNumber from count 0 false)
                      (set_conn p c w)).

(** FetchBodies sends a block body retrieval request to the remote peer. *)
Definition FetchBodies (now : Time) (p : loc) (req : fetchRequest) (w : World)
  : outcome (option error * World) :=
  c ← deref p w;
  if (version c <? 62)%N then Panic (panicProtocol "body fetch" 62 (version c))
  else
    let '(swapped, flag) := CompareAndSwap false true (blockIdle c) in
    if negb swapped then Return (Some errAlreadyFetching, w)
    else
      let c := set_blockIdle flag c in
      let c := set_blockStarted now c in
      Return (None, go (peer c) (RequestBodies (map Header_Hash (Headers_ req)))
                      (set_conn p c w)).

(** FetchReceipts sends a receipt retrieval request to the remote peer. *)
Definition FetchReceipts (now : Time) (p : loc) (req : fetchRequest) (w : World)
  : outcome (option error * World) :=
  c ← deref p w;
  if (version c <? 63)%N then Panic (panicProtocol "body fetch" 63 (version c))
  else
    let '(swapped, flag) := CompareAndSwap false true (receiptIdle c) in
    if negb swapped then Return (Some errAlreadyFetching, w)
    else
      let c := set_receiptIdle flag c in
      let c := set_receiptStarted now c in
      Return (None, go (peer c) (RequestReceipts (map Header_Hash (Headers_ req)))
                      (set_conn p c w)).

(** FetchNodeData sends a node state data retrieval request to the remote peer. *)
Definition FetchNodeData (now : Time) (p : loc) (hashes : list N) (w : World)
  : outcome (option error * World) :=
  c ← deref p w;
  if (version c <? 63)%N then Panic (panicProtocol "node data fetch" 63 (version c))
  else
    let '(swapped, flag) := CompareAndSwap false true (stateIdle c) in
    if negb swapped then Return (Some errAlreadyFetching, w)
    else
      let c := set_stateIdle flag c in
      let c := set_stateStarted now c in
      Return (None, go (peer c) (RequestNodeData hashes) (set_conn p c w)).

(** Reading through [p.rates]: the tracker's location and its state. *)
Definition tracker_of (c : peerConnection) (w : World) : outcome (loc * Tracker) :=
  match rates c with
  | None => Panic panicNil
  | Some t =>
      match trks w !! t with
      | Some r => Return (t, r)
      | None => Panic panicNil
      end
  end.

(** SetHeadersIdle sets the peer to idle, allowing it to execute new header
    retrieval requests. Its estimated header retrieval throughput is updated
    with that measured just now. *)
Definition SetHeadersIdle (p : loc) (delivered : Z) (deliveryTime : Time) (w : World)
  : outcome World :=
  c ← deref p w;
  '(t, r) ← tracker_of c w;
  let w := set_trk t (Tracker_Update r BlockHeadersMsg
                        (time_Sub deliveryTime (headerStarted c)) delivered) w in
  Return (set_conn p (set_headerIdle false c) w).

(** SetBodiesIdle, the same for block bodies. *)
Definition SetBodiesIdle (p : loc) (delivered : Z) (deliveryTime : Time) (w : World)
  : outcome World :=
  c ← deref p w;
  '(t, r) ← tracker_of c w;
  let w := set_trk t (Tracker_Update r BlockBodiesMsg
                        (time_Sub deliveryTime (blockStarted c)) delivered) w in
  Return (set_conn p (set_blockIdle false c) w).

(** SetReceiptsIdle, the same for receipts. *)
Definition SetReceiptsIdle (p : loc) (delivered : Z) (deliveryTime : Time) (w : World)
  : outcome World :=
  c ← deref p w;
  '(t, r) ← tracker_of c w;
  let w := set_trk t (Tracker_Update r ReceiptsMsg
                        (time_Sub deliveryTime (receiptStarted c)) delivered) w in
  Return (set_conn p (set_receiptIdle false c) w).

(** SetNodeDataIdle, the same for state trie data. *)
Definition SetNodeDataIdle (p : loc) (delivered : Z) (deliveryTime : Time) (w : World)
  : outcome World :=
  c ← deref p w;
  '(t, r) ← tracker_of c w;
  let w := set_trk t (Tracker_Update r NodeDataMsg
                        (time_Sub deliveryTime (stateStarted c)) delivered) w in
  Return (set_conn p (set_stateIdle false c) w).

(** [p.rates.Capacity(kind, targetRTT)]. *)
Definition rates_Capacity (kind : MsgCode) (targetRTT : Z) (w : World) (p : loc)
  : outcome Z :=
  c ← deref p w;
  '(_, r) ← tracker_of c w;
  Return (Tracker_Capacity r kind targetRTT).

(** HeaderCapacity retrieves the peers header download allowance based on its
    previously discovered throughput. *)
Definition HeaderCapacity (p : loc) (targetRTT : Z) (w : World) : outcome Z :=
  cap ← rates_Capacity BlockHeadersMsg targetRTT w p;
  Return (if MaxHeaderFetch <? cap then MaxHeaderFetch else cap).

(** BlockCapacity, the same for block bodies. *)
Definition BlockCapacity (p : loc) (targetRTT : Z) (w : World) : outcome Z :=
  cap ← rates_Capacity BlockBodiesMsg targetRTT w p;
  Return (if MaxBlockFetch <? cap then MaxBlockFetch else cap).

(** ReceiptCapacity, the same for receipts. *)
Definition ReceiptCapacity (p : loc) (targetRTT : Z) (w : World) : outcome Z :=
  cap ← rates_Capacity ReceiptsMsg targetRTT w p;
  Return (if MaxReceiptFetch <? cap then MaxReceiptFetch else cap).

(** NodeDataCapacity, the same for state trie data. *)
Definition NodeDataCapacity (p : loc) (targetRTT : Z) (w : World) : outcome Z :=
  cap ← rates_Capacity NodeDataMsg targetRTT w p;
  Return (if MaxStateFetch <? cap then MaxStateFetch else cap).

(** The order in which [range] yields the entries of a Go map is not
    specified and differs from one loop to the next: every method that ranges
    over a map takes the order as an argument. *)
Record rangeOrder := {
  range_peers : gmap string positive → list (string * positive);
  range_peers_perm : ∀ m, range_peers m ≡ₚ map_to_list m;
  range_lacking : gset N → list N;
  range_lacking_perm : ∀ s, range_lacking s ≡ₚ elements s
}.

(** The loop of MarkLacking,
      for len(p.lacking) >= maxLackingHashes {
        for drop := range p.lacking { delete(p.lacking, drop); break } }
    run for at most [fuel] turns ([dropLacking_exit]: [size s] turns are
    enough).  A map that [range] finds empty has length 0, below the bound. *)
Fixpoint dropLacking (o : rangeOrder) (fuel : nat) (s : gset N) : gset N :=
  match fuel with
  | O => s
  | S fuel =>
      if decide (maxLackingHashes ≤ Z.of_nat (size s)) then
        match range_lacking o s with
        | drop :: _ => dropLacking o fuel (s ∖ {[drop]})
        | [] => s
        end
      else s
  end.

(** MarkLacking appends a new entity to the set of items that a peer is known
    not to have.  If the set reaches its maximum allowed capacity, items are
    randomly dropped off. *)
Definition MarkLacking (o : rangeOrder) (p : loc) (hash : N) (w : World)
  : outcome World :=
  c ← deref p w;
  let s := dropLacking o (size (lacking c)) (lacking c) in
  Return (set_conn p (set_lacking ({[hash]} ∪ s) c) w).

(** Lacks retrieves whether the hash of a blockchain item is on the peers
    lacking list. *)
Definition Lacks (p : loc) (hash : N) (w : World) : outcome bool :=
  c ← deref p w;
  Return (bool_decide (hash ∈ lacking c)).

(** ** peerSet *)

(** Modelled from the spec: msgrate.Trackers (p2p/msgrate is not among the
    sources at hand), "an aggregate rate-tracker collection mirroring the same
    id space" with "register/deregister hooks keyed by session id": the
    trackers by session id.  Track refuses an id that is tracked already and
    Untrack one that is not. *)
Record Trackers := mkTrackers { trackers : gmap string positive }.

Definition Trackers_Track (id0 : string) (t : loc) (ts : Trackers)
  : option error * Trackers :=
  match trackers ts !! id0 with
  | Some _ => (Some errTracked, ts)
  | None => (None, mkTrackers (<[id0 := t]> (trackers ts)))
  end.

Definition Trackers_Untrack (id0 : string) (ts : Trackers) : option error * Trackers :=
  match trackers ts !! id0 with
  | None => (Some errTracked, ts)
  | Some _ => (None, mkTrackers (delete id0 (trackers ts)))
  end.

(** The states of the tracked trackers, which MeanCapacities and
    MedianRoundTrip summarise. *)
Definition tracked (ts : Trackers) (w : World) : gmap string Tracker :=
  omap (λ t, trks w !! t) (trackers ts).

(** peerSet represents the collection of active peers.  A feed is the list of
    the events sent on it so far. *)
Record peerSet := mkPeerSet {
  peers : gmap string positive;
  ps_rates : Trackers;
  newPeerFeed : list positive;
  peerDropFeed : list positive
}.

Definition newPeerSet : peerSet := mkPeerSet ∅ (mkTrackers ∅) [] [].

(** Reset iterates over the current peer set, and resets each of the known
    peers. *)
Fixpoint peerSet_Reset_loop (l : list (string * positive)) (w : World) : outcome World :=
  match l with
  | [] => Return w
  | (_, p) :: l => w ← peerConnection_Reset p w; peerSet_Reset_loop l w
  end.

Definition peerSet_Reset (o : rangeOrder) (ps : peerSet) (w : World) : outcome World :=
  peerSet_Reset_loop (range_peers o (peers ps)) w.

(** Register injects a new peer into the working set, or returns an error if
    the peer is already known. *)
Definition Register (p : loc) (ps : peerSet) (w : World)
  : outcome (option error * peerSet * World) :=
  c ← deref p w;
  match peers ps !! id c with
  | Some _ => Return (Some errAlreadyRegistered, ps, w)
  | None =>
      let t := fresh (dom (trks w)) in
      let r := NewTracker (MeanCapacities (tracked (ps_rates ps) w))
                          (MedianRoundTrip (tracked (ps_rates ps) w)) in
      let w := set_trk t r w in
      let c := set_rates (Some t) c in
      let w := set_conn p c w in
      match Trackers_Track (id c) t (ps_rates ps) with
      | (Some err, _) => Return (Some err, ps, w)
      | (None, ts) =>
          Return (None,
                  mkPeerSet (<[id c := p]> (peers ps)) ts
                            (newPeerFeed ps ++ [p]) (peerDropFeed ps),
                  w)
      end
  end.

(** Unregister removes a remote peer from the active set. *)
Definition Unregister (id0 : string) (ps : peerSet) : option error * peerSet :=
  match peers ps !! id0 with
  | None => (Some errNotRegistered, ps)
  | Some p =>
      (None,
       mkPeerSet (delete id0 (peers ps)) (snd (Trackers_Untrack id0 (ps_rates ps)))
                 (newPeerFeed ps) (peerDropFeed ps ++ [p]))
  end.

(** Peer retrieves the registered peer with the given id; [None] is the nil
    pointer that indexing a map with an absent key yields. *)
Definition Peer (id0 : string) (ps : peerSet) : option loc := peers ps !! id0.

(** Len returns the current number of peers in the set. *)
Definition peerSet_Len (ps : peerSet) : Z := Z.of_nat (size (peers ps)).

(** AllPeers retrieves a flat list of all the peers within the set. *)
Definition AllPeers (o : rangeOrder) (ps : peerSet) : list loc :=
  (range_peers o (peers ps)).*2.

(** peerCapacitySort implements the Sort interface: the peers and their
    throughputs, side by side. *)
Record peerCapacitySort := mkPeerCapacitySort {
  sort_p : list positive;
  sort_tp : list Z
}.

Definition index {A : Type} (l : list A) (i : Z) : option A :=
  if i <? 0 then None else l !! Z.to_nat i.

(** l[i], l[j] = l[j], l[i].  An index out of range panics in Go; sort.Sort
    passes indices below Len only, and the list is left as it is otherwise. *)
Definition swap {A : Type} (l : list A) (i j : Z) : list A :=
  match index l i, index l j with
  | Some x, Some y => <[Z.to_nat i := y]> (<[Z.to_nat j := x]> l)
  | _, _ => l
  end.

Definition peerCapacitySort_Len (ps : peerCapacitySort) : Z :=
  Z.of_nat (length (sort_p ps)).

Definition peerCapacitySort_Less (ps : peerCapacitySort) (i j : Z) : bool :=
  match index (sort_tp ps) i, index (sort_tp ps) j with
  | Some x, Some y => y <? x
  | _, _ => false
  end.

Definition peerCapacitySort_Swap (ps : peerCapacitySort) (i j : Z) : peerCapacitySort :=
  mkPeerCapacitySort (swap (sort_p ps) i j) (swap (sort_tp ps) i j).

Definition peerCapacitySort_Interface : Interface peerCapacitySort :=
  mkInterface peerCapacitySort peerCapacitySort_Len peerCapacitySort_Less
              peerCapacitySort_Swap.

(** [sort.Sort] of the Go standard library, called with a [*peerCapacitySort]
    (which implements [sort.Interface] by the three methods above). *)
Variable sort_Sort : peerCapacitySort → peerCapacitySort.

(** The loop of idlePeers over the peers in the order [range] yields them. *)
Fixpoint idlePeers_loop (minProtocol maxProtocol : N)
    (idleCheck : World → loc → outcome bool) (capacity : World → loc → outcome Z)
    (w : World) (l : list (string * positive))
    (total : Z) (idle : list positive) (tps : list Z)
  : outcome (Z * list positive * list Z) :=
  match l with
  | [] => Return (total, idle, tps)
  | (_, p) :: l =>
      c ← deref p w;
      if (minProtocol <=? version c)%N && (version c <=? maxProtocol)%N then
        free ← idleCheck w p;
        if free : bool then
          tp ← capacity w p;
          idlePeers_loop minProtocol maxProtocol idleCheck capacity w l
            (total + 1) (idle ++ [p]) (tps ++ [tp])
        else
          idlePeers_loop minProtocol maxProtocol idleCheck capacity w l
            (total + 1) idle tps
      else
        idlePeers_loop minProtocol maxProtocol idleCheck capacity w l total idle tps
  end.

(** idlePeers retrieves a flat list of all currently idle peers satisfying
    the protocol version constraints, using the provided function to check
    idleness.  The resulting set of peers are sorted by their measure
    throughput. *)
Definition idlePeers (o : rangeOrder) (minProtocol maxProtocol : N)
    (idleCheck : World → loc → outcome bool) (capacity : World → loc → outcome Z)
    (ps : peerSet) (w : World) : outcome (list loc * Z) :=
  '(total, idle, tps) ←
    idlePeers_loop minProtocol maxProtocol idleCheck capacity w
      (range_peers o (peers ps)) 0 [] [];
  let sortPeers := mkPeerCapacitySort idle tps in
  let sortPeers := sort_Sort sortPeers in
  Return (sort_p sortPeers, total).

(** HeaderIdlePeers retrieves a flat list of all the currently header-idle
    peers within the active peer set, ordered by their reputation. *)
Definition HeaderIdlePeers (o : rangeOrder) (ps : peerSet) (w : World)
  : outcome (list loc * Z) :=
  let idle := λ w p, c ← deref p w; Return (negb (headerIdle c)) in
  let throughput := rates_Capacity BlockHeadersMsg time_Second in
  idlePeers o 63 65 idle throughput ps w.

(** BodyIdlePeers, the same for block bodies. *)
Definition BodyIdlePeers (o : rangeOrder) (ps : peerSet) (w : World)
  : outcome (list loc * Z) :=
  let idle := λ w p, c ← deref p w; Return (negb (blockIdle c)) in
  let throughput := rates_Capacity BlockBodiesMsg time_Second in
  idlePeers o 63 65 idle throughput ps w.

(** ReceiptIdlePeers, the same for receipts. *)
Definition ReceiptIdlePeers (o : rangeOrder) (ps : peerSet) (w : World)
  : outcome (list loc * Z) :=
  let idle := λ w p, c ← deref p w; Return (negb (receiptIdle c)) in
  let throughput := rates_Capacity NodeDataMsg time_Second in
  idlePeers o 63 65 idle throughput ps w.

(** NodeDataIdlePeers, the same for state trie data. *)
Definition NodeDataIdlePeers (o : rangeOrder) (ps : peerSet) (w : World)
  : outcome (list loc * Z) :=
  let idle := λ w p, c ← deref p w; Return (negb (stateIdle c)) in
  let throughput := rates_Capacity NodeDataMsg time_Second in
  idlePeers o 63 65 idle throughput ps w.

(** ** The four kinds at once *)

Inductive fetchArgs :=
| headersArgs (from count : Z)
| bodiesArgs (req : fetchRequest)
| receiptsArgs (req : fetchRequest)
| nodeDataArgs (hashes : list N).

Definition kindOf (a : fetchArgs) : Kind :=
  match a with
  | headersArgs _ _ => Headers
  | bodiesArgs _ => Bodies
  | receiptsArgs _ => Receipts
  | nodeDataArgs _ => NodeData
  end.

Definition Fetch (now : Time) (p : loc) (a : fetchArgs) (w : World)
  : outcome (option error * World) :=
  match a with
  | headersArgs from count => FetchHeaders now p from count w
  | bodiesArgs req => FetchBodies now p req w
  | receiptsArgs req => FetchReceipts now p req w
  | nodeDataArgs hashes => FetchNodeData now p hashes w
  end.

Definition SetIdle (k : Kind) (p : loc) (delivered : Z) (deliveryTime : Time) (w : World)
  : outcome World :=
  match k with
  | Headers => SetHeadersIdle p delivered deliveryTime w
  | Bodies => SetBodiesIdle p delivered deliveryTime w
  | Receipts => SetReceiptsIdle p delivered deliveryTime w
  | NodeData => SetNodeDataIdle p delivered deliveryTime w
  end.

(** The flag of a kind ([true]: a fetch is outstanding) and its start time. *)
Definition flag (k : Kind) (c : peerConnection) : bool :=
  match k with
  | Headers => headerIdle c
  | Bodies => blockIdle c
  | Receipts => receiptIdle c
  | NodeData => stateIdle c
  end.

Definition started (k : Kind) (c : peerConnection) : Time :=
  match k with
  | Headers => headerStarted c
  | Bodies => blockStarted c
  | Receipts => receiptStarted c
  | NodeData => stateStarted c
  end.

Definition set_flag (k : Kind) (b : bool) (c : peerConnection) : peerConnection :=
  match k with
  | Headers => set_headerIdle b c
  | Bodies => set_blockIdle b c
  | Receipts => set_receiptIdle b c
  | NodeData => set_stateIdle b c
  end.

Definition set_started (k : Kind) (t : Time) (c : peerConnection) : peerConnection :=
  match k with
  | Headers => set_headerStarted t c
  | Bodies => set_blockStarted t c
  | Receipts => set_receiptStarted t c
  | NodeData => set_stateStarted t c
  end.

(** The request a fetch hands to the remote peer. *)
Definition requestOf (a : fetchArgs) : request :=
  match a with
  | headersArgs from count => RequestHeadersByNumber from count 0 false
  | bodiesArgs req => RequestBodies (map Header_Hash (Headers_ req))
  | receiptsArgs req => RequestReceipts (map Header_Hash (Headers_ req))
  | nodeDataArgs hashes => RequestNodeData hashes
  end.

(** What a fetch below the version it needs panics with. *)
Definition panicWhat (a : fetchArgs) : string :=
  match a with
  | headersArgs _ _ => "header fetch"
  | bodiesArgs _ => "body fetch"
  | receiptsArgs _ => "body fetch"
  | nodeDataArgs _ => "node data fetch"
  end.

(** What the specification says of a kind: the protocol version a fetch
    needs, and the message code its deliveries are measured under. *)
Definition minVersion (k : Kind) : N :=
  match k with
  | Headers | Bodies => 62
  | Receipts | NodeData => 63
  end.

Definition msgCode (k : Kind) : MsgCode :=
  match k with
  | Headers => BlockHeadersMsg
  | Bodies => BlockBodiesMsg
  | Receipts => ReceiptsMsg
  | NodeData => NodeDataMsg
  end.

(** The closures the four idle-peer queries pass to idlePeers. *)
Definition idleCheckOf (k : Kind) (w : World) (p : loc) : outcome bool :=
  c ← deref p w; Return (negb (flag k c)).

Definition throughputOf (k : Kind) : World → loc → outcome Z :=
  match k with
  | Headers => rates_Capacity BlockHeadersMsg time_Second
  | Bodies => rates_Capacity BlockBodiesMsg time_Second
  | Receipts => rates_Capacity NodeDataMsg time_Second
  | NodeData => rates_Capacity NodeDataMsg time_Second
  end.

Definition IdlePeers (k : Kind) (o : rangeOrder) (ps : peerSet) (w : World)
  : outcome (list loc * Z) :=
  match k with
  | Headers => HeaderIdlePeers o ps w
  | Bodies => BodyIdlePeers o ps w
  | Receipts => ReceiptIdlePeers o ps w
  | NodeData => NodeDataIdlePeers o ps w
  end.

(** ** Histories *)

(** The calls that change the state of the sessions or of the registry. *)
Inductive call :=
| call_newPeerConnection (id0 : string) (version0 : N) (peer0 : loc)
| call_Reset (p : loc)
| call_Fetch (now : Time) (p : loc) (a : fetchArgs)
| call_SetIdle (k : Kind) (p : loc) (delivered : Z) (deliveryTime : Time)
| call_MarkLacking (o : rangeOrder) (p : loc) (hash : N)
| call_peerSet_Reset (o : rangeOrder)
| call_Register (p : loc)
| call_Unregister (id0 : string).

Definition exec (c : call) (s : peerSet * World) : outcome (peerSet * World) :=
  let '(ps, w) := s in
  match c with
  | call_newPeerConnection id0 version0 peer0 =>
      Return (ps, snd (newPeerConnection id0 version0 peer0 w))
  | call_Reset p => w ← peerConnection_Reset p w; Return (ps, w)
  | call_Fetch now p a => '(_, w) ← Fetch now p a w; Return (ps, w)
  | call_SetIdle k p delivered deliveryTime =>
      w ← SetIdle k p delivered deliveryTime w; Return (ps, w)
  | call_MarkLacking o p hash => w ← MarkLacking o p hash w; Return (ps, w)
  | call_peerSet_Reset o => w ← peerSet_Reset o ps w; Return (ps, w)
  | call_Register p => '(_, ps, w) ← Register p ps w; Return (ps, w)
  | call_Unregister id0 => Return (snd (Unregister id0 ps), w)
  end.

(** A registration or a removal that went through. *)
Inductive regEvent :=
| Registered (id0 : string) (p : loc)
| Unregistered (id0 : string).

Definition eventsOf (c : call) (s : peerSet * World) : list regEvent :=
  let '(ps, w) := s in
  match c with
  | call_Register p =>
      match deref p w, Register p ps w with
      | Return c0, Return (None, _, _) => [Registered (id c0) p]
      | _, _ => []
      end
  | call_Unregister id0 =>
      match Unregister id0 ps with
      | (None, _) => [Unregistered id0]
      | _ => []
      end
  | _ => []
  end.

(** Running a history from a state: the state it ends in and the
    registrations and removals that went through, oldest first.  A panic
    ends the program. *)
Fixpoint run (cs : list call) (s : peerSet * World)
  : outcome (peerSet * World * list regEvent) :=
  match cs with
  | [] => Return (s, [])
  | c :: cs =>
      s' ← exec c s;
      '(s'', evs) ← run cs s';
      Return (s'', eventsOf c s ++ evs)
  end.

Definition initial : peerSet * World := (newPeerSet, mkWorld ∅ ∅ []).

Definition reachable (s : peerSet * World) : Prop :=
  ∃ cs evs, run cs initial = Return (s, evs).

(** Whom a history left registered under an id: the session of the last
    registration, unless a removal came after it. *)
Fixpoint registeredBy (id0 : string) (evs : list regEvent) (acc : option loc)
  : option loc :=
  match evs with
  | [] => acc
  | Registered i p :: evs =>
      registeredBy id0 evs (if decide (i = id0) then Some p else acc)
  | Unregistered i :: evs =>
      registeredBy id0 evs (if decide (i = id0) then None else acc)
  end.

(** ** Predicates of the statements below *)

(** What every history keeps true of a session: a flag is raised only on a
    session whose version allows the fetch, the lacking set is within its
    bound, and the tracker is allocated once it is set. *)
Definition conn_ok (ts : gmap positive Tracker) (c : peerConnection) : Prop :=
  (∀ k, flag k c = true → (minVersion k ≤ version c)%N) ∧
  Z.of_nat (size (lacking c)) ≤ maxLackingHashes ∧
  (∀ t, rates c = Some t → is_Some (ts !! t)).

(** And of the registry: a registered pointer points to a session of that id
    which has its tracker, and the tracked ids are the registered ids. *)
Definition state_ok (s : peerSet * World) : Prop :=
  (∀ p c, conns (snd s) !! p = Some c → conn_ok (trks (snd s)) c) ∧
  (∀ i p, peers (fst s) !! i = Some p →
     ∃ c, conns (snd s) !! p = Some c ∧ id c = i ∧ is_Some (rates c)) ∧
  (∀ i, trackers (ps_rates (fst s)) !! i = None ↔ peers (fst s) !! i = None).

(** The documented contract of [sort.Sort], for a [*peerCapacitySort] whose
    two slices have the same length: the data is rearranged by Swap, so the
    pairs of a peer and its throughput are permuted, and in the result no
    element is Less than one before it.  Nothing is promised on the order of
    elements neither of which is Less than the other. *)
Definition sorted_by_Less (d : peerCapacitySort) : Prop :=
  ∀ i j, 0 ≤ i → i < j → j < peerCapacitySort_Len d →
    peerCapacitySort_Less d j i = false.

Definition sort_contract (f : peerCapacitySort → peerCapacitySort) : Prop :=
  ∀ d, length (sort_p d) = length (sort_tp d) →
    zip (sort_p (f d)) (sort_tp (f d)) ≡ₚ zip (sort_p d) (sort_tp d) ∧
    length (sort_p (f d)) = length (sort_tp (f d)) ∧
    sorted_by_Less (f d).

(** The version of a registered pointer lies within the bounds; its flag for
    a kind is down. *)
Definition versionIn (minProtocol maxProtocol : N) (w : World) (p : loc) : bool :=
  match conns w !! p with
  | Some c => (minProtocol <=? version c)%N && (version c <=? maxProtocol)%N
  | None => false
  end.

Definition idleFor (k : Kind) (w : World) (p : loc) : bool :=
  match conns w !! p with
  | Some c => negb (flag k c)
  | None => false
  end.

(** The throughput an idle-peer query of a kind sorts a peer by. *)
Definition capOf (k : Kind) (w : World) (p : loc) : Z :=
  match throughputOf k w p with
  | Return tp => tp
  | Panic _ => 0
  end.

(** A session as Reset leaves it: no fetch outstanding, nothing lacking. *)
Definition cleared (p : loc) (w : World) : Prop :=
  ∃ c, conns w !! p = Some c ∧
       (∀ k, flag k c = false) ∧
       lacking c = ∅ ∧
       (∀ hash, Lacks p hash w = Return false) ∧
       (∀ now a r w', Fetch now p a w = Return (r, w') → r ≠ Some errAlreadyFetching).

(** The state a history ends in. *)
Definition finalState (cs : list call) : peerSet * World :=
  match run cs initial with
  | Return (s, _) => s
  | Panic _ => initial
  end.

(** The registrations and removals that went through in a history, if it
    runs to its end. *)
Definition eventsIn (cs : list call) : option (list regEvent) :=
  match run cs initial with
  | Return (_, evs) => Some evs
  | Panic _ => None
  end.

(** [a] comes before [b] in a list. *)
Definition before {A : Type} (a b : A) (l : list A) : Prop :=
  ∃ i j : nat, l !! i = Some a ∧ l !! j = Some b ∧ (i < j)%nat.

(** Peers of equal capacity are returned in the order of the traversal. *)
Definition ties_keep_order (cap : loc → Z) (traversal result : list loc) : Prop :=
  ∀ a b, cap a = cap b → before a b traversal → before a b result.

End Downloader.

(** ** Instances for the closed examples *)

(** Times are counted in nanoseconds. *)
Definition nanoClock : Clock :=
  {| Time := Z; time_zero := 0; time_Sub := λ t u, t - u |}.

(** A small tracker: per message code, the items per second of the last
    delivery measured; a newcomer starts from the mean of the others, or from
    10 items per second when there is none. *)
Record lastRate := mkLastRate {
  rateHeaders : Z;
  rateBodies : Z;
  rateNodeData : Z;
  rateReceipts : Z
}.

Definition lastRate_get (t : lastRate) (kind : MsgCode) : Z :=
  match kind with
  | BlockHeadersMsg => rateHeaders t
  | BlockBodiesMsg => rateBodies t
  | NodeDataMsg => rateNodeData t
  | ReceiptsMsg => rateReceipts t
  end.

Definition lastRate_set (t : lastRate) (kind : MsgCode) (v : Z) : lastRate :=
  match kind with
  | BlockHeadersMsg => mkLastRate v (rateBodies t) (rateNodeData t) (rateReceipts t)
  | BlockBodiesMsg => mkLastRate (rateHeaders t) v (rateNodeData t) (rateReceipts t)
  | NodeDataMsg => mkLastRate (rateHeaders t) (rateBodies t) v (rateReceipts t)
  | ReceiptsMsg => mkLastRate (rateHeaders t) (rateBodies t) (rateNodeData t) v
  end.

Definition lastRate_mean (m : gmap string lastRate) (kind : MsgCode) : Z :=
  let l := (map_to_list m).*2 in
  match l with
  | [] => 10
  | _ => foldr (λ t acc, lastRate_get t kind + acc) 0 l ÷ Z.of_nat (length l)
  end.

Definition lastRateTracker : Msgrate :=
  {| Tracker := lastRate;
     Capacities := lastRate;
     Tracker_Update := λ t kind elapsed items,
       if 0 <? elapsed then lastRate_set t kind (items * time_Second ÷ elapsed) else t;
     Tracker_Capacity := λ t kind targetRTT, lastRate_get t kind * targetRTT ÷ time_Second;
     NewTracker := λ caps _, caps;
     MeanCapacities := λ m,
       mkLastRate (lastRate_mean m BlockHeadersMsg) (lastRate_mean m BlockBodiesMsg)
                  (lastRate_mean m NodeDataMsg) (lastRate_mean m ReceiptsMsg);
     MedianRoundTrip := λ _, time_Second |}.

(** A header is known by its hash. *)
Definition hashChain : Chain := {| Header := N; Header_Hash := λ h, h |}.

(** [range] in the order of the map's own enumeration. *)
Definition enumOrder : rangeOrder :=
  {| range_peers := map_to_list;
     range_peers_perm := λ m, reflexivity (map_to_list m);
     range_lacking := elements;
     range_lacking_perm := λ s, reflexivity (elements s) |}.

(** [sort.Sort] as Go runs it. *)
Definition goSort : peerCapacitySort → peerCapacitySort :=
  gosort.Sort peerCapacitySort_Interface.

(** A merge sort by descending throughput, which meets the contract of
    [sort.Sort] too. *)
Definition byThroughput (x y : positive * Z) : Prop := y.2 ≤ x.2.

Global Instance byThroughput_dec : RelDecision byThroughput :=
  λ x y, Z_le_dec y.2 x.2.

Definition mergeSort (d : peerCapacitySort) : peerCapacitySort :=
  let l := merge_sort byThroughput (zip (sort_p d) (sort_tp d)) in
  mkPeerCapacitySort l.*1 l.*2.

(** The same after turning the data round, which meets the contract as
    well as any. *)
Definition reversingSort (d : peerCapacitySort) : peerCapacitySort :=
  mergeSort (mkPeerCapacitySort (reverse (sort_p d)) (reverse (sort_tp d))).

(** ** Histories for the closed examples *)

Section Histories.
#[local] Existing Instance nanoClock.
#[local] Existing Instance lastRateTracker.
#[local] Existing Instance hashChain.

(** Sessions of versions 61, 63 and 65, registered. *)
Definition threeVersions : list call :=
  [ call_newPeerConnection "a" 61 101;
    call_newPeerConnection "b" 63 102;
    call_newPeerConnection "c" 65 103;
    call_Register 1; call_Register 2; call_Register 3 ].

(** Session A at version 64, registered, with a header fetch outstanding. *)
Definition fetchingHeaders : list call :=
  [ call_newPeerConnection "A" 64 101;
    call_Register 1;
    call_Fetch 5 1 (headersArgs 0 100) ].

(** Session A at version 64, registered and idle. *)
Definition registeredPeer : list call :=
  [ call_newPeerConnection "A" 64 101;
    call_Register 1 ].

(** Session A with a header fetch outstanding and a hash it lacks. *)
Definition fetchingAndLacking : list call :=
  fetchingHeaders ++ [ call_MarkLacking enumOrder 1 77 ].

(** Two sessions of the same id, the first of them registered. *)
Definition sameId : list call :=
  [ call_newPeerConnection "A" 64 101;
    call_newPeerConnection "A" 65 102;
    call_Register 1 ].

(** An id registered, removed and registered again for another session. *)
Definition registeredAgain : list call :=
  [ call_newPeerConnection "a" 64 101;
    call_Register 1;
    call_Unregister "a";
    call_newPeerConnection "a" 65 102;
    call_Register 2 ].

(** A session of version 61, which no fetch is allowed on. *)
Definition oldPeer : list call := [ call_newPeerConnection "old" 61 101 ].

(** Thirteen sessions of version 64, registered; the one that this map's
    enumeration yields last (session 8) has delivered 50 headers in a
    second, the others stand at the initial 10. *)
Definition thirteenPeers : list call :=
  imap (λ i name, call_newPeerConnection name 64 (Pos.of_nat (101 + i)))
       ["p01"; "p02"; "p03"; "p04"; "p05"; "p06"; "p07";
        "p08"; "p09"; "p10"; "p11"; "p12"; "p13"]
  ++ map (λ i, call_Register (Pos.of_nat i)) (seq 1 13)
  ++ [ call_Fetch 0 8 (headersArgs 0 192);
       call_SetIdle Headers 8 50 time_Second ].

(** Two sessions of version 63: A has delivered 10 receipts and 50 state
    entries in a second, B 30 receipts and 20 state entries. *)
Definition receiptsAndState : list call :=
  [ call_newPeerConnection "A" 63 101;
    call_newPeerConnection "B" 63 102;
    call_Register 1; call_Register 2;
    call_Fetch 0 1 (receiptsArgs {| Headers_ := [7%N] |});
    call_SetIdle Receipts 1 10 time_Second;
    call_Fetch 0 1 (nodeDataArgs [8%N]);
    call_SetIdle NodeData 1 50 time_Second;
    call_Fetch 0 2 (receiptsArgs {| Headers_ := [7%N] |});
    call_SetIdle Receipts 2 30 time_Second;
    call_Fetch 0 2 (nodeDataArgs [8%N]);
    call_SetIdle NodeData 2 20 time_Second ].

(** A session that is told of the hashes 0 to [n - 1] that it lacks, and the
    world this leads to. *)
Definition marking (n : nat) : list call :=
  call_newPeerConnection "A" 64 101
  :: map (λ k, call_MarkLacking enumOrder 1 (N.of_nat k)) (seq 0 n).

Definition marked (n : nat) : World :=
  mkWorld {[ 1%positive :=
               mkPeerConnection "A" false false false false 0 0 0 0 None
                 (list_to_set (N.of_nat <$> seq 0 n)) 101 64 ]} ∅ [].

End Histories.

(** ** The feeds and the request limits *)

(** What every history keeps true of the two feeds: a session was announced
    on the feed of new peers when it was registered and is announced on the
    feed of dropped peers when it is removed, so the first feed has as many
    events as the second and the registry together, and holds every session
    that is registered or was dropped. *)
Definition feeds_ok (ps : peerSet) : Prop :=
  length (newPeerFeed ps) = (length (peerDropFeed ps) + size (peers ps))%nat ∧
  (∀ i p, peers ps !! i = Some p → p ∈ newPeerFeed ps) ∧
  (∀ p, p ∈ peerDropFeed ps → p ∈ newPeerFeed ps).

(** Request limits for the closed examples. *)
Definition smallLimits : Limits :=
  {| MaxHeaderFetch := 192; MaxBlockFetch := 128;
     MaxReceiptFetch := 256; MaxStateFetch := 384 |}.

Section MoreHistories.
#[local] Existing Instance nanoClock.
#[local] Existing Instance lastRateTracker.
#[local] Existing Instance hashChain.

(** Session A at version 64, registered, which has delivered 500 headers in
    a second. *)
Definition fastPeer : list call :=
  [ call_newPeerConnection "A" 64 101;
    call_Register 1;
    call_Fetch 0 1 (headersArgs 0 192);
    call_SetIdle Headers 1 500 time_Second ].

(** Sessions A and B, registered, and A removed again. *)
Definition oneDropped : list call :=
  [ call_newPeerConnection "A" 64 101;
    call_newPeerConnection "B" 64 102;
    call_Register 1; call_Register 2;
    call_Unregister "A" ].

(** A request for the body of the block of hash 7. *)
Definition oneBody : fetchRequest := {| Headers_ := [7%N] |}.

End MoreHistories.

(** * The segment file of the write-ahead log (package wal)

    The same source file carries the segment of package wal: an append-only
    file written in blocks of 32 KB, each record stored as one chunk or as a
    chain of chunks, each chunk under a header of checksum, length and type.

    A [*segment] is passed along as a value and handed back by every method
    that writes to it; integers of a fixed width are numbers with their
    wrap-around written out; a slice is the list of its elements, and writing
    through a slice of a slice is written as putting the part back. *)
Module wal.

Abbreviation byte := Byte.byte (only parsing).

Inductive error :=
| ErrClosed
| ErrInvalidCRC
| io_EOF
| os_error (errno : Z).

Inductive panic :=
| outOfRange
| wrongBlockSize
| seekFailed (e : error).

(** A call returns, panics, or is still in a loop when the bound on its
    turns is used up. *)
Inductive outcome (A : Type) :=
| Return (a : A)
| Panic (e : panic)
| OutOfFuel.
Arguments Return {A} a.
Arguments Panic {A} e.
Arguments OutOfFuel {A}.

#[export] Instance outcome_ret : MRet outcome := λ A a, Return a.
#[export] Instance outcome_bind : MBind outcome := λ A B k m,
  match m with
  | Return a => k a
  | Panic e => Panic e
  | OutOfFuel => OutOfFuel
  end.

(** ** Integers and slices *)

Definition u16 (z : Z) : Z := z mod 2 ^ 16.
Definition u32 (z : Z) : Z := z mod 2 ^ 32.
Definition u64 (z : Z) : Z := z mod 2 ^ 64.
Definition i64 (z : Z) : Z := (z + 2 ^ 63) mod 2 ^ 64 - 2 ^ 63.

(** The value of a byte, and the conversion [byte(z)]. *)
Definition byte_val (b : byte) : Z := Z.of_N (Byte.to_N b).
Definition byte_of (z : Z) : byte :=
  default Byte.x00 (Byte.of_N (Z.to_N (z mod 256))).

Definition len {A : Type} (l : list A) : Z := Z.of_nat (length l).

(** [make([]byte, n)]. *)
Definition make (n : Z) : list byte := replicate (Z.to_nat n) Byte.x00.

(** [l[lo:hi]] of a slice whose capacity is its length. *)
Definition slice {A : Type} (l : list A) (lo hi : Z) : outcome (list A) :=
  if (0 <=? lo) && (lo <=? hi) && (hi <=? len l)
  then Return (take (Z.to_nat (hi - lo)) (drop (Z.to_nat lo) l))
  else Panic outOfRange.

(** [l[i]] and [l[i] = b]. *)
Definition at_ (l : list byte) (i : Z) : outcome byte :=
  if (0 <=? i) && (i <? len l)
  then Return (default Byte.x00 (l !! Z.to_nat i))
  else Panic outOfRange.

Definition store (l : list byte) (i : Z) (b : byte) : outcome (list byte) :=
  if (0 <=? i) && (i <? len l)
  then Return (<[Z.to_nat i := b]> l)
  else Panic outOfRange.

(** [copy(dst, src)]: as many elements as both hold. *)
Definition copy (dst src : list byte) : list byte :=
  take (length dst) src ++ drop (length src) dst.

(** [f(l[lo:hi])] for an [f] that writes to the slice it is given: what [l]
    holds afterwards, and what [f] returns. *)
Definition on_slice {B : Type} (l : list byte) (lo hi : Z)
    (f : list byte → outcome (list byte * B)) : outcome (list byte * B) :=
  part ← slice l lo hi;
  '(part, r) ← f part;
  Return (take (Z.to_nat lo) l ++ part ++ drop (Z.to_nat hi) l, r).

(** ** Package encoding/binary of the Go standard library *)
Module binary.

Definition MaxVarintLen32 : Z := 5.
Definition MaxVarintLen64 : Z := 10.

(** PutUvarint encodes a uint64 into buf and returns the number of bytes
    written:
      i := 0
      for x >= 0x80 { buf[i] = byte(x) | 0x80; x >>= 7; i++ }
      buf[i] = byte(x); return i + 1
    A uint64 has ten groups of seven bits, so the loop takes nine turns at
    most. *)
Fixpoint PutUvarint_loop (fuel : nat) (buf : list byte) (i x : Z)
  : outcome (list byte * Z) :=
  if 128 <=? x then
    match fuel with
    | O => OutOfFuel
    | S fuel =>
        buf ← store buf i (byte_of (Z.lor (byte_val (byte_of x)) 128));
        PutUvarint_loop fuel buf (i + 1) (Z.shiftr x 7)
    end
  else
    buf ← store buf i (byte_of x);
    Return (buf, i + 1).

Definition PutUvarint (buf : list byte) (x : Z) : outcome (list byte * Z) :=
  PutUvarint_loop 10 buf 0 x.

(** Uvarint decodes a uint64 from buf and returns that value and the number
    of bytes read (> 0); n == 0 if buf is too small, n < 0 if the value
    overflows 64 bits, -n being the number of bytes read:
      for i, b := range buf {
        if i == MaxVarintLen64 { return 0, -(i + 1) }
        if b < 0x80 {
          if i == MaxVarintLen64-1 && b > 1 { return 0, -(i + 1) }
          return x | uint64(b)<<s, i + 1
        }
        x |= uint64(b&0x7f) << s
        s += 7
      }
      return 0, 0 *)
Fixpoint Uvarint_loop (buf : list byte) (i x s : Z) : Z * Z :=
  match buf with
  | [] => (0, 0)
  | b :: buf =>
      if i =? MaxVarintLen64 then (0, - (i + 1))
      else if byte_val b <? 128 then
        if (i =? MaxVarintLen64 - 1) && (1 <? byte_val b) then (0, - (i + 1))
        else (Z.lor x (u64 (Z.shiftl (byte_val b) s)), i + 1)
      else
        Uvarint_loop buf (i + 1)
          (Z.lor x (u64 (Z.shiftl (Z.land (byte_val b) 127) s))) (s + 7)
  end.

Definition Uvarint (buf : list byte) : Z * Z := Uvarint_loop buf 0 0 0.

(** LittleEndian.PutUint16, Uint16, PutUint32 and Uint32; each begins with a
    bounds check of the last byte it touches. *)
Definition PutUint16 (b : list byte) (v : Z) : outcome (list byte * unit) :=
  _ ← at_ b 1;
  b ← store b 0 (byte_of v);
  b ← store b 1 (byte_of (Z.shiftr v 8));
  Return (b, ()).

Definition Uint16 (b : list byte) : outcome Z :=
  _ ← at_ b 1;
  b0 ← at_ b 0;
  b1 ← at_ b 1;
  Return (Z.lor (byte_val b0) (Z.shiftl (byte_val b1) 8)).

Definition PutUint32 (b : list byte) (v : Z) : outcome (list byte * unit) :=
  _ ← at_ b 3;
  b ← store b 0 (byte_of v);
  b ← store b 1 (byte_of (Z.shiftr v 8));
  b ← store b 2 (byte_of (Z.shiftr v 16));
  b ← store b 3 (byte_of (Z.shiftr v 24));
  Return (b, ()).

Definition Uint32 (b : list byte) : outcome Z :=
  _ ← at_ b 3;
  b0 ← at_ b 0;
  b1 ← at_ b 1;
  b2 ← at_ b 2;
  b3 ← at_ b 3;
  Return (Z.lor (Z.lor (Z.lor (byte_val b0) (Z.shiftl (byte_val b1) 8))
                       (Z.shiftl (byte_val b2) 16))
                (Z.shiftl (byte_val b3) 24)).

End binary.

(** ** What the segment takes from other packages *)

(** The size units of the package's options, which are not among the sources
    at hand; the source reads "32 KB" for [32 * KB]. *)
Class Units := {
  KB : Z
}.

(** An [*os.File] opened with O_APPEND, with Write, ReadAt (of so many bytes
    at an offset: the bytes read and the error), Seek to the end, Sync, Close
    and Name; [File_contents] is what the file holds.  os.OpenFile and
    os.Remove, and SegmentFileName of the package. *)
Class OS := {
  File : Type;
  File_contents : File → list byte;
  File_Name : File → string;
  File_Write : File → list byte → File * option error;
  File_ReadAt : File → Z → Z → list byte * option error;
  File_Seek_End : File → Z * option error;
  File_Sync : File → option error;
  File_Close : File → File * option error;
  os_Remove : string → option error;
  SegmentFileName : string → string → Z → string;
  os_OpenFile : string → File + error
}.

(** An [*lru.Cache[uint64, []byte]]: Get yields the value kept under a key,
    if one is kept, and Add keeps one; either may change what else is
    kept. *)
Class LRU := {
  Cache : Type;
  Cache_Get : Cache → Z → option (list byte) * Cache;
  Cache_Add : Cache → Z → list byte → Cache
}.

(** hash/crc32 with the IEEE table: ChecksumIEEE and Update, which "returns
    the result of adding the bytes in p to the crc". *)
Class CRC32 := {
  ChecksumIEEE : list byte → Z;
  Update : Z → list byte → Z
}.

Section wal.
Context {units : Units} {os : OS} {lru : LRU} {crc32 : CRC32}.

Definition ChunkTypeFull : byte := Byte.x00.
Definition ChunkTypeFirst : byte := Byte.x01.
Definition ChunkTypeMiddle : byte := Byte.x02.
Definition ChunkTypeLast : byte := Byte.x03.

(** Checksum (4 bytes), length (2 bytes), type (1 byte). *)
Definition chunkHeaderSize : Z := 7.

Definition blockSize : Z := 32 * KB.

(** block and chunk header, saved in pool. *)
Record blockAndHeader := mkBlockAndHeader {
  block : list byte;
  header_ : list byte
}.

(** Segment represents a single segment file in WAL.  [blockPool] is a
    [sync.Pool]: the buffers that were put back, the last one first; Get
    takes one of them if there is one and makes a new one otherwise.  [cache]
    is a pointer in the source, nil or a cache that may be shared with other
    segments: the cache is kept with the segment here, and the statements
    below ask of it only what the entries under this segment's keys hold. *)
Record segment := mkSegment {
  id : Z;
  fd : File;
  currentBlockNumber : Z;
  currentBlockSize : Z;
  closed : bool;
  cache : option Cache;
  header : list byte;
  blockPool : list blockAndHeader
}.

(** segmentReader is used to iterate all the data from the segment file; the
    segment it points to is passed along with it. *)
Record segmentReader := mkSegmentReader {
  blockNumber : Z;
  chunkOffset : Z
}.

(** ChunkPosition represents the position of a chunk in a segment file. *)
Record ChunkPosition := mkChunkPosition {
  SegmentId : Z;
  BlockNumber : Z;
  ChunkOffset : Z;
  ChunkSize : Z
}.

Definition set_fd (f : File) (seg : segment) : segment :=
  mkSegment (id seg) f (currentBlockNumber seg) (currentBlockSize seg)
            (closed seg) (cache seg) (header seg) (blockPool seg).

Definition set_currentBlock (n s : Z) (seg : segment) : segment :=
  mkSegment (id seg) (fd seg) n s (closed seg) (cache seg) (header seg)
            (blockPool seg).

Definition set_closed (b : bool) (seg : segment) : segment :=
  mkSegment (id seg) (fd seg) (currentBlockNumber seg) (currentBlockSize seg)
            b (cache seg) (header seg) (blockPool seg).

Definition set_cache (c : option Cache) (seg : segment) : segment :=
  mkSegment (id seg) (fd seg) (currentBlockNumber seg) (currentBlockSize seg)
            (closed seg) c (header seg) (blockPool seg).

Definition set_header (h : list byte) (seg : segment) : segment :=
  mkSegment (id seg) (fd seg) (currentBlockNumber seg) (currentBlockSize seg)
            (closed seg) (cache seg) h (blockPool seg).

Definition set_blockPool (p : list blockAndHeader) (seg : segment) : segment :=
  mkSegment (id seg) (fd seg) (currentBlockNumber seg) (currentBlockSize seg)
            (closed seg) (cache seg) (header seg) p.

Definition set_ChunkSize (n : Z) (cp : ChunkPosition) : ChunkPosition :=
  mkChunkPosition (SegmentId cp) (BlockNumber cp) (ChunkOffset cp) n.

Definition newBlockAndHeader : blockAndHeader :=
  mkBlockAndHeader (make blockSize) (make chunkHeaderSize).

(** openSegmentFile a new segment file. *)
Definition openSegmentFile (dirPath extName : string) (id0 : Z)
    (cache0 : option Cache) : outcome (segment + error) :=
  match os_OpenFile (SegmentFileName dirPath extName id0) with
  | inr err => Return (inr err)
  | inl fd0 =>
      match File_Seek_End fd0 with
      | (_, Some err) => Panic (seekFailed err)
      | (offset, None) =>
          Return (inl (mkSegment id0 fd0
                         (u32 (offset ÷ blockSize)) (u32 (Z.rem offset blockSize))
                         false cache0 (make chunkHeaderSize) []))
      end
  end.

(** NewReader creates a new segment reader. *)
Definition NewReader (seg : segment) : segmentReader := mkSegmentReader 0 0.

(** Sync flushes the segment file to disk. *)
Definition Sync (seg : segment) : option error :=
  if closed seg then None else File_Sync (fd seg).

(** Remove removes the segment file. *)
Definition Remove (seg : segment) : option error * segment :=
  let seg :=
    if negb (closed seg)
    then set_fd (File_Close (fd seg)).1 (set_closed true seg)
    else seg in
  (os_Remove (File_Name (fd seg)), seg).

(** Close closes the segment file. *)
Definition Close (seg : segment) : option error * segment :=
  if closed seg then (None, seg)
  else
    let seg := set_closed true seg in
    let '(fd', err) := File_Close (fd seg) in
    (err, set_fd fd' seg).

(** Size returns the size of the segment file: the sum is taken in 32 bits
    and then widened. *)
Definition Size (seg : segment) : Z :=
  u32 (u32 (currentBlockNumber seg * blockSize) + currentBlockSize seg).

Definition getCacheKey (seg : segment) (blockNumber0 : Z) : Z :=
  Z.lor (u64 (Z.shiftl (id seg) 32)) blockNumber0.

Definition writeInternal (data : list byte) (chunkType : byte) (seg : segment)
  : outcome (option error * segment) :=
  let dataSize := u32 (len data) in
  (* Length 2 Bytes index:4-5 *)
  '(h, _) ← on_slice (header seg) 4 6 (λ b, binary.PutUint16 b (u16 dataSize));
  (* Type 1 Byte index:6 *)
  h ← store h 6 chunkType;
  (* Checksum 4 Bytes index:0-3 *)
  rest ← slice h 4 (len h);
  let sum := ChecksumIEEE rest in
  let sum := Update sum data in
  '(h, _) ← on_slice h 0 4 (λ b, binary.PutUint32 b sum);
  let seg := set_header h seg in
  (* append to the file *)
  let '(fd', err) := File_Write (fd seg) h in
  let seg := set_fd fd' seg in
  match err with
  | Some e => Return (Some e, seg)
  | None =>
      let '(fd', err) := File_Write (fd seg) data in
      let seg := set_fd fd' seg in
      match err with
      | Some e => Return (Some e, seg)
      | None =>
          if blockSize <? currentBlockSize seg then Panic wrongBlockSize
          else
            (* update the corresponding fields *)
            let seg :=
              set_currentBlock (currentBlockNumber seg)
                (u32 (currentBlockSize seg + u32 (dataSize + chunkHeaderSize))) seg in
            (* A new block *)
            if currentBlockSize seg =? blockSize
            then Return (None, set_currentBlock (u32 (currentBlockNumber seg + 1)) 0 seg)
            else Return (None, seg)
      end
  end.

(** The loop of Write for data that does not fit into the block,
      for leftSize > 0 { ... leftSize -= chunkSize; blockCount += 1 }
    for at most [fuel] turns: the number of chunks written, or the error
    that ended it. *)
Fixpoint Write_loop (fuel : nat) (data : list byte) (dataSize leftSize blockCount : Z)
    (seg : segment) : outcome ((Z + error) * segment) :=
  if 0 <? leftSize then
    match fuel with
    | O => OutOfFuel
    | S fuel =>
        let chunkSize := u32 (u32 (blockSize - currentBlockSize seg) - chunkHeaderSize) in
        let chunkSize := if leftSize <? chunkSize then leftSize else chunkSize in
        let chunk := make chunkSize in
        let end_ := u32 (u32 (dataSize - leftSize) + chunkSize) in
        let end_ := if dataSize <? end_ then dataSize else end_ in
        part ← slice data (u32 (dataSize - leftSize)) end_;
        let chunk := copy chunk part in
        (* write the chunks *)
        '(err, seg) ←
          (if leftSize =? dataSize then writeInternal chunk ChunkTypeFirst seg
           else if leftSize =? chunkSize then writeInternal chunk ChunkTypeLast seg
           else writeInternal chunk ChunkTypeMiddle seg);
        match err with
        | Some e => Return (inr e, seg)
        | None =>
            Write_loop fuel data dataSize (u32 (leftSize - chunkSize))
                       (u32 (blockCount + 1)) seg
        end
    end
  else Return (inl blockCount, seg).

(** Write writes the data to the segment file.  The data will be written in
    chunks, and the chunk has four types: ChunkTypeFull, ChunkTypeFirst,
    ChunkTypeMiddle, ChunkTypeLast. *)
Definition Write (fuel : nat) (data : list byte) (seg : segment)
  : outcome ((ChunkPosition + error) * segment) :=
  if closed seg then Return (inr ErrClosed, seg)
  else
    (* The left block space is not enough for a chunk header *)
    let '(err, seg) :=
      if blockSize <=? u32 (currentBlockSize seg + chunkHeaderSize) then
        (* padding if necessary *)
        let '(err, seg) :=
          if currentBlockSize seg <? blockSize then
            let padding := make (u32 (blockSize - currentBlockSize seg)) in
            let '(fd', err) := File_Write (fd seg) padding in
            (err, set_fd fd' seg)
          else (None, seg) in
        match err with
        | Some e => (Some e, seg)
        | None =>
            (* A new block, clear the current block size. *)
            (None, set_currentBlock (u32 (currentBlockNumber seg + 1)) 0 seg)
        end
      else (None, seg) in
    match err with
    | Some e => Return (inr e, seg)
    | None =>
        (* the start position (for read operation) *)
        let position :=
          mkChunkPosition (id seg) (currentBlockNumber seg) (currentBlockSize seg) 0 in
        let dataSize := u32 (len data) in
        (* The entire chunk can fit into the block. *)
        if u32 (u32 (currentBlockSize seg + dataSize) + chunkHeaderSize) <=? blockSize
        then
          '(err, seg) ← writeInternal data ChunkTypeFull seg;
          match err with
          | Some e => Return (inr e, seg)
          | None =>
              Return (inl (set_ChunkSize (u32 (dataSize + chunkHeaderSize)) position), seg)
          end
        else
          (* the data should be written to the block in batches *)
          '(r, seg) ← Write_loop fuel data dataSize dataSize 0 seg;
          match r with
          | inr e => Return (inr e, seg)
          | inl blockCount =>
              Return (inl (set_ChunkSize
                             (u32 (u32 (blockCount * chunkHeaderSize) + dataSize))
                             position), seg)
          end
    end.

(** [seg.blockPool.Get()] and [seg.blockPool.Put(bh)]. *)
Definition blockPool_Get (seg : segment) : blockAndHeader * segment :=
  match blockPool seg with
  | bh :: rest => (bh, set_blockPool rest seg)
  | [] => (newBlockAndHeader, seg)
  end.

Definition blockPool_Put (bh : blockAndHeader) (seg : segment) : segment :=
  set_blockPool (bh :: blockPool seg) seg.

(** The loop of readInternal, for at most [fuel] turns: the data read so far
    is [result], the buffers of [bh] and the cache are handed back as the
    loop leaves them.  The cache yields no value when it reports no hit, so
    that [len(cachedBlock) == 0] holds where the source asks for it. *)
Fixpoint readInternal_loop (fuel : nat) (seg : segment) (segSize : Z)
    (result : list byte) (bh : blockAndHeader) (c : option Cache)
    (blockNumber0 chunkOffset0 : Z)
  : outcome (((list byte * ChunkPosition) + error) * blockAndHeader * option Cache) :=
  match fuel with
  | O => OutOfFuel
  | S fuel =>
      let size := blockSize in
      let offset := u32 (blockNumber0 * blockSize) in
      let size := if segSize <? size + offset then segSize - offset else size in
      if size <=? chunkOffset0 then Return (inr io_EOF, bh, c)
      else
        (* try to read from the cache if it is enabled *)
        let '(cachedBlock, c) :=
          match c with
          | Some c0 =>
              let '(v, c0) := Cache_Get c0 (getCacheKey seg blockNumber0) in (v, Some c0)
          | None => (None, None)
          end in
        loaded ←
          match cachedBlock with
          | Some cachedBlock =>
              (* cache hit, get block from the cache *)
              Return (None, mkBlockAndHeader (copy (block bh) cachedBlock) (header_ bh), c)
          | None =>
              (* cache miss, read block from the segment file *)
              dst ← slice (block bh) 0 size;
              let '(got, err) := File_ReadAt (fd seg) (len dst) offset in
              let bh :=
                mkBlockAndHeader (copy dst got ++ drop (Z.to_nat size) (block bh))
                                 (header_ bh) in
              match err with
              | Some e => Return (Some e, bh, c)
              | None =>
                  (* cache the block, so that the next time it can be read
                     from the cache *)
                  match c with
                  | Some c0 =>
                      if size =? blockSize then
                        let cacheBlock := copy (make blockSize) (block bh) in
                        Return (None, bh,
                                Some (Cache_Add c0 (getCacheKey seg blockNumber0) cacheBlock))
                      else Return (None, bh, c)
                  | None => Return (None, bh, c)
                  end
              end
          end;
        let '(err, bh, c) := loaded in
        match err with
        | Some e => Return (inr e, bh, c)
        | None =>
            (* header *)
            part ← slice (block bh) chunkOffset0 (i64 (chunkOffset0 + chunkHeaderSize));
            let bh := mkBlockAndHeader (block bh) (copy (header_ bh) part) in
            (* length *)
            lenBytes ← slice (header_ bh) 4 6;
            length0 ← binary.Uint16 lenBytes;
            (* copy data *)
            let start := i64 (chunkOffset0 + chunkHeaderSize) in
            part ← slice (block bh) start (i64 (start + length0));
            let result := result ++ part in
            (* check sum *)
            let checksumEnd := i64 (i64 (chunkOffset0 + chunkHeaderSize) + length0) in
            part ← slice (block bh) (i64 (chunkOffset0 + 4)) checksumEnd;
            let checksum := ChecksumIEEE part in
            sumBytes ← slice (header_ bh) 0 4;
            savedSum ← binary.Uint32 sumBytes;
            if negb (savedSum =? checksum) then Return (inr ErrInvalidCRC, bh, c)
            else
              (* type *)
              chunkType ← at_ (header_ bh) 6;
              if Byte.eqb chunkType ChunkTypeFull || Byte.eqb chunkType ChunkTypeLast
              then
                let nextChunk :=
                  (* If this is the last chunk in the block, and the left
                     block space are paddings, the next chunk should be in
                     the next block. *)
                  if blockSize <=? i64 (checksumEnd + chunkHeaderSize)
                  then mkChunkPosition (id seg) (u32 (blockNumber0 + 1)) 0 0
                  else mkChunkPosition (id seg) blockNumber0 checksumEnd 0 in
                Return (inl (result, nextChunk), bh, c)
              else
                readInternal_loop fuel seg segSize result bh c
                                  (u32 (blockNumber0 + 1)) 0
        end
  end.

Definition readInternal (fuel : nat) (seg : segment) (blockNumber0 chunkOffset0 : Z)
  : outcome (((list byte * ChunkPosition) + error) * segment) :=
  if closed seg then Return (inr ErrClosed, seg)
  else
    let '(bh, seg) := blockPool_Get seg in
    let segSize := Size seg in
    '(r, bh, c) ← readInternal_loop fuel seg segSize [] bh (cache seg)
                                    blockNumber0 chunkOffset0;
    Return (r, blockPool_Put bh (set_cache c seg)).

(** Read reads the data from the segment file by the block number and chunk
    offset. *)
Definition Read (fuel : nat) (seg : segment) (blockNumber0 chunkOffset0 : Z)
  : outcome ((list byte + error) * segment) :=
  '(r, seg) ← readInternal fuel seg blockNumber0 chunkOffset0;
  match r with
  | inl (value, _) => Return (inl value, seg)
  | inr err => Return (inr err, seg)
  end.

(** Next returns the next chunk data.  You can call it repeatedly until
    io.EOF is returned. *)
Definition Next (fuel : nat) (segReader : segmentReader) (seg : segment)
  : outcome (((list byte * ChunkPosition) + error) * segmentReader * segment) :=
  (* The segment file is closed *)
  if closed seg then Return (inr ErrClosed, segReader, seg)
  else
    (* this position describes the current chunk info *)
    let chunkPosition :=
      mkChunkPosition (id seg) (blockNumber segReader) (chunkOffset segReader) 0 in
    '(r, seg) ← readInternal fuel seg (blockNumber segReader) (chunkOffset segReader);
    match r with
    | inr err => Return (inr err, segReader, seg)
    | inl (value, nextChunk) =>
        (* Calculate the chunk size. *)
        let chunkPosition :=
          set_ChunkSize
            (u32 (u32 (u32 (BlockNumber nextChunk * blockSize)
                       + u32 (ChunkOffset nextChunk))
                  - u32 (u32 (blockNumber segReader * blockSize)
                         + u32 (chunkOffset segReader))))
            chunkPosition in
        (* update the position *)
        let segReader :=
          mkSegmentReader (BlockNumber nextChunk) (ChunkOffset nextChunk) in
        Return (inl (value, chunkPosition), segReader, seg)
    end.

(** [binary.PutUvarint(buf[index:], x)]. *)
Definition PutUvarint_from (buf : list byte) (index0 x : Z) : outcome (list byte * Z) :=
  on_slice buf index0 (len buf) (λ b, binary.PutUvarint b x).

(** Encode encodes the chunk position to a byte slice. *)
Definition Encode (cp : ChunkPosition) : outcome (list byte) :=
  let maxLen := binary.MaxVarintLen32 * 3 + binary.MaxVarintLen64 in
  let buf := make maxLen in
  let index0 := 0 in
  (* SegmentId *)
  '(buf, n) ← PutUvarint_from buf index0 (u64 (SegmentId cp));
  let index0 := index0 + n in
  (* BlockNumber *)
  '(buf, n) ← PutUvarint_from buf index0 (u64 (BlockNumber cp));
  let index0 := index0 + n in
  (* ChunkOffset *)
  '(buf, n) ← PutUvarint_from buf index0 (u64 (ChunkOffset cp));
  let index0 := index0 + n in
  (* ChunkSize *)
  '(buf, n) ← PutUvarint_from buf index0 (u64 (ChunkSize cp));
  let index0 := index0 + n in
  slice buf 0 index0.

(** [binary.Uvarint(buf[index:])]. *)
Definition Uvarint_from (buf : list byte) (index0 : Z) : outcome (Z * Z) :=
  part ← slice buf index0 (len buf);
  Return (binary.Uvarint part).

(** DecodeChunkPosition decodes the chunk position from a byte slice; it
    returns nil for an empty one. *)
Definition DecodeChunkPosition (buf : list byte) : outcome (option ChunkPosition) :=
  if len buf =? 0 then Return None
  else
    let index0 := 0 in
    (* SegmentId *)
    '(segmentId, n) ← Uvarint_from buf index0;
    let index0 := index0 + n in
    (* BlockNumber *)
    '(blockNumber0, n) ← Uvarint_from buf index0;
    let index0 := index0 + n in
    (* ChunkOffset *)
    '(chunkOffset0, n) ← Uvarint_from buf index0;
    let index0 := index0 + n in
    (* ChunkSize *)
    '(chunkSize, n) ← Uvarint_from buf index0;
    Return (Some (mkChunkPosition (u32 segmentId) (u32 blockNumber0)
                                  (i64 chunkOffset0) (u32 chunkSize))).

End wal.
End wal.

(** ** Predicates of the statements on the segment *)
Module walspec.
Import wal.

(** The bytes PutUvarint writes for [x]. *)
Fixpoint uvarint_bytes (fuel : nat) (x : Z) : list byte :=
  match fuel with
  | O => [byte_of x]
  | S fuel =>
      if 128 <=? x then byte_of (x mod 128 + 128) :: uvarint_bytes fuel (x / 128)
      else [byte_of x]
  end.

Definition uvarint (x : Z) : list byte := uvarint_bytes 10 x.

(** [n] elements of [l] from index [p] on. *)
Definition sub {A : Type} (l : list A) (p n : Z) : list A :=
  take (Z.to_nat n) (drop (Z.to_nat p) l).

Section walspec.
Context {units : Units} {os : OS} {lru : LRU} {crc32 : CRC32}.

(** The fields of a position hold values of their types: uint32, uint32,
    int64 and uint32. *)
Definition ChunkPosition_ok (cp : ChunkPosition) : Prop :=
  0 ≤ SegmentId cp < 2 ^ 32 ∧
  0 ≤ BlockNumber cp < 2 ^ 32 ∧
  - 2 ^ 63 ≤ ChunkOffset cp < 2 ^ 63 ∧
  0 ≤ ChunkSize cp < 2 ^ 32.

(** *** What is asked of the other packages *)

(** A chunk's length is kept in 16 bits, which a block of up to 64 KB allows
    for. *)
Definition Units_ok : Prop := 1 ≤ KB ≤ 2048.

(** A Write that reports no error has appended its bytes (the file is opened
    with O_APPEND); a ReadAt of bytes that lie within the file yields them;
    a Seek to the end that reports no error yields the length. *)
Record OS_ok : Prop := {
  File_Write_appends : ∀ f b,
    (File_Write f b).2 = None →
    File_contents (File_Write f b).1 = File_contents f ++ b;
  File_ReadAt_within : ∀ f n off,
    0 ≤ off → 0 ≤ n → off + n ≤ len (File_contents f) →
    File_ReadAt f n off = (sub (File_contents f) off n, None);
  File_Seek_End_length : ∀ f,
    (File_Seek_End f).2 = None → (File_Seek_End f).1 = len (File_contents f)
}.

(** No value comes out of the cache that was not put in under its key. *)
Record LRU_ok : Prop := {
  Cache_Get_Add : ∀ c k v k' v',
    (Cache_Get (Cache_Add c k v) k').1 = Some v' →
    (k' = k ∧ v' = v) ∨ (Cache_Get c k').1 = Some v';
  Cache_Get_Get : ∀ c k k' v',
    (Cache_Get (Cache_Get c k).2 k').1 = Some v' → (Cache_Get c k').1 = Some v'
}.

(** A checksum has 32 bits, and Update goes on from a checksum as
    ChecksumIEEE would have with the bytes before. *)
Record CRC32_ok : Prop := {
  ChecksumIEEE_range : ∀ p, 0 ≤ ChecksumIEEE p < 2 ^ 32;
  Update_ChecksumIEEE : ∀ p q, Update (ChecksumIEEE p) q = ChecksumIEEE (p ++ q)
}.

(** *** The segment and its file *)

(** The header writeInternal makes for a chunk, and the chunk on file. *)
Definition chunkHeader (chunkType : byte) (payload : list byte) : list byte :=
  let n := u16 (u32 (len payload)) in
  let rest := [byte_of n; byte_of (Z.shiftr n 8); chunkType] in
  let sum := Update (ChecksumIEEE rest) payload in
  [byte_of sum; byte_of (Z.shiftr sum 8); byte_of (Z.shiftr sum 16);
   byte_of (Z.shiftr sum 24)] ++ rest.

Definition chunkBytes (chunkType : byte) (payload : list byte) : list byte :=
  chunkHeader chunkType payload ++ payload.

(** A header with any checksum, and a chunk with such a header in block [bn]
    of the file at offset [off]. *)
Definition headerOf (sum : Z) (chunkType : byte) (payload : list byte) : list byte :=
  let n := u16 (u32 (len payload)) in
  [byte_of sum; byte_of (Z.shiftr sum 8); byte_of (Z.shiftr sum 16);
   byte_of (Z.shiftr sum 24); byte_of n; byte_of (Z.shiftr n 8); chunkType].

Definition checked (chunkType : byte) (payload : list byte) : list byte :=
  let n := u16 (u32 (len payload)) in
  [byte_of n; byte_of (Z.shiftr n 8); chunkType] ++ payload.

Definition stored_at (F : list byte) (bn off : Z) (sum : Z) (chunkType : byte)
    (payload : list byte) : Prop :=
  0 ≤ bn ∧ 0 ≤ off ∧ off + chunkHeaderSize + len payload ≤ blockSize ∧
  bn * blockSize + off + chunkHeaderSize + len payload ≤ len F ∧
  sub F (bn * blockSize + off) (chunkHeaderSize + len payload)
    = headerOf sum chunkType payload ++ payload.

Definition buffers_ok (bh : blockAndHeader) : Prop :=
  len (block bh) = blockSize ∧ len (header_ bh) = chunkHeaderSize.

(** What the cache holds under the keys of the segment are whole blocks of
    the file. *)
Definition coherent (seg : segment) (F : list byte) (c : option Cache) : Prop :=
  ∀ c0 bn v, c = Some c0 → 0 ≤ bn < 2 ^ 32 →
    (Cache_Get c0 (getCacheKey seg bn)).1 = Some v →
    (bn + 1) * blockSize ≤ len F ∧ v = sub F (bn * blockSize) blockSize.

(** A segment as openSegmentFile and Write leave it: the counters say how
    long the file is, which stays below 4 GB, the header buffer has its seven
    bytes and the pooled buffers their sizes. *)
Definition seg_ok (seg : segment) : Prop :=
  0 ≤ currentBlockNumber seg ∧
  0 ≤ currentBlockSize seg < blockSize ∧
  len (File_contents (fd seg)) =
    currentBlockNumber seg * blockSize + currentBlockSize seg ∧
  (currentBlockNumber seg + 1) * blockSize < 2 ^ 32 ∧
  len (header seg) = chunkHeaderSize ∧
  Forall buffers_ok (blockPool seg) ∧
  coherent seg (File_contents (fd seg)) (cache seg).

(** Room in the 4 GB that the counters of a segment can tell, for the
    records of a list: two blocks and, for each record, twice its length and
    three headers. *)
Definition roomFor (datas : list (list byte)) (seg : segment) : Prop :=
  Size seg + foldr (λ data acc, 2 * len data + 21 + acc) 0 datas + 2 * blockSize
    ≤ 2 ^ 32.

(** Where the next record will start: in the next block, if what is left of
    this one does not hold a header. *)
Definition writePosition (seg : segment) : Z * Z :=
  if blockSize <=? currentBlockSize seg + chunkHeaderSize
  then (currentBlockNumber seg + 1, 0)
  else (currentBlockNumber seg, currentBlockSize seg).

(** A chunk of a type and payload lies in block [bn] of the file at offset
    [off]; chunks lie one per block from there on. *)
Definition chunk_at (F : list byte) (bn off : Z) (chunkType : byte) (payload : list byte)
  : Prop :=
  0 ≤ bn ∧ 0 ≤ off ∧ off + chunkHeaderSize + len payload ≤ blockSize ∧
  bn * blockSize + off + chunkHeaderSize + len payload ≤ len F ∧
  sub F (bn * blockSize + off) (chunkHeaderSize + len payload)
    = chunkBytes chunkType payload.

Fixpoint chunks_at (F : list byte) (bn off : Z) (cs : list (byte * list byte)) : Prop :=
  match cs with
  | [] => True
  | (chunkType, payload) :: cs =>
      chunk_at F bn off chunkType payload ∧ chunks_at F (bn + 1) 0 cs
  end.

(** The chunks of one record: a single Full chunk, or a First chunk, Middle
    chunks and a Last chunk, none of them empty. *)
Definition tailChunks (cs : list (byte * list byte)) : Prop :=
  ∃ middle last,
    cs = ((λ m, (ChunkTypeMiddle, m)) <$> middle) ++ [(ChunkTypeLast, last)] ∧
    Forall (λ c, 0 < len c) (middle ++ [last]).

Definition chunksOf (cs : list (byte * list byte)) : Prop :=
  (∃ data, cs = [(ChunkTypeFull, data)]) ∨
  (∃ first rest, cs = (ChunkTypeFirst, first) :: rest ∧ 0 < len first ∧ tailChunks rest).

(** Every chunk but the last ends where its block ends. *)
Fixpoint fills (off : Z) (cs : list (byte * list byte)) : Prop :=
  match cs with
  | [] => True
  | (_, payload) :: cs' =>
      match cs' with
      | [] => True
      | _ :: _ => off + chunkHeaderSize + len payload = blockSize ∧ fills 0 cs'
      end
  end.

(** Where the chunks end: behind the last of them, or at the start of the
    next block if what is left does not hold a header. *)
Fixpoint endOf (bn off : Z) (cs : list (byte * list byte)) : Z * Z :=
  match cs with
  | [] => (bn, off)
  | (_, payload) :: cs' =>
      match cs' with
      | [] =>
          let off := off + chunkHeaderSize + len payload in
          if blockSize <=? off + chunkHeaderSize then (bn + 1, 0) else (bn, off)
      | _ :: _ => endOf (bn + 1) 0 cs'
      end
  end.

(** A chain of chunks as readInternal follows it: it ends with the first
    chunk of type Full or Last. *)
Definition terminal (chunkType : byte) : bool :=
  Byte.eqb chunkType ChunkTypeFull || Byte.eqb chunkType ChunkTypeLast.

Fixpoint chained (cs : list (byte * list byte)) : Prop :=
  match cs with
  | [] => False
  | (chunkType, _) :: cs' =>
      match cs' with
      | [] => terminal chunkType = true
      | _ :: _ => terminal chunkType = false ∧ chained cs'
      end
  end.

(** The record [data] is stored at a position of the file, and [next] is the
    position behind it. *)
Definition record_at (F : list byte) (pos : Z * Z) (data : list byte) (next : Z * Z)
  : Prop :=
  ∃ cs, chunksOf cs ∧ chunks_at F pos.1 pos.2 cs ∧
        mjoin cs.*2 = data ∧ next = endOf pos.1 pos.2 cs.


(** The records of a list are stored one behind the other, each at its
    position. *)
Fixpoint records_at (F : list byte) (pos : Z * Z) (recs : list ((Z * Z) * list byte))
    (next : Z * Z) : Prop :=
  match recs with
  | [] => next = pos
  | (p, data) :: recs =>
      p = pos ∧ ∃ mid, record_at F pos data mid ∧ records_at F mid recs next
  end.

(** The block and the offset of a position. *)
Definition placeOf (cp : ChunkPosition) : Z * Z := (BlockNumber cp, ChunkOffset cp).

(** What readInternal leaves of the segment: all but the cache and the pool
    of buffers. *)
Definition untouched (seg seg' : segment) : Prop :=
  id seg' = id seg ∧ fd seg' = fd seg ∧
  currentBlockNumber seg' = currentBlockNumber seg ∧
  currentBlockSize seg' = currentBlockSize seg ∧
  closed seg' = closed seg ∧ header seg' = header seg.

(** Write for each record of a list in turn: the positions, or the first
    error. *)
Fixpoint WriteAll (fuel : nat) (datas : list (list byte)) (seg : segment)
  : outcome ((list ChunkPosition + error) * segment) :=
  match datas with
  | [] => Return (inl [], seg)
  | data :: datas =>
      '(r, seg) ← Write fuel data seg;
      match r with
      | inr e => Return (inr e, seg)
      | inl pos =>
          '(r, seg) ← WriteAll fuel datas seg;
          match r with
          | inr e => Return (inr e, seg)
          | inl poss => Return (inl (pos :: poss), seg)
          end
      end
  end.

(** Next, [n] times: what it returned, or the first error. *)
Fixpoint NextAll (fuel : nat) (n : nat) (segReader : segmentReader) (seg : segment)
  : outcome ((list (list byte * ChunkPosition) + error) * segmentReader * segment) :=
  match n with
  | O => Return (inl [], segReader, seg)
  | S n =>
      '(r, segReader, seg) ← Next fuel segReader seg;
      match r with
      | inr e => Return (inr e, segReader, seg)
      | inl item =>
          '(r, segReader, seg) ← NextAll fuel n segReader seg;
          match r with
          | inr e => Return (inr e, segReader, seg)
          | inl items => Return (inl (item :: items), segReader, seg)
          end
      end
  end.

End walspec.
End walspec.

(** ** Instances for the closed examples of the segment *)
Module walinst.
Import wal walspec.

Definition kilobyte : Units := {| KB := 1024 |}.

(** A file in memory on a device with room for so many more bytes: a Write
    that does not fit writes what fits and reports that no space is left; a
    ReadAt beyond the end yields what there is and io.EOF. *)
Record memFile := mkMemFile {
  mf_name : string;
  mf_bytes : list byte;
  mf_room : Z
}.

Definition memFile_Write (f : memFile) (b : list byte) : memFile * option error :=
  if len b <=? mf_room f
  then (mkMemFile (mf_name f) (mf_bytes f ++ b) (mf_room f - len b), None)
  else (mkMemFile (mf_name f) (mf_bytes f ++ take (Z.to_nat (mf_room f)) b) 0,
        Some (os_error 28)).

Definition memFile_ReadAt (f : memFile) (n off : Z) : list byte * option error :=
  if off <? 0 then ([], Some (os_error 22))
  else
    let got := sub (mf_bytes f) off n in
    (got, if len got <? n then Some io_EOF else None).

(** The files of a directory are the one file [existing], under every name. *)
Definition memOS (existing : list byte) (room : Z) : OS :=
  {| File := memFile;
     File_contents := mf_bytes;
     File_Name := mf_name;
     File_Write := memFile_Write;
     File_ReadAt := memFile_ReadAt;
     File_Seek_End := λ f, (len (mf_bytes f), None);
     File_Sync := λ _, None;
     File_Close := λ f, (f, None);
     os_Remove := λ _, None;
     SegmentFileName := λ dirPath extName _, dirPath +:+ "/segment" +:+ extName;
     os_OpenFile := λ name, inl (mkMemFile name existing room) |}.

(** A cache that keeps the entry added last. *)
Definition lastEntry : LRU :=
  {| Cache := option (Z * list byte);
     Cache_Get := λ c k,
       (match c with
        | Some (k', v) => if k =? k' then Some v else None
        | None => None
        end, c);
     Cache_Add := λ _ k v, Some (k, v) |}.

(** CRC-32 with the IEEE polynomial, bit by bit. *)
Definition crc_step (crc : Z) : Z :=
  if Z.odd crc then Z.lxor (Z.shiftr crc 1) 3988292384 else Z.shiftr crc 1.

Definition crc_byte (crc : Z) (v : byte) : Z :=
  Z.lxor (Nat.iter 8 crc_step (Z.lxor (crc mod 256) (byte_val v))) (Z.shiftr crc 8).

Definition crc_update (crc : Z) (p : list byte) : Z :=
  Z.lxor (foldl crc_byte (Z.lxor crc 4294967295) p) 4294967295.

Definition ieee : CRC32 :=
  {| ChecksumIEEE := crc_update 0;
     Update := crc_update |}.

(** A new segment on an empty file of a device with a megabyte of room, with
    a cache; three records, the second of them empty; a closed segment. *)
Definition emptyFile : @File (memOS [] 1048576) :=
  mkMemFile "dir/segment.SEG" [] 1048576.

Definition emptySegment : @segment (memOS [] 1048576) lastEntry :=
  @mkSegment (memOS [] 1048576) lastEntry 1 emptyFile 0 0 false (Some None) (make 7) [].

Definition hello : list byte := [Byte.x68; Byte.x65; Byte.x6c; Byte.x6c; Byte.x6f].

Definition threeRecords : list (list byte) :=
  [ hello; []; [Byte.x77; Byte.x61; Byte.x6c] ].

Definition closedSegment : @segment (memOS [] 1048576) lastEntry :=
  @mkSegment (memOS [] 1048576) lastEntry 1 emptyFile 0 0 true (Some None) (make 7) [].




(** A new segment on a device that has no room left. *)
Definition fullSegment : @segment (memOS [] 0) lastEntry :=
  @mkSegment (memOS [] 0) lastEntry 1 (mkMemFile "dir/segment.SEG" [] 0)
             0 0 false (Some None) (make 7) [].

(** Eleven bytes with the continuation bit. *)
Definition overlong : list byte := replicate 11 Byte.xff.

End walinst.

(** * Properties *)

#[local] Set Warnings "-clear-no-such-hyp".

Section Properties.
Context {clock : Clock} {msgrate : Msgrate} {chain : Chain} {limits : Limits}.

Ltac unmonad := unfold mbind, outcome_bind, mret, outcome_ret in *.
Ltac wsimpl := unfold set_conn, set_trk, go in *; simpl in *.

(** ** The four copies of each method do the same thing *)

Lemma deref_Some p w c : conns w !! p = Some c → deref p w = Return c.
Proof. intros Hc. unfold deref. by rewrite Hc. Qed.

Lemma deref_None p w : conns w !! p = None → deref p w = Panic panicNil.
Proof. intros Hc. unfold deref. by rewrite Hc. Qed.

Lemma Fetch_unfold now p a w c :
  conns w !! p = Some c →
  Fetch now p a w =
    if (version c <? minVersion (kindOf a))%N
    then Panic (panicProtocol (panicWhat a) (minVersion (kindOf a)) (version c))
    else if flag (kindOf a) c then Return (Some errAlreadyFetching, w)
    else Return (None,
                 go (peer c) (requestOf a)
                    (set_conn p (set_started (kindOf a) now (set_flag (kindOf a) true c)) w)).
Proof.
  intros Hc.
  destruct a; simpl;
    unfold FetchHeaders, FetchBodies, FetchReceipts, FetchNodeData;
    rewrite (deref_Some _ _ _ Hc); unmonad; simpl;
    (destruct (version c <? _)%N; [reflexivity|]);
    unfold CompareAndSwap;
    [destruct (headerIdle c)|destruct (blockIdle c)
    |destruct (receiptIdle c)|destruct (stateIdle c)]; reflexivity.
Qed.

Lemma Fetch_nil now p a w :
  conns w !! p = None → Fetch now p a w = Panic panicNil.
Proof.
  intros Hc.
  destruct a; simpl;
    unfold FetchHeaders, FetchBodies, FetchReceipts, FetchNodeData;
    by rewrite (deref_None _ _ Hc).
Qed.

Lemma SetIdle_unfold k p delivered deliveryTime w c t r :
  conns w !! p = Some c → rates c = Some t → trks w !! t = Some r →
  SetIdle k p delivered deliveryTime w =
    Return (set_conn p (set_flag k false c)
              (set_trk t (Tracker_Update r (msgCode k)
                            (time_Sub deliveryTime (started k c)) delivered) w)).
Proof.
  intros Hc Ht Hr.
  destruct k; simpl;
    unfold SetHeadersIdle, SetBodiesIdle, SetReceiptsIdle, SetNodeDataIdle;
    rewrite (deref_Some _ _ _ Hc); unmonad; unfold tracker_of;
    rewrite Ht, Hr; reflexivity.
Qed.

Lemma flag_set_flag k k' b c :
  flag k (set_flag k' b c) = if decide (k = k') then b else flag k c.
Proof. destruct k, k'; reflexivity. Qed.

Lemma flag_set_started k k' t c : flag k (set_started k' t c) = flag k c.
Proof. destruct k, k'; reflexivity. Qed.

Lemma started_set_started k k' t c :
  started k (set_started k' t c) = if decide (k = k') then t else started k c.
Proof. destruct k, k'; reflexivity. Qed.

Lemma started_set_flag k k' b c : started k (set_flag k' b c) = started k c.
Proof. destruct k, k'; reflexivity. Qed.

(** ** The lacking set *)

Lemma range_lacking_head o (s : gset N) :
  s ≠ ∅ → ∃ drop rest, range_lacking o s = drop :: rest ∧ drop ∈ s.
Proof.
  intros Hne.
  pose proof (range_lacking_perm o s) as Hperm.
  destruct (range_lacking o s) as [|drop rest] eqn:Hr.
  - apply Permutation_nil_l in Hperm. symmetry in Hperm.
    apply elements_empty_inv in Hperm. destruct Hne. by apply leibniz_equiv.
  - exists drop, rest. split; [done|].
    apply elem_of_elements. rewrite <- Hperm. left.
Qed.

Lemma size_drop (s : gset N) drop :
  drop ∈ s → size (s ∖ {[drop]}) = (size s - 1)%nat.
Proof.
  intros Hin. rewrite size_difference by set_solver.
  by rewrite size_singleton.
Qed.

Lemma dropLacking_subseteq o fuel (s : gset N) : dropLacking o fuel s ⊆ s.
Proof.
  revert s. induction fuel as [|fuel IH]; intros s; simpl; [done|].
  case_decide; [|done].
  destruct (range_lacking o s) as [|drop rest]; [done|].
  etrans; [apply IH|]. set_solver.
Qed.

(** The loop is left with the set below the bound: [size s] turns were
    enough. *)
Lemma dropLacking_exit o (s : gset N) :
  Z.of_nat (size (dropLacking o (size s) s)) < maxLackingHashes.
Proof.
  assert (∀ fuel (s : gset N), (size s ≤ fuel)%nat →
            Z.of_nat (size (dropLacking o fuel s)) < maxLackingHashes) as Hgen.
  { clear s. induction fuel as [|fuel IH]; intros s Hsz; simpl.
    - unfold maxLackingHashes. lia.
    - case_decide as Hfull; [|lia].
      destruct (range_lacking_head o s) as (drop & rest & -> & Hin).
      { intros ->. rewrite size_empty in Hfull. unfold maxLackingHashes in Hfull. lia. }
      apply IH. rewrite size_drop by done.
      unfold maxLackingHashes in Hfull. lia. }
  by apply Hgen.
Qed.

Lemma dropLacking_below o fuel (s : gset N) :
  Z.of_nat (size s) < maxLackingHashes → dropLacking o fuel s = s.
Proof.
  intros Hsz. destruct fuel; simpl; [done|].
  case_decide; [lia|done].
Qed.

Lemma dropLacking_full o (s : gset N) :
  Z.of_nat (size s) = maxLackingHashes →
  ∃ drop, drop ∈ s ∧ dropLacking o (size s) s = s ∖ {[drop]}.
Proof.
  intros Hsz.
  destruct (size s) as [|fuel] eqn:Hfuel; [unfold maxLackingHashes in Hsz; lia|].
  simpl. rewrite Hfuel. case_decide; [|lia].
  destruct (range_lacking_head o s) as (drop & rest & -> & Hin).
  { intros ->. by rewrite size_empty in Hfuel. }
  exists drop. split; [done|].
  apply dropLacking_below. rewrite size_drop by done.
  unfold maxLackingHashes in *. lia.
Qed.

Lemma MarkLacking_unfold o p hash w c :
  conns w !! p = Some c →
  MarkLacking o p hash w =
    Return (set_conn p (set_lacking
                          ({[hash]} ∪ dropLacking o (size (lacking c)) (lacking c)) c) w).
Proof. intros Hc. unfold MarkLacking. by rewrite (deref_Some _ _ _ Hc). Qed.

Lemma size_MarkLacking o hash (s : gset N) :
  Z.of_nat (size ({[hash]} ∪ dropLacking o (size s) s)) ≤ maxLackingHashes.
Proof.
  pose proof (dropLacking_exit o s) as Hexit.
  pose proof (size_union_alt {[hash]} (dropLacking o (size s) s)) as Hu.
  rewrite size_singleton in Hu.
  assert (dropLacking o (size s) s ∖ {[hash]} ⊆ dropLacking o (size s) s) as Hsub
    by set_solver.
  apply subseteq_size in Hsub. lia.
Qed.

(** ** What every history keeps true *)

Lemma conn_ok_trks ts ts' c :
  conn_ok ts c → (∀ t, is_Some (ts !! t) → is_Some (ts' !! t)) → conn_ok ts' c.
Proof.
  intros (Hflag & Hsize & Hrates) Hmono. unfold conn_ok. split_and!; [done..|].
  intros t Ht. by apply Hmono, Hrates.
Qed.

Lemma state_ok_set_conn ps w p c c' :
  state_ok (ps, w) → conns w !! p = Some c →
  conn_ok (trks w) c' → id c' = id c → (is_Some (rates c) → is_Some (rates c')) →
  state_ok (ps, set_conn p c' w).
Proof.
  intros (Hconns & Hpeers & Htracked) Hc Hok Hid Hrates.
  unfold state_ok. split_and!; wsimpl.
  - intros q d. rewrite lookup_insert. case_decide as Hq.
    + by intros [= <-].
    + apply Hconns.
  - intros i q Hq. destruct (Hpeers i q Hq) as (d & Hd & Hdi & Hdr).
    rewrite lookup_insert. case_decide as Hpq.
    + subst q. rewrite Hc in Hd. injection Hd as <-.
      exists c'. split_and!; [done|congruence|auto].
    + by exists d.
  - apply Htracked.
Qed.

Lemma state_ok_set_trk ps w t r : state_ok (ps, w) → state_ok (ps, set_trk t r w).
Proof.
  intros (Hconns & Hpeers & Htracked).
  unfold state_ok. split_and!; wsimpl; [|done|apply Htracked].
  intros q d Hd. eapply conn_ok_trks; [by eapply Hconns|].
  intros t' Ht'. rewrite lookup_insert. case_decide; [by eexists|done].
Qed.

Lemma state_ok_go ps w to r : state_ok (ps, w) → state_ok (ps, go to r w).
Proof. intros Hok. exact Hok. Qed.

Lemma state_ok_initial : state_ok initial.
Proof.
  unfold state_ok. split_and!; simpl.
  - intros p c. by rewrite lookup_empty.
  - intros i p. by rewrite lookup_empty.
  - done.
Qed.

Lemma newPeerConnection_fresh id0 version0 peer0 w :
  conns w !! (newPeerConnection id0 version0 peer0 w).1 = None.
Proof. simpl. apply not_elem_of_dom, is_fresh. Qed.

Lemma state_ok_newPeerConnection ps w id0 version0 peer0 :
  state_ok (ps, w) → state_ok (ps, (newPeerConnection id0 version0 peer0 w).2).
Proof.
  intros (Hconns & Hpeers & Htracked).
  pose proof (newPeerConnection_fresh id0 version0 peer0 w) as Hfresh.
  simpl in Hfresh. unfold state_ok. split_and!; wsimpl; [| |apply Htracked].
  - intros q d. rewrite lookup_insert. case_decide.
    + intros [= <-]. unfold conn_ok. split_and!.
      * by intros [].
      * cbn [lacking]. rewrite size_empty. unfold maxLackingHashes. lia.
      * done.
    + apply Hconns.
  - intros i q Hq. destruct (Hpeers i q Hq) as (d & Hd & Hrest).
    exists d. split; [|done]. rewrite lookup_insert_ne; [done|].
    intros <-. by rewrite Hfresh in Hd.
Qed.

Lemma peerConnection_Reset_unfold p w c :
  conns w !! p = Some c →
  peerConnection_Reset p w =
    Return (set_conn p
              (set_lacking ∅ (set_stateIdle false (set_receiptIdle false
                 (set_blockIdle false (set_headerIdle false c))))) w).
Proof. intros Hc. unfold peerConnection_Reset. by rewrite (deref_Some _ _ _ Hc). Qed.

Lemma state_ok_Reset ps w p w' :
  state_ok (ps, w) → peerConnection_Reset p w = Return w' → state_ok (ps, w').
Proof.
  intros Hok Hr. destruct (conns w !! p) as [c|] eqn:Hc.
  - rewrite (peerConnection_Reset_unfold _ _ _ Hc) in Hr. injection Hr as <-.
    eapply state_ok_set_conn; [done..| |done|done].
    destruct Hok as (Hconns & _); cbn [fst snd] in *.
    destruct (Hconns p c Hc) as (_ & _ & Hrates).
    unfold conn_ok. split_and!.
    + by intros [].
    + cbn [lacking set_lacking]. rewrite size_empty. unfold maxLackingHashes. lia.
    + done.
  - unfold peerConnection_Reset in Hr. by rewrite (deref_None _ _ Hc) in Hr.
Qed.

Lemma state_ok_Fetch ps w now p a r w' :
  state_ok (ps, w) → Fetch now p a w = Return (r, w') → state_ok (ps, w').
Proof.
  intros Hok Hr. destruct (conns w !! p) as [c|] eqn:Hc.
  - rewrite (Fetch_unfold _ _ _ _ _ Hc) in Hr.
    destruct (version c <? minVersion (kindOf a))%N eqn:Hv; [done|].
    destruct (flag (kindOf a) c) eqn:Hf; injection Hr as <- <-; [done|].
    apply state_ok_go. eapply state_ok_set_conn; [done..| | |].
    + destruct Hok as (Hconns & _); cbn [fst snd] in *.
      destruct (Hconns p c Hc) as (Hflag & Hsize & Hrates).
      unfold conn_ok. split_and!.
      * intros k. rewrite flag_set_started, flag_set_flag. case_decide as Hk.
        -- intros _. subst k. apply N.ltb_ge in Hv. by destruct (kindOf a).
        -- intros Hk'. specialize (Hflag k Hk'). by destruct (kindOf a).
      * by destruct (kindOf a).
      * by destruct (kindOf a).
    + by destruct (kindOf a).
    + by destruct (kindOf a).
  - by rewrite (Fetch_nil _ _ _ _ Hc) in Hr.
Qed.

Lemma SetIdle_Return k p delivered deliveryTime w w' :
  SetIdle k p delivered deliveryTime w = Return w' →
  ∃ c t r, conns w !! p = Some c ∧ rates c = Some t ∧ trks w !! t = Some r.
Proof.
  intros Hr. destruct (conns w !! p) as [c|] eqn:Hc.
  - destruct (rates c) as [t|] eqn:Ht.
    + destruct (trks w !! t) as [r|] eqn:Htr; [by exists c, t, r|].
      destruct k; simpl in Hr;
        unfold SetHeadersIdle, SetBodiesIdle, SetReceiptsIdle, SetNodeDataIdle in Hr;
        rewrite (deref_Some _ _ _ Hc) in Hr; unmonad; unfold tracker_of in Hr;
        by rewrite Ht, Htr in Hr.
    + destruct k; simpl in Hr;
        unfold SetHeadersIdle, SetBodiesIdle, SetReceiptsIdle, SetNodeDataIdle in Hr;
        rewrite (deref_Some _ _ _ Hc) in Hr; unmonad; unfold tracker_of in Hr;
        by rewrite Ht in Hr.
  - destruct k; simpl in Hr;
      unfold SetHeadersIdle, SetBodiesIdle, SetReceiptsIdle, SetNodeDataIdle in Hr;
      by rewrite (deref_None _ _ Hc) in Hr.
Qed.

Lemma state_ok_SetIdle ps w k p delivered deliveryTime w' :
  state_ok (ps, w) → SetIdle k p delivered deliveryTime w = Return w' →
  state_ok (ps, w').
Proof.
  intros Hok Hr.
  destruct (SetIdle_Return _ _ _ _ _ _ Hr) as (c & t & r & Hc & Ht & Htr).
  rewrite (SetIdle_unfold _ _ _ _ _ _ _ _ Hc Ht Htr) in Hr. injection Hr as <-.
  eapply state_ok_set_conn.
  - by apply state_ok_set_trk.
  - done.
  - destruct Hok as (Hconns & _); cbn [fst snd] in *.
    destruct (Hconns p c Hc) as (Hflag & Hsize & Hrates).
    unfold conn_ok. split_and!.
    + intros k'. rewrite flag_set_flag. case_decide; [done|].
      intros Hk'. specialize (Hflag k' Hk'). by destruct k.
    + by destruct k.
    + intros t' Ht'. wsimpl. rewrite lookup_insert. case_decide; [by eexists|].
      apply Hrates. by destruct k.
  - by destruct k.
  - by destruct k.
Qed.

Lemma state_ok_MarkLacking ps w o p hash w' :
  state_ok (ps, w) → MarkLacking o p hash w = Return w' → state_ok (ps, w').
Proof.
  intros Hok Hr. destruct (conns w !! p) as [c|] eqn:Hc.
  - rewrite (MarkLacking_unfold _ _ _ _ _ Hc) in Hr. injection Hr as <-.
    eapply state_ok_set_conn; [done..| |done|done].
    destruct Hok as (Hconns & _); cbn [fst snd] in *.
    destruct (Hconns p c Hc) as (Hflag & Hsize & Hrates).
    unfold conn_ok. split_and!; [done| |done].
    cbn [lacking set_lacking]. apply size_MarkLacking.
  - unfold MarkLacking in Hr. by rewrite (deref_None _ _ Hc) in Hr.
Qed.

Lemma state_ok_peerSet_Reset_loop ps l w w' :
  state_ok (ps, w) → peerSet_Reset_loop l w = Return w' → state_ok (ps, w').
Proof.
  revert w. induction l as [|[i p] l IH]; intros w Hok Hr; simpl in Hr.
  - by injection Hr as <-.
  - destruct (peerConnection_Reset p w) as [w1|] eqn:H1; [|done].
    unmonad. eapply IH; [|done]. by eapply state_ok_Reset.
Qed.

Lemma Register_unfold p ps w c :
  conns w !! p = Some c →
  Register p ps w =
    match peers ps !! id c with
    | Some _ => Return (Some errAlreadyRegistered, ps, w)
    | None =>
        let t := fresh (dom (trks w)) in
        let r := NewTracker (MeanCapacities (tracked (ps_rates ps) w))
                            (MedianRoundTrip (tracked (ps_rates ps) w)) in
        let w' := set_conn p (set_rates (Some t) c) (set_trk t r w) in
        match trackers (ps_rates ps) !! id c with
        | Some _ => Return (Some errTracked, ps, w')
        | None =>
            Return (None,
                    mkPeerSet (<[id c := p]> (peers ps))
                              (mkTrackers (<[id c := t]> (trackers (ps_rates ps))))
                              (newPeerFeed ps ++ [p]) (peerDropFeed ps),
                    w')
        end
    end.
Proof.
  intros Hc. unfold Register. rewrite (deref_Some _ _ _ Hc). unmonad.
  destruct (peers ps !! id c); [done|]. simpl.
  unfold Trackers_Track. by destruct (trackers (ps_rates ps) !! id c).
Qed.

Lemma state_ok_Register ps w p r ps' w' :
  state_ok (ps, w) → Register p ps w = Return (r, ps', w') → state_ok (ps', w').
Proof.
  intros Hok Hr. destruct (conns w !! p) as [c|] eqn:Hc.
  - rewrite (Register_unfold _ _ _ _ Hc) in Hr.
    destruct (peers ps !! id c) as [q|] eqn:Hq.
    { by injection Hr as <- <- <-. }
    destruct Hok as (Hconns & Hpeers & Htracked); cbn [fst snd] in *.
    pose proof (proj2 (Htracked (id c)) Hq) as Hnot. rewrite Hnot in Hr.
    simpl in Hr. injection Hr as <- <- <-.
    set (t := fresh (dom (trks w))).
    set (r := NewTracker _ _).
    assert (state_ok (ps, set_conn p (set_rates (Some t) c) (set_trk t r w))) as Hok1.
    { eapply state_ok_set_conn; [by apply state_ok_set_trk|done| |done|by eexists].
      destruct (Hconns p c Hc) as (Hflag & Hsize & Hrates).
      unfold conn_ok. split_and!; [done..|].
      intros t' [= <-]. wsimpl. rewrite lookup_insert_eq. by eexists. }
    destruct Hok1 as (Hconns1 & Hpeers1 & Htracked1).
    unfold state_ok. split_and!; [done| |]; cbn [fst snd peers ps_rates trackers].
    + intros i q. rewrite lookup_insert. case_decide as Hi.
      * intros [= <-]. subst i. exists (set_rates (Some t) c).
        wsimpl. rewrite lookup_insert_eq. split_and!; [done..|by eexists].
      * apply Hpeers1.
    + intros i. rewrite !lookup_insert. case_decide; [done|]. apply Htracked.
  - unfold Register in Hr. by rewrite (deref_None _ _ Hc) in Hr.
Qed.

Lemma Unregister_unfold id0 ps :
  Unregister id0 ps =
    match peers ps !! id0 with
    | None => (Some errNotRegistered, ps)
    | Some p =>
        (None, mkPeerSet (delete id0 (peers ps))
                 (match trackers (ps_rates ps) !! id0 with
                  | Some _ => mkTrackers (delete id0 (trackers (ps_rates ps)))
                  | None => ps_rates ps
                  end)
                 (newPeerFeed ps) (peerDropFeed ps ++ [p]))
    end.
Proof.
  unfold Unregister, Trackers_Untrack.
  destruct (peers ps !! id0); [|done].
  by destruct (trackers (ps_rates ps) !! id0).
Qed.

Lemma state_ok_Unregister ps w id0 :
  state_ok (ps, w) → state_ok ((Unregister id0 ps).2, w).
Proof.
  intros Hok. rewrite Unregister_unfold.
  destruct (peers ps !! id0) as [p|] eqn:Hp; [|done].
  destruct Hok as (Hconns & Hpeers & Htracked); cbn [fst snd] in *.
  destruct (trackers (ps_rates ps) !! id0) as [t|] eqn:Ht.
  2:{ apply Htracked in Ht. congruence. }
  unfold state_ok. split_and!; [done| |]; cbn [fst snd peers ps_rates trackers].
  - intros i q. rewrite lookup_delete. case_decide; [done|]. apply Hpeers.
  - intros i. rewrite !lookup_delete. case_decide; [done|]. apply Htracked.
Qed.

Lemma state_ok_exec c s s' : state_ok s → exec c s = Return s' → state_ok s'.
Proof.
  destruct s as [ps w]. intros Hok He. destruct c; simpl in He.
  - injection He as <-. by apply state_ok_newPeerConnection.
  - destruct (peerConnection_Reset p w) eqn:Hr; [|done].
    injection He as <-. by eapply state_ok_Reset.
  - destruct (Fetch now p a w) as [[r w1]|] eqn:Hr; [|done].
    injection He as <-. by eapply state_ok_Fetch.
  - destruct (SetIdle k p delivered deliveryTime w) eqn:Hr; [|done].
    injection He as <-. by eapply state_ok_SetIdle.
  - destruct (MarkLacking o p hash w) eqn:Hr; [|done].
    injection He as <-. by eapply state_ok_MarkLacking.
  - destruct (peerSet_Reset o ps w) eqn:Hr; [|done].
    injection He as <-. by eapply state_ok_peerSet_Reset_loop.
  - destruct (Register p ps w) as [[[r ps1] w1]|] eqn:Hr; [|done].
    injection He as <-. by eapply state_ok_Register.
  - injection He as <-. by apply state_ok_Unregister.
Qed.

Lemma state_ok_run cs s s' evs :
  state_ok s → run cs s = Return (s', evs) → state_ok s'.
Proof.
  revert s evs. induction cs as [|c cs IH]; intros s evs Hok Hr; simpl in Hr.
  - by injection Hr as <- <-.
  - destruct (exec c s) as [s1|] eqn:He; [|done]. unmonad.
    destruct (run cs s1) as [[s2 evs2]|] eqn:Hr2; [|done].
    injection Hr as <- <-. eapply IH; [|done]. by eapply state_ok_exec.
Qed.

Lemma reachable_state_ok s : reachable s → state_ok s.
Proof. intros (cs & evs & Hr). eapply state_ok_run; [apply state_ok_initial|done]. Qed.

Lemma run_app cs1 cs2 s :
  run (cs1 ++ cs2) s =
    '(s1, evs1) ← run cs1 s; '(s2, evs2) ← run cs2 s1; Return (s2, evs1 ++ evs2).
Proof.
  revert s. induction cs1 as [|c cs1 IH]; intros s; simpl.
  - unmonad. destruct (run cs2 s) as [[s2 evs2]|]; reflexivity.
  - destruct (exec c s) as [s1|]; [|done]. unmonad. rewrite IH. unmonad.
    destruct (run cs1 s1) as [[s1' evs1]|]; [|done].
    destruct (run cs2 s1') as [[s2 evs2]|]; [|done].
    by rewrite app_assoc.
Qed.

(** A history that runs to its end leads to its final state. *)
Lemma run_finalState cs evs :
  eventsIn cs = Some evs →
  run cs initial = Return (((finalState cs).1, (finalState cs).2), evs).
Proof.
  unfold eventsIn, finalState.
  destruct (run cs initial) as [[[ps w] evs']|]; [|done]. by intros [= ->].
Qed.

Lemma reachable_finalState cs evs :
  eventsIn cs = Some evs → reachable ((finalState cs).1, (finalState cs).2).
Proof. intros Hevs. exists cs, evs. by apply run_finalState. Qed.

(** ** Fetching *)

(** C1: if the flag of a kind is raised, a further Fetch for that kind
    returns errAlreadyFetching and hands back the very state it was called
    in: the start times, the trackers, the other flags, the lacking sets and
    the requests handed to the remote peers are what they were. *)
Theorem Fetch_while_busy now p a ps w c :
  reachable (ps, w) →
  conns w !! p = Some c →
  flag (kindOf a) c = true →
  Fetch now p a w = Return (Some errAlreadyFetching, w).
Proof.
  intros Hreach Hc Hbusy.
  apply reachable_state_ok in Hreach. destruct Hreach as (Hconns & _).
  destruct (Hconns p c Hc) as (Hflag & _).
  rewrite (Fetch_unfold _ _ _ _ _ Hc), Hbusy.
  by apply Hflag, N.ltb_ge in Hbusy as ->.
Qed.

(** C9: a Fetch panics exactly when the version of the session is below the
    minimum of the kind (62 for headers and bodies, 63 for receipts and state
    data); from that minimum on it returns, either with no error or with
    errAlreadyFetching. *)
Theorem Fetch_panics_below_minVersion now p a w c :
  conns w !! p = Some c →
  ((∃ e, Fetch now p a w = Panic e) ↔ (version c < minVersion (kindOf a))%N) ∧
  ((version c < minVersion (kindOf a))%N →
     Fetch now p a w =
       Panic (panicProtocol (panicWhat a) (minVersion (kindOf a)) (version c))) ∧
  ((minVersion (kindOf a) ≤ version c)%N →
     Fetch now p a w = Return (Some errAlreadyFetching, w) ∨
     ∃ w', Fetch now p a w = Return (None, w')).
Proof.
  intros Hc. rewrite (Fetch_unfold _ _ _ _ _ Hc).
  destruct (version c <? minVersion (kindOf a))%N eqn:Hv.
  - apply N.ltb_lt in Hv. split_and!.
    + split; [done|]. intros _. by eexists.
    + done.
    + lia.
  - apply N.ltb_ge in Hv. split_and!.
    + split; [|lia]. intros [e He]. by destruct (flag (kindOf a) c).
    + lia.
    + intros _. destruct (flag (kindOf a) c); [by left|right; by eexists].
Qed.

(** C8: SetIdle hands the tracker of the session the time from the start
    time of the kind to the delivery time and the number of items delivered,
    under the message code of the kind, and then lowers the flag of the kind;
    a Fetch of the kind succeeds afterwards.  So a fetch succeeds, a second
    one is refused, and a third one, after SetIdle, succeeds again. *)
Theorem SetIdle_measures_then_frees k p delivered deliveryTime w c t r :
  conns w !! p = Some c →
  rates c = Some t →
  trks w !! t = Some r →
  let w' := set_conn p (set_flag k false c)
              (set_trk t (Tracker_Update r (msgCode k)
                            (time_Sub deliveryTime (started k c)) delivered) w) in
  SetIdle k p delivered deliveryTime w = Return w' ∧
  (∀ now a, kindOf a = k → (minVersion k ≤ version c)%N →
     ∃ w'', Fetch now p a w' = Return (None, w'')) ∧
  (∀ now1 now2 now3 a1 a2 a3,
     kindOf a1 = k → kindOf a2 = k → kindOf a3 = k →
     flag k c = false → (minVersion k ≤ version c)%N →
     ∃ w1 w2 w3,
       Fetch now1 p a1 w = Return (None, w1) ∧
       Fetch now2 p a2 w1 = Return (Some errAlreadyFetching, w1) ∧
       SetIdle k p delivered deliveryTime w1 = Return w2 ∧
       trks w2 !! t = Some (Tracker_Update r (msgCode k)
                              (time_Sub deliveryTime now1) delivered) ∧
       Fetch now3 p a3 w2 = Return (None, w3)).
Proof.
  intros Hc Ht Hr w'.
  assert (∀ (w0 : World) c0 now a,
            conns w0 !! p = Some c0 → flag (kindOf a) c0 = false →
            (minVersion (kindOf a) ≤ version c0)%N →
            Fetch now p a w0 =
              Return (None, go (peer c0) (requestOf a)
                              (set_conn p (set_started (kindOf a) now
                                             (set_flag (kindOf a) true c0)) w0)))
    as Hfetch.
  { intros w0 c0 now a Hc0 Hidle Hv. rewrite (Fetch_unfold _ _ _ _ _ Hc0), Hidle.
    by apply N.ltb_ge in Hv as ->. }
  split_and!.
  - by apply SetIdle_unfold.
  - intros now a <- Hv. eexists. apply Hfetch.
    + subst w'. wsimpl. apply lookup_insert_eq.
    + rewrite flag_set_flag. by case_decide.
    + by destruct (kindOf a).
  - intros now1 now2 now3 a1 a2 a3 <- Hk2 Hk3 Hidle Hv.
    set (c1 := set_started (kindOf a1) now1 (set_flag (kindOf a1) true c)).
    set (w1 := go (peer c) (requestOf a1) (set_conn p c1 w)).
    assert (conns w1 !! p = Some c1) as Hc1 by (subst w1; wsimpl; apply lookup_insert_eq).
    assert (rates c1 = Some t) as Ht1 by (subst c1; by destruct (kindOf a1)).
    assert (trks w1 !! t = Some r) as Hr1 by done.
    eexists w1, _, _. split_and!.
    + by apply Hfetch.
    + rewrite (Fetch_unfold _ _ _ _ _ Hc1), Hk2.
      subst c1. rewrite flag_set_started, flag_set_flag, decide_True by done.
      replace (version _) with (version c) by (by destruct (kindOf a1)).
      by apply N.ltb_ge in Hv as ->.
    + by apply SetIdle_unfold.
    + wsimpl. rewrite lookup_insert_eq. subst c1.
      by rewrite started_set_started, decide_True.
    + rewrite <- Hk3 at 1 2 3. apply Hfetch.
      * wsimpl. apply lookup_insert_eq.
      * rewrite Hk3, flag_set_flag. by case_decide.
      * rewrite Hk3. subst c1. by destruct (kindOf a1).
Qed.

(** ** Reset *)

Lemma Lacks_unfold p hash w c :
  conns w !! p = Some c → Lacks p hash w = Return (bool_decide (hash ∈ lacking c)).
Proof. intros Hc. unfold Lacks. by rewrite (deref_Some _ _ _ Hc). Qed.

Lemma cleared_intro p w c :
  conns w !! p = Some c → (∀ k, flag k c = false) → lacking c = ∅ → cleared p w.
Proof.
  intros Hc Hflags Hlacking. exists c. split_and!; [done..| |].
  - intros hash. rewrite (Lacks_unfold _ _ _ _ Hc), Hlacking.
    by rewrite bool_decide_eq_false_2 by set_solver.
  - intros now a r w'. rewrite (Fetch_unfold _ _ _ _ _ Hc), Hflags.
    destruct (version c <? _)%N; [done|]. by intros [= <- _].
Qed.

Lemma cleared_Reset p w c :
  conns w !! p = Some c →
  ∃ w', peerConnection_Reset p w = Return w' ∧ cleared p w' ∧
        (∀ q, q ≠ p → conns w' !! q = conns w !! q).
Proof.
  intros Hc. eexists. split; [by apply peerConnection_Reset_unfold|]. split.
  - eapply cleared_intro.
    + wsimpl. apply lookup_insert_eq.
    + by intros [].
    + done.
  - intros q Hq. wsimpl. by rewrite lookup_insert_ne.
Qed.

Lemma cleared_preserved p q w w' :
  cleared p w → peerConnection_Reset q w = Return w' → cleared p w'.
Proof.
  intros (c & Hc & Hflags & Hlacking & _) Hr.
  destruct (conns w !! q) as [d|] eqn:Hd.
  - rewrite (peerConnection_Reset_unfold _ _ _ Hd) in Hr. injection Hr as <-.
    destruct (decide (q = p)) as [->|Hne].
    + eapply cleared_intro; [wsimpl; apply lookup_insert_eq|by intros []|done].
    + eapply cleared_intro; [|done..]. wsimpl. by rewrite lookup_insert_ne.
  - unfold peerConnection_Reset in Hr. by rewrite (deref_None _ _ Hd) in Hr.
Qed.

Lemma peerSet_Reset_loop_cleared l w :
  (∀ ip, ip ∈ l → is_Some (conns w !! ip.2)) →
  ∃ w', peerSet_Reset_loop l w = Return w' ∧
        (∀ ip, ip ∈ l → cleared ip.2 w') ∧
        (∀ q, cleared q w → cleared q w') ∧
        (∀ q, is_Some (conns w !! q) → is_Some (conns w' !! q)).
Proof.
  revert w. induction l as [|[i p] l IH]; intros w Hall.
  - exists w. split_and!; [done| |done..]. intros ip Hin. by apply elem_of_nil in Hin.
  - destruct (Hall (i, p)) as [c Hc]; [left|]. simpl in Hc.
    destruct (cleared_Reset p w c Hc) as (w1 & Hr1 & Hcl1 & Hothers).
    assert (∀ q, is_Some (conns w !! q) → is_Some (conns w1 !! q)) as Hdom1.
    { intros q Hq. destruct (decide (q = p)) as [->|Hne].
      - destruct Hcl1 as (c1 & Hc1 & _). by eexists.
      - by rewrite Hothers. }
    destruct (IH w1) as (w' & Hr' & Hcl' & Hkeep & Hdom).
    { intros ip Hin. apply Hdom1, Hall. by right. }
    exists w'. split_and!.
    + simpl. by rewrite Hr1.
    + intros ip [->|Hin]%elem_of_cons; [by apply Hkeep|by apply Hcl'].
    + intros q Hq. apply Hkeep. by eapply cleared_preserved.
    + intros q Hq. by apply Hdom, Hdom1.
Qed.

(** C7: whatever the history, Reset leaves the session with its four flags
    down and its lacking set empty, so that Lacks is false of every hash and
    no Fetch is refused with errAlreadyFetching; Reset of the registry leaves
    every registered session so. *)
Theorem Reset_clears_flags_and_lacking o ps w :
  reachable (ps, w) →
  (∀ p c, conns w !! p = Some c →
     ∃ w', peerConnection_Reset p w = Return w' ∧ cleared p w') ∧
  (∃ w', peerSet_Reset o ps w = Return w' ∧
         ∀ i p, peers ps !! i = Some p → cleared p w').
Proof.
  intros Hreach. split.
  - intros p c Hc. destruct (cleared_Reset p w c Hc) as (w' & Hr & Hcl & _).
    by exists w'.
  - apply reachable_state_ok in Hreach. destruct Hreach as (_ & Hpeers & _).
    cbn [fst snd] in *.
    destruct (peerSet_Reset_loop_cleared (range_peers o (peers ps)) w)
      as (w' & Hr & Hcl & _).
    { intros [i p] Hin. rewrite range_peers_perm in Hin.
      apply elem_of_map_to_list in Hin.
      destruct (Hpeers i p Hin) as (c & Hc & _). by eexists. }
    exists w'. split; [done|]. intros i p Hp.
    apply (Hcl (i, p)). rewrite range_peers_perm. by apply elem_of_map_to_list.
Qed.

(** ** The lacking set *)

(** C5: MarkLacking leaves at most 4096 entries, the marked hash among them,
    and so does every history; called with a new hash on a set of exactly
    4096 entries it leaves exactly 4096: the new hash and all of the former
    entries but one. *)
Theorem MarkLacking_bounded o p hash w c :
  conns w !! p = Some c →
  (∀ ps, reachable (ps, w) → Z.of_nat (size (lacking c)) ≤ 4096) ∧
  ∃ c', MarkLacking o p hash w = Return (set_conn p c' w) ∧
        Z.of_nat (size (lacking c')) ≤ 4096 ∧
        Lacks p hash (set_conn p c' w) = Return true ∧
        (Z.of_nat (size (lacking c)) = 4096 → hash ∉ lacking c →
           Z.of_nat (size (lacking c')) = 4096 ∧
           ∃ drop, drop ∈ lacking c ∧
                   lacking c' = {[hash]} ∪ (lacking c ∖ {[drop]})).
Proof.
  intros Hc. split.
  - intros ps Hreach. apply reachable_state_ok in Hreach.
    destruct Hreach as (Hconns & _). by destruct (Hconns p c Hc) as (_ & Hsize & _).
  - eexists. split; [by apply MarkLacking_unfold|]. split_and!.
    + apply size_MarkLacking.
    + erewrite Lacks_unfold by (wsimpl; apply lookup_insert_eq).
      cbn [lacking set_lacking]. by rewrite bool_decide_eq_true_2 by set_solver.
    + intros Hfull Hnew. cbn [lacking set_lacking].
      destruct (dropLacking_full o (lacking c) Hfull) as (drop & Hin & ->).
      split; [|by exists drop].
      rewrite size_union by set_solver.
      rewrite size_singleton, size_drop by done. lia.
Qed.

(** ** The registry *)

(** C6: Register fails exactly when the id of the session is registered
    already, with errAlreadyRegistered and the state handed back untouched;
    otherwise it gives the session a new tracker and enters the session and
    the tracker under the id.  Unregister fails exactly when the id is not
    registered, with errNotRegistered and the registry handed back
    untouched; otherwise it removes the session and the tracker of the id. *)
Theorem Register_Unregister ps w p c id0 :
  reachable (ps, w) →
  conns w !! p = Some c →
  (∀ e ps' w',
     Register p ps w = Return (Some e, ps', w') ↔
     is_Some (peers ps !! id c) ∧ e = errAlreadyRegistered ∧ ps' = ps ∧ w' = w) ∧
  (peers ps !! id c = None →
     ∃ t r,
       trks w !! t = None ∧
       Register p ps w =
         Return (None,
                 mkPeerSet (<[id c := p]> (peers ps))
                           (mkTrackers (<[id c := t]> (trackers (ps_rates ps))))
                           (newPeerFeed ps ++ [p]) (peerDropFeed ps),
                 set_conn p (set_rates (Some t) c) (set_trk t r w))) ∧
  (∀ e ps',
     Unregister id0 ps = (Some e, ps') ↔
     peers ps !! id0 = None ∧ e = errNotRegistered ∧ ps' = ps) ∧
  (∀ q, peers ps !! id0 = Some q →
     Unregister id0 ps =
       (None,
        mkPeerSet (delete id0 (peers ps))
                  (mkTrackers (delete id0 (trackers (ps_rates ps))))
                  (newPeerFeed ps) (peerDropFeed ps ++ [q]))).
Proof.
  intros Hreach Hc.
  apply reachable_state_ok in Hreach. destruct Hreach as (_ & _ & Htracked).
  cbn [fst snd] in *.
  rewrite (Register_unfold _ _ _ _ Hc), Unregister_unfold.
  split_and!.
  - intros e ps' w'. destruct (peers ps !! id c) as [q|] eqn:Hq.
    + split.
      * intros [= <- <- <-]. split_and!; [by eexists|done..].
      * by intros (_ & -> & -> & ->).
    + rewrite (proj2 (Htracked (id c)) Hq). split; [done|].
      by intros ([? ?] & _).
  - intros Hq. rewrite Hq, (proj2 (Htracked (id c)) Hq).
    eexists _, _. split; [|done].
    apply not_elem_of_dom, is_fresh.
  - intros e ps'. destruct (peers ps !! id0) as [q|] eqn:Hq.
    + split; [done|]. by intros (? & _).
    + split; [by intros [= <- <-]|by intros (_ & -> & ->)].
  - intros q Hq. rewrite Hq.
    destruct (trackers (ps_rates ps) !! id0) eqn:Ht; [done|].
    apply Htracked in Ht. congruence.
Qed.

Lemma registeredBy_app id0 evs1 evs2 acc :
  registeredBy id0 (evs1 ++ evs2) acc = registeredBy id0 evs2 (registeredBy id0 evs1 acc).
Proof.
  revert acc. induction evs1 as [|[i p|i] evs1 IH]; intros acc; simpl; [done|..];
    apply IH.
Qed.

Lemma Peer_exec id0 c s s' :
  exec c s = Return s' →
  Peer id0 s'.1 = registeredBy id0 (eventsOf c s) (Peer id0 s.1).
Proof.
  destruct s as [ps w]. intros He. destruct c; simpl in He |- *.
  - by injection He as <-.
  - destruct (peerConnection_Reset p w); [by injection He as <-|done].
  - destruct (Fetch now p a w) as [[? ?]|]; [by injection He as <-|done].
  - destruct (SetIdle k p delivered deliveryTime w); [by injection He as <-|done].
  - destruct (MarkLacking o p hash w); [by injection He as <-|done].
  - destruct (peerSet_Reset o ps w); [by injection He as <-|done].
  - destruct (conns w !! p) as [c|] eqn:Hc.
    + rewrite (deref_Some _ _ _ Hc).
      rewrite (Register_unfold _ _ _ _ Hc) in He |- *.
      destruct (peers ps !! id c) as [q|] eqn:Hq.
      * by injection He as <-.
      * cbn zeta in He |- *.
        destruct (trackers (ps_rates ps) !! id c); injection He as <-; [done|].
        unfold Peer. simpl. destruct (decide (id c = id0)) as [<-|Hne].
        -- by rewrite lookup_insert_eq.
        -- by rewrite lookup_insert_ne.
    + unfold Register in He. by rewrite (deref_None _ _ Hc) in He.
  - injection He as <-. rewrite Unregister_unfold. unfold Peer.
    destruct (peers ps !! id1) as [q|] eqn:Hq; simpl.
    + destruct (decide (id1 = id0)) as [<-|Hne].
      * by rewrite lookup_delete_eq.
      * by rewrite lookup_delete_ne.
    + done.
Qed.

Lemma Peer_run id0 cs s s' evs :
  run cs s = Return (s', evs) →
  Peer id0 s'.1 = registeredBy id0 evs (Peer id0 s.1).
Proof.
  revert s evs. induction cs as [|c cs IH]; intros s evs Hr; simpl in Hr.
  - by injection Hr as <- <-.
  - destruct (exec c s) as [s1|] eqn:He; [|done]. unmonad.
    destruct (run cs s1) as [[s2 evs2]|] eqn:Hr2; [|done].
    injection Hr as <- <-.
    rewrite registeredBy_app, <- (Peer_exec _ _ _ _ He). by apply IH.
Qed.

(** C10: after any history, Peer returns for an id the session that the last
    registration under the id entered, unless the id was unregistered since,
    and nil ([None]) for an id with no such registration; Peer returns a
    pointer only and hands no registry back. *)
Theorem Peer_is_last_registration id0 cs ps w evs :
  run cs initial = Return ((ps, w), evs) →
  Peer id0 ps = registeredBy id0 evs None ∧
  (Peer id0 ps = None ↔ id0 ∉ dom (peers ps)) ∧
  (∀ p, Peer id0 ps = Some p ↔ peers ps !! id0 = Some p).
Proof.
  intros Hr. split_and!.
  - by apply (Peer_run id0) in Hr.
  - unfold Peer. by rewrite not_elem_of_dom.
  - done.
Qed.

(** ** Idle peers *)

Lemma idleCheckOf_unfold k w p c :
  conns w !! p = Some c → idleCheckOf k w p = Return (negb (flag k c)).
Proof. intros Hc. unfold idleCheckOf. by rewrite (deref_Some _ _ _ Hc). Qed.

Lemma throughputOf_unfold k w p c t r :
  conns w !! p = Some c → rates c = Some t → trks w !! t = Some r →
  throughputOf k w p =
    Return (Tracker_Capacity r (match k with
                                | Headers => BlockHeadersMsg
                                | Bodies => BlockBodiesMsg
                                | Receipts | NodeData => NodeDataMsg
                                end) time_Second).
Proof.
  intros Hc Ht Hr.
  destruct k; simpl; unfold rates_Capacity; rewrite (deref_Some _ _ _ Hc); unmonad;
    unfold tracker_of; by rewrite Ht, Hr.
Qed.

Lemma throughputOf_capOf k w p c t r :
  conns w !! p = Some c → rates c = Some t → trks w !! t = Some r →
  throughputOf k w p = Return (capOf k w p).
Proof.
  intros Hc Ht Hr. unfold capOf.
  by rewrite (throughputOf_unfold _ _ _ _ _ _ Hc Ht Hr).
Qed.

(** The four queries are idlePeers between versions 63 and 65 with the
    closures of their kind. *)
Lemma IdlePeers_unfold sort_Sort k o ps w :
  IdlePeers sort_Sort k o ps w =
    idlePeers sort_Sort o 63 65 (idleCheckOf k) (throughputOf k) ps w.
Proof. by destruct k. Qed.

(** What the loop of idlePeers gathers. *)
Lemma idlePeers_loop_gathers k minProtocol maxProtocol w l total idle tps :
  (∀ ip, ip ∈ l →
     ∃ c t r, conns w !! ip.2 = Some c ∧ rates c = Some t ∧ trks w !! t = Some r) →
  let eligible := filter (λ p, versionIn minProtocol maxProtocol w p = true) l.*2 in
  let free := filter (λ p, idleFor k w p = true) eligible in
  idlePeers_loop minProtocol maxProtocol (idleCheckOf k) (throughputOf k) w l
                 total idle tps =
    Return (total + Z.of_nat (length eligible), idle ++ free,
            tps ++ (capOf k w <$> free)).
Proof.
  revert total idle tps. induction l as [|[i p] l IH]; intros total idle tps Hall; simpl.
  - by rewrite Z.add_0_r, !app_nil_r.
  - destruct (Hall (i, p)) as (c & t & r & Hc & Ht & Hr); [left|]. simpl in Hc.
    rewrite (deref_Some _ _ _ Hc). unmonad.
    assert (versionIn minProtocol maxProtocol w p
            = (minProtocol <=? version c)%N && (version c <=? maxProtocol)%N) as Hvi
      by (unfold versionIn; by rewrite Hc).
    assert (idleFor k w p = negb (flag k c)) as Hfi
      by (unfold idleFor; by rewrite Hc).
    rewrite filter_cons.
    destruct ((minProtocol <=? version c)%N && (version c <=? maxProtocol)%N).
    + rewrite decide_True by done. rewrite filter_cons.
      rewrite (idleCheckOf_unfold _ _ _ _ Hc).
      destruct (flag k c); simpl negb in *; cbv iota.
      * rewrite decide_False by (by rewrite Hfi).
        rewrite IH by (intros; apply Hall; by right).
        simpl. apply f_equal, (f_equal2 pair); [apply (f_equal2 pair)|]; [|done..].
        rewrite Nat2Z.inj_succ. unfold Z.succ.
        by rewrite <- Z.add_assoc, (Z.add_comm 1).
      * rewrite decide_True by done.
        rewrite (throughputOf_capOf _ _ _ _ _ _ Hc Ht Hr).
        rewrite IH by (intros; apply Hall; by right).
        simpl. rewrite <- !app_assoc. simpl. apply f_equal, (f_equal2 pair); [apply (f_equal2 pair)|]; [|done..].
        rewrite Nat2Z.inj_succ. unfold Z.succ.
        by rewrite <- Z.add_assoc, (Z.add_comm 1).
    + rewrite decide_False by (by rewrite Hvi).
      apply IH. intros; apply Hall; by right.
Qed.

(** Peers and throughputs that a sort by Swap has rearranged together. *)
Lemma zip_with_capOf (f : positive → Z) (l : list positive) :
  zip l (f <$> l) = (λ p, (p, f p)) <$> l.
Proof. induction l as [|p l IH]; [done|]. rewrite !fmap_cons. simpl. by rewrite IH. Qed.

Lemma paired_unzip (f : positive → Z) (l res : list positive) (tps : list Z) :
  zip res tps ≡ₚ (λ p, (p, f p)) <$> l → length res = length tps →
  res ≡ₚ l ∧ tps = f <$> res.
Proof.
  intros Hperm Hlen. split.
  - rewrite <- (fst_zip res tps) by lia. rewrite Hperm.
    rewrite <- list_fmap_compose. by rewrite list_fmap_id.
  - assert (Forall (λ x : positive * Z, x.2 = f x.1) (zip res tps)) as Hall.
    { rewrite Hperm. apply Forall_fmap, Forall_true. done. }
    clear Hperm. revert tps Hlen Hall.
    induction res as [|p res IH]; intros [|tp tps] Hlen Hall; simpl in *; try done.
    apply Forall_cons in Hall as [Hhd Hall]. simpl in Hhd. subst tp.
    f_equal. apply IH; [lia|done].
Qed.

Lemma index_nat {A} (l : list A) (i : nat) : index l (Z.of_nat i) = l !! i.
Proof.
  unfold index. rewrite (proj2 (Z.ltb_ge _ _)) by lia. by rewrite Nat2Z.id.
Qed.

Lemma sorted_by_Less_descending d :
  length (sort_p d) = length (sort_tp d) → sorted_by_Less d →
  StronglySorted (λ x y, y ≤ x) (sort_tp d).
Proof.
  destruct d as [p tp]. unfold sorted_by_Less, peerCapacitySort_Len,
    peerCapacitySort_Less. simpl. intros Hlen Hsorted.
  assert (∀ (i j : nat) x y, (i < j)%nat → tp !! i = Some x → tp !! j = Some y → y ≤ x)
    as Hle.
  { intros i j x y Hij Hx Hy.
    specialize (Hsorted (Z.of_nat i) (Z.of_nat j)).
    rewrite !index_nat, Hx, Hy in Hsorted.
    apply lookup_lt_Some in Hy.
    apply Z.ltb_ge, Hsorted; lia. }
  clear Hsorted Hlen p. induction tp as [|x tp IH]; constructor.
  - apply IH. intros i j y z Hij Hy Hz. by apply (Hle (S i) (S j)); [lia|..].
  - apply Forall_forall. intros y Hy.
    apply list_elem_of_lookup in Hy as [j Hj].
    by apply (Hle 0%nat (S j)); [lia|..].
Qed.

Lemma StronglySorted_map_capOf (f : positive → Z) (l : list positive) :
  StronglySorted (λ x y, y ≤ x) (f <$> l) → StronglySorted (λ a b, f b ≤ f a) l.
Proof.
  induction l as [|p l IH]; intros Hs; [constructor|].
  rewrite fmap_cons in Hs.
  apply StronglySorted_inv in Hs as [Hs Hall]. constructor; [by apply IH|].
  apply Forall_forall. intros b Hb.
  rewrite Forall_forall in Hall. by apply Hall, list_elem_of_fmap_2.
Qed.

(** What idlePeers returns, for any sort that keeps the contract of
    sort.Sort, in a state that a history has led to. *)
Lemma idlePeers_returns sort_Sort k o minProtocol maxProtocol ps w :
  sort_contract sort_Sort → reachable (ps, w) →
  let eligible :=
    filter (λ p, versionIn minProtocol maxProtocol w p = true)
           (range_peers o (peers ps)).*2 in
  let free := filter (λ p, idleFor k w p = true) eligible in
  ∃ res,
    idlePeers sort_Sort o minProtocol maxProtocol (idleCheckOf k) (throughputOf k) ps w
      = Return (res, Z.of_nat (length eligible)) ∧
    res ≡ₚ free ∧
    StronglySorted (λ a b, capOf k w b ≤ capOf k w a) res.
Proof.
  intros Hsort Hreach eligible free.
  apply reachable_state_ok in Hreach. destruct Hreach as (Hconns & Hpeers & _).
  cbn [fst snd] in *.
  unfold idlePeers. rewrite (idlePeers_loop_gathers k).
  2:{ intros [i p] Hin. rewrite range_peers_perm in Hin.
      apply elem_of_map_to_list in Hin.
      destruct (Hpeers i p Hin) as (c & Hc & _ & [t Ht]).
      destruct (Hconns p c Hc) as (_ & _ & Hrates).
      destruct (Hrates t Ht) as [r Hr]. by exists c, t, r. }
  unmonad. cbv zeta. fold eligible. fold free. simpl.
  destruct (Hsort (mkPeerCapacitySort free (capOf k w <$> free)))
    as (Hperm & Hlen & Hsorted).
  { simpl. by rewrite length_fmap. }
  simpl in Hperm. rewrite zip_with_capOf in Hperm.
  destruct (paired_unzip _ _ _ _ Hperm Hlen) as [Hres Htps].
  eexists. split_and!; [done..|].
  apply StronglySorted_map_capOf. rewrite <- Htps.
  by apply sorted_by_Less_descending.
Qed.

Lemma filter_snd {A B} (P : B → Prop) `{∀ x, Decision (P x)} (l : list (A * B)) :
  filter P l.*2 = (filter (λ ab, P ab.2) l).*2.
Proof.
  induction l as [|[a b] l IH]; [done|].
  rewrite fmap_cons, !filter_cons. simpl.
  destruct (decide (P b)); by rewrite IH.
Qed.

Lemma registered_NoDup ps w :
  state_ok (ps, w) → NoDup (map_to_list (peers ps)).*2.
Proof.
  intros (_ & Hpeers & _). cbn [fst snd] in *.
  apply NoDup_fmap_2_strong; [|apply NoDup_map_to_list].
  intros [i p] [j q] Hi Hj. simpl. intros ->.
  apply elem_of_map_to_list in Hi, Hj.
  destruct (Hpeers i q Hi) as (c & Hc & <- & _).
  destruct (Hpeers j q Hj) as (d & Hd & <- & _).
  congruence.
Qed.

(** A sort within the contract puts throughputs 10, 50 and 30 in the order
    50, 30, 10. *)
Lemma sort_contract_three sort_Sort a b c :
  sort_contract sort_Sort →
  sort_p (sort_Sort (mkPeerCapacitySort [a; b; c] [10; 50; 30])) = [b; c; a].
Proof.
  intros Hsort.
  destruct (Hsort (mkPeerCapacitySort [a; b; c] [10; 50; 30])) as (Hperm & Hlen & Hsorted);
    [done|].
  apply sorted_by_Less_descending in Hsorted; [|done].
  destruct (sort_Sort _) as [res tps]. simpl in *.
  assert (tps ≡ₚ [10; 50; 30]) as Htps.
  { rewrite <- (snd_zip res tps) by lia. by rewrite Hperm. }
  assert (tps = [50; 30; 10]) as ->.
  { assert (AntiSymm (=) (λ x y : Z, y ≤ x)) as Hanti by (intros x y ??; lia).
    eapply (StronglySorted_unique (λ x y : Z, y ≤ x)); [done| |].
    - repeat constructor; lia.
    - rewrite Htps. apply (Permutation_cons_append [50; 30] 10). }
  destruct res as [|r1 [|r2 [|r3 [|]]]]; try done. simpl in Hperm.
  assert ((r1, 50) ∈ [(a, 10); (b, 50); (c, 30)]) as H1
    by (rewrite <- Hperm; apply list_elem_of_here).
  assert ((r2, 30) ∈ [(a, 10); (b, 50); (c, 30)]) as H2
    by (rewrite <- Hperm; apply list_elem_of_further, list_elem_of_here).
  assert ((r3, 10) ∈ [(a, 10); (b, 50); (c, 30)]) as H3
    by (rewrite <- Hperm; do 2 apply list_elem_of_further; apply list_elem_of_here).
  repeat match goal with
         | H : _ ∈ _ :: _ |- _ => apply elem_of_cons in H as [H|H]
         | H : _ ∈ [] |- _ => by apply elem_of_nil in H
         end; by simplify_eq.
Qed.

(** C3: the idle-peer query of a kind between two versions returns the
    registered sessions whose version lies between the two and whose flag of
    the kind is down, each once, and with them the number of registered
    sessions whose version lies between the two, whatever their flags; the
    four queries of the source ask between versions 63 and 65. *)
Theorem idlePeers_eligible_and_idle sort_Sort k o minProtocol maxProtocol ps w :
  sort_contract sort_Sort →
  reachable (ps, w) →
  ∃ res total,
    idlePeers sort_Sort o minProtocol maxProtocol (idleCheckOf k) (throughputOf k) ps w
      = Return (res, total) ∧
    NoDup res ∧
    (∀ p, p ∈ res ↔
          ∃ i c, peers ps !! i = Some p ∧ conns w !! p = Some c ∧
                 (minProtocol ≤ version c)%N ∧ (version c ≤ maxProtocol)%N ∧
                 flag k c = false) ∧
    total = Z.of_nat (length (filter (λ ip, versionIn minProtocol maxProtocol w ip.2 = true)
                                     (map_to_list (peers ps)))) ∧
    IdlePeers sort_Sort k o ps w =
      idlePeers sort_Sort o 63 65 (idleCheckOf k) (throughputOf k) ps w.
Proof.
  intros Hsort Hreach.
  destruct (idlePeers_returns sort_Sort k o minProtocol maxProtocol ps w Hsort Hreach)
    as (res & Hres & Hperm & _).
  apply reachable_state_ok in Hreach.
  pose proof (registered_NoDup _ _ Hreach) as Hnodup.
  destruct Hreach as (_ & Hpeers & _). cbn [fst snd] in *.
  eexists _, _. split_and!; [exact Hres| | | |apply IdlePeers_unfold].
  - rewrite Hperm. do 2 apply NoDup_filter. by rewrite range_peers_perm.
  - intros p. rewrite Hperm, !list_elem_of_filter, range_peers_perm.
    rewrite list_elem_of_fmap. unfold idleFor, versionIn. split.
    + intros (Hidle & Hver & [i q] & -> & Hin). simpl in *.
      apply elem_of_map_to_list in Hin.
      destruct (Hpeers i q Hin) as (c & Hc & _). rewrite Hc in Hidle, Hver.
      apply andb_true_iff in Hver as [Hlo Hhi].
      apply N.leb_le in Hlo, Hhi. apply negb_true_iff in Hidle.
      by exists i, c.
    + intros (i & c & Hin & Hc & Hlo & Hhi & Hidle). rewrite Hc, Hidle.
      split_and!; [done| |].
      * apply andb_true_iff. split; by apply N.leb_le.
      * exists (i, p). split; [done|]. by apply elem_of_map_to_list.
  - rewrite filter_snd, length_fmap. f_equal.
    apply Permutation_length. by rewrite range_peers_perm.
Qed.

(** C4, amended: the list the idle-peer query returns is in descending order
    of the throughput the query took of each peer (throughputs 10, 50 and 30
    come back in the order 50, 30, 10); Less compares the throughputs and
    nothing else, and in what order peers of equal throughput come back is
    left to sort.Sort, which promises none. *)
Theorem idlePeers_descending_capacity sort_Sort k o minProtocol maxProtocol ps w :
  sort_contract sort_Sort →
  reachable (ps, w) →
  ∃ res total,
    idlePeers sort_Sort o minProtocol maxProtocol (idleCheckOf k) (throughputOf k) ps w
      = Return (res, total) ∧
    StronglySorted (λ a b, capOf k w b ≤ capOf k w a) res ∧
    (∀ p, p ∈ res → throughputOf k w p = Return (capOf k w p)) ∧
    (∀ a b c, sort_p (sort_Sort (mkPeerCapacitySort [a; b; c] [10; 50; 30])) = [b; c; a]) ∧
    (∀ d i j x y, index (sort_tp d) i = Some x → index (sort_tp d) j = Some y →
                  peerCapacitySort_Less d i j = bool_decide (y < x)).
Proof.
  intros Hsort Hreach.
  destruct (idlePeers_returns sort_Sort k o minProtocol maxProtocol ps w Hsort Hreach)
    as (res & Hres & Hperm & Hsorted).
  apply reachable_state_ok in Hreach. destruct Hreach as (Hconns & Hpeers & _).
  cbn [fst snd] in *.
  eexists _, _. split_and!; [exact Hres|done| | |].
  - intros p. rewrite Hperm, !list_elem_of_filter, range_peers_perm, list_elem_of_fmap.
    intros (_ & _ & [i q] & -> & Hin). simpl.
    apply elem_of_map_to_list in Hin.
    destruct (Hpeers i q Hin) as (c & Hc & _ & [t Ht]).
    destruct (Hconns q c Hc) as (_ & _ & Hrates). destruct (Hrates t Ht) as [r Hr].
    by eapply throughputOf_capOf.
  - intros a b c. by apply sort_contract_three.
  - intros d i j x y Hx Hy. unfold peerCapacitySort_Less. rewrite Hx, Hy.
    destruct (Z.ltb_spec y x); [by rewrite bool_decide_eq_true_2|].
    rewrite bool_decide_eq_false_2; [done|lia].
Qed.

(** The throughput ReceiptIdlePeers sorts by is that of state data, whereas
    ReceiptCapacity and SetReceiptsIdle read and write that of receipts. *)
Lemma ReceiptIdlePeers_unfold sort_Sort o ps w :
  ReceiptIdlePeers sort_Sort o ps w =
    idlePeers sort_Sort o 63 65 (idleCheckOf Receipts)
              (rates_Capacity NodeDataMsg time_Second) ps w.
Proof. reflexivity. Qed.


End Properties.

(** * Closed instances *)

Lemma StronglySorted_lookup {A} (R : A → A → Prop) (l : list A) (i j : nat) x y :
  StronglySorted R l → (i < j)%nat → l !! i = Some x → l !! j = Some y → R x y.
Proof.
  intros Hs. revert i j. induction Hs as [|z l Hs IH Hall]; intros i j Hij Hx Hy.
  - by rewrite lookup_nil in Hx.
  - destruct j as [|j]; [lia|]. destruct i as [|i]; simpl in *.
    + injection Hx as ->. rewrite Forall_forall in Hall.
      apply Hall. by eapply list_elem_of_lookup_2.
    + apply (IH i j); [lia|done..].
Qed.

(** The merge sort keeps the contract of sort.Sort. *)
Lemma mergeSort_contract : sort_contract mergeSort.
Proof.
  intros d Hlen. unfold mergeSort. cbn [sort_p sort_tp].
  set (l := merge_sort byThroughput (zip (sort_p d) (sort_tp d))).
  split_and!.
  - rewrite zip_fst_snd. apply merge_sort_Permutation.
  - by rewrite !length_fmap.
  - assert (Transitive byThroughput) by (intros x y z; unfold byThroughput; lia).
    assert (Total byThroughput) by (intros x y; unfold byThroughput; lia).
    pose proof (StronglySorted_merge_sort byThroughput (zip (sort_p d) (sort_tp d)))
      as Hs. fold l in Hs.
    intros i j Hi Hij Hj. unfold peerCapacitySort_Less, peerCapacitySort_Len in *.
    cbn [sort_p sort_tp] in *. rewrite length_fmap in Hj.
    rewrite <- (Z2Nat.id i), <- (Z2Nat.id j), !index_nat by lia.
    rewrite !list_lookup_fmap.
    destruct (lookup_lt_is_Some_2 l (Z.to_nat j)) as [y Hy]; [lia|].
    destruct (lookup_lt_is_Some_2 l (Z.to_nat i)) as [x Hx]; [lia|].
    rewrite Hx, Hy. simpl. apply Z.ltb_ge.
    apply (StronglySorted_lookup byThroughput l (Z.to_nat i) (Z.to_nat j));
      [done|lia|done..].
Qed.

Lemma zip_reverse {A B} (l : list A) (k : list B) :
  length l = length k → zip (reverse l) (reverse k) = reverse (zip l k).
Proof.
  revert k. induction l as [|x l IH]; intros [|y k] Hlen; simpl in *; try done.
  rewrite !reverse_cons, zip_with_app by (rewrite !length_reverse; lia).
  rewrite IH by lia. done.
Qed.

(** The contract of sort.Sort leaves the order of peers of equal throughput
    open: a sort within the contract may return two such peers either way
    round. *)
Lemma sort_contract_leaves_ties_open :
  sort_contract mergeSort ∧ sort_contract reversingSort ∧
  sort_p (mergeSort (mkPeerCapacitySort [1; 2]%positive [10; 10])) = [1; 2]%positive ∧
  sort_p (reversingSort (mkPeerCapacitySort [1; 2]%positive [10; 10])) = [2; 1]%positive.
Proof.
  split_and!; [apply mergeSort_contract| |reflexivity..].
  intros d Hlen. unfold reversingSort.
  destruct (mergeSort_contract
              (mkPeerCapacitySort (reverse (sort_p d)) (reverse (sort_tp d))))
    as (Hperm & Hlen' & Hsorted).
  { simpl. by rewrite !length_reverse. }
  split_and!; [|done..].
  rewrite Hperm. simpl. rewrite zip_reverse by done. apply reverse_Permutation.
Qed.

Section Closed.
#[local] Existing Instance nanoClock.
#[local] Existing Instance lastRateTracker.
#[local] Existing Instance hashChain.

(** The idle-peer queries on sessions of versions 61, 63 and 65: the session
    of version 61 is not returned, and two sessions are eligible. *)
Example HeaderIdlePeers_versions_61_63_65 :
  let s := finalState threeVersions in
  reachable (s.1, s.2) ∧
  HeaderIdlePeers goSort enumOrder s.1 s.2 = Return ([3; 2]%positive, 2) ∧
  idlePeers goSort enumOrder 63 65 (idleCheckOf Headers) (throughputOf Headers) s.1 s.2
    = Return ([3; 2]%positive, 2).
Proof.
  split_and!.
  - apply (reachable_finalState threeVersions
             [Registered "a" 1; Registered "b" 2; Registered "c" 3]).
    vm_compute. reflexivity.
  - vm_compute. reflexivity.
  - vm_compute. reflexivity.
Qed.

(** Witness of C1: session A, with its header fetch outstanding, is asked
    for headers again. *)
Lemma Fetch_while_busy_witness :
  let s := finalState fetchingHeaders in
  reachable (s.1, s.2) ∧
  (∃ c, conns s.2 !! 1%positive = Some c ∧ flag Headers c = true) ∧
  Fetch 9 1 (headersArgs 100 100) s.2 = Return (Some errAlreadyFetching, s.2).
Proof.
  assert (reachable ((finalState fetchingHeaders).1, (finalState fetchingHeaders).2))
    as Hreach.
  { apply (reachable_finalState fetchingHeaders [Registered "A" 1]).
    vm_compute. reflexivity. }
  split_and!.
  - exact Hreach.
  - eexists. split; [vm_compute; reflexivity|reflexivity].
  - eapply (Fetch_while_busy (clock := nanoClock) 9 1 (headersArgs 100 100)
                             (finalState fetchingHeaders).1).
    + exact Hreach.
    + vm_compute. reflexivity.
    + reflexivity.
Defined.

(** Witness of C9: a header fetch on a session of version 61 panics. *)
Lemma Fetch_panics_below_minVersion_witness :
  let w := (finalState oldPeer).2 in
  (∃ c, conns w !! 1%positive = Some c ∧ version c = 61%N) ∧
  Fetch 0 1 (headersArgs 0 1) w = Panic (panicProtocol "header fetch" 62 61).
Proof.
  split.
  - eexists. split; [vm_compute; reflexivity|reflexivity].
  - edestruct (Fetch_panics_below_minVersion (clock := nanoClock) 0 1 (headersArgs 0 1)
                 (finalState oldPeer).2) as (_ & Hpanic & _).
    + vm_compute. reflexivity.
    + apply Hpanic. vm_compute. reflexivity.
Defined.

(** Witness of C8: session A, registered at version 64, fetches headers, is
    refused a second fetch, is set idle after 100 headers and fetches again;
    the tracker is handed the second that passed since the first fetch. *)
Lemma SetIdle_measures_then_frees_witness :
  let w := (finalState registeredPeer).2 in
  ∃ w1 w2 w3,
    Fetch 0 1 (headersArgs 0 100) w = Return (None, w1) ∧
    Fetch 1 1 (headersArgs 0 100) w1 = Return (Some errAlreadyFetching, w1) ∧
    SetIdle Headers 1 100 time_Second w1 = Return w2 ∧
    trks w2 !! 1%positive =
      Some (Tracker_Update (mkLastRate 10 10 10 10) BlockHeadersMsg
                           (time_Sub time_Second 0) 100) ∧
    Fetch 2 1 (headersArgs 100 100) w2 = Return (None, w3).
Proof.
  edestruct (SetIdle_measures_then_frees (clock := nanoClock) Headers 1 100 time_Second
               (finalState registeredPeer).2) as (_ & _ & Hsequence).
  - vm_compute. reflexivity.
  - reflexivity.
  - vm_compute. reflexivity.
  - apply (Hsequence 0 1 2 (headersArgs 0 100) (headersArgs 0 100) (headersArgs 100 100));
      [reflexivity..|vm_compute; discriminate].
Defined.

(** Witness of C7: session A, with a header fetch outstanding and a hash it
    lacks, is cleared by Reset and by Reset of the registry. *)
Lemma Reset_clears_flags_and_lacking_witness :
  let s := finalState fetchingAndLacking in
  reachable (s.1, s.2) ∧
  Lacks 1 77 s.2 = Return true ∧
  (∃ w', peerConnection_Reset 1 s.2 = Return w' ∧ cleared 1 w') ∧
  (∃ w', peerSet_Reset enumOrder s.1 s.2 = Return w' ∧ cleared 1 w').
Proof.
  assert (reachable ((finalState fetchingAndLacking).1,
                     (finalState fetchingAndLacking).2)) as Hreach.
  { apply (reachable_finalState fetchingAndLacking [Registered "A" 1]).
    vm_compute. reflexivity. }
  destruct (Reset_clears_flags_and_lacking enumOrder
              (finalState fetchingAndLacking).1 (finalState fetchingAndLacking).2 Hreach)
    as (Hsession & w' & Hregistry & Hcleared).
  split_and!.
  - exact Hreach.
  - vm_compute. reflexivity.
  - eapply Hsession. vm_compute. reflexivity.
  - exists w'. split; [exact Hregistry|]. apply (Hcleared "A"). vm_compute. reflexivity.
Defined.

(** Marking the hashes 0 to [n - 1] on a new session leads to [marked n],
    as long as the bound of the lacking set is not passed. *)
Lemma run_marking n :
  (n ≤ 4096)%nat → run (marking n) initial = Return ((newPeerSet, marked n), []).
Proof.
  induction n as [|n IH]; intros Hn.
  - reflexivity.
  - unfold marking. rewrite seq_S, map_app, app_comm_cons, run_app.
    fold (marking n). rewrite IH by lia.
    unfold marked. rewrite seq_S, fmap_app, list_to_set_app_L.
    assert (NoDup (N.of_nat <$> seq 0 n)) as Hnodup
      by apply (NoDup_fmap_2 _), NoDup_seq.
    simpl. erewrite MarkLacking_unfold by apply lookup_singleton_eq.
    cbn [lacking set_lacking].
    rewrite dropLacking_below.
    2:{ rewrite size_list_to_set, length_fmap, length_seq by done.
        unfold maxLackingHashes. lia. }
    unfold set_conn, set_lacking. simpl. rewrite insert_singleton_eq.
    do 6 f_equal. set_solver.
Qed.

(** Witness of C5: a session that lacks the 4096 hashes 0 to 4095 is told of
    hash 5000. *)
Lemma MarkLacking_bounded_witness :
  reachable (newPeerSet, marked 4096) ∧
  ∃ c c',
    conns (marked 4096) !! 1%positive = Some c ∧
    Z.of_nat (size (lacking c)) = 4096 ∧
    (5000%N ∉ lacking c) ∧
    MarkLacking enumOrder 1 5000 (marked 4096) = Return (set_conn 1 c' (marked 4096)) ∧
    Lacks 1 5000 (set_conn 1 c' (marked 4096)) = Return true ∧
    Z.of_nat (size (lacking c')) = 4096 ∧
    ∃ drop, drop ∈ lacking c ∧ lacking c' = {[5000%N]} ∪ (lacking c ∖ {[drop]}).
Proof.
  split.
  { exists (marking 4096), []. by apply run_marking. }
  edestruct (MarkLacking_bounded (clock := nanoClock) enumOrder 1 5000 (marked 4096))
    as (_ & c' & Hmark & _ & Hlacks & Hfull).
  { reflexivity. }
  assert (Z.of_nat (size (list_to_set (N.of_nat <$> seq 0 4096) : gset N)) = 4096)
    as Hsize.
  { rewrite size_list_to_set by apply (NoDup_fmap_2 _), NoDup_seq.
    rewrite length_fmap, length_seq. reflexivity. }
  assert (5000%N ∉ (list_to_set (N.of_nat <$> seq 0 4096) : gset N)) as Hnew.
  { rewrite elem_of_list_to_set, list_elem_of_fmap. intros (n & Hn & Hin).
    apply list_elem_of_In, in_seq in Hin. lia. }
  destruct (Hfull Hsize Hnew) as (Hsize' & drop & Hdrop & Hset).
  eexists _, c'. split_and!; [reflexivity|exact Hsize|exact Hnew|exact Hmark|
                              exact Hlacks|exact Hsize'|].
  exists drop. split; [exact Hdrop|exact Hset].
Defined.

(** Witness of C6: a second session of id A is refused while the first is
    registered, and nothing changes. *)
Lemma Register_Unregister_witness :
  let s := finalState sameId in
  reachable (s.1, s.2) ∧
  Register 2 s.1 s.2 = Return (Some errAlreadyRegistered, s.1, s.2) ∧
  Unregister "B" s.1 = (Some errNotRegistered, s.1).
Proof.
  assert (reachable ((finalState sameId).1, (finalState sameId).2)) as Hreach.
  { apply (reachable_finalState sameId [Registered "A" 1]).
    vm_compute. reflexivity. }
  eassert (conns (finalState sameId).2 !! 2%positive = Some _) as Hc
    by (vm_compute; reflexivity).
  destruct (Register_Unregister (clock := nanoClock)
              (finalState sameId).1 (finalState sameId).2 2 _ "B" Hreach Hc)
    as (Hregister & _ & Hunregister & _).
  split_and!.
  - exact Hreach.
  - apply Hregister. split_and!; [|reflexivity..]. vm_compute. by eexists.
  - apply Hunregister. split_and!; [|reflexivity..]. vm_compute. reflexivity.
Defined.

(** Witness of C10: id a was registered, removed and registered again for
    session 2; id b never was. *)
Lemma Peer_is_last_registration_witness :
  let s := finalState registeredAgain in
  Peer "a" s.1 = Some 2%positive ∧ Peer "b" s.1 = None.
Proof.
  assert (run registeredAgain initial =
            Return (((finalState registeredAgain).1, (finalState registeredAgain).2),
                    [Registered "a" 1; Unregistered "a"; Registered "a" 2])) as Hrun
    by (apply run_finalState; vm_compute; reflexivity).
  split.
  - destruct (Peer_is_last_registration (clock := nanoClock) "a" _ _ _ _ Hrun)
      as (-> & _). reflexivity.
  - destruct (Peer_is_last_registration (clock := nanoClock) "b" _ _ _ _ Hrun)
      as (-> & _). reflexivity.
Defined.

(** Witness of C3: the query for headers on sessions of versions 61, 63
    and 65. *)
Lemma idlePeers_eligible_and_idle_witness :
  let s := finalState threeVersions in
  sort_contract mergeSort ∧
  reachable (s.1, s.2) ∧
  ∃ res,
    idlePeers mergeSort enumOrder 63 65 (idleCheckOf Headers) (throughputOf Headers)
              s.1 s.2 = Return (res, 2) ∧
    NoDup res ∧
    (1%positive ∉ res) ∧ (2%positive ∈ res) ∧ (3%positive ∈ res).
Proof.
  assert (reachable ((finalState threeVersions).1, (finalState threeVersions).2))
    as Hreach.
  { apply (reachable_finalState threeVersions
             [Registered "a" 1; Registered "b" 2; Registered "c" 3]).
    vm_compute. reflexivity. }
  destruct (idlePeers_eligible_and_idle (clock := nanoClock) mergeSort Headers enumOrder
              63 65 (finalState threeVersions).1 (finalState threeVersions).2
              mergeSort_contract Hreach)
    as (res & total & Hres & Hnodup & Hin & Htotal & _).
  split_and!; [exact mergeSort_contract|exact Hreach|].
  exists res. split_and!.
  - rewrite Hres, Htotal. vm_compute. reflexivity.
  - exact Hnodup.
  - rewrite Hin. intros (i & c & Hi & Hc & Hlo & _).
    vm_compute in Hc. injection Hc as <-. vm_compute in Hlo. by apply Hlo.
  - apply Hin. exists "b". eexists.
    split_and!; [vm_compute; reflexivity|vm_compute; reflexivity| | |reflexivity];
      vm_compute; discriminate.
  - apply Hin. exists "c". eexists.
    split_and!; [vm_compute; reflexivity|vm_compute; reflexivity| | |reflexivity];
      vm_compute; discriminate.
Defined.

(** Witness of C4 as amended: the sessions the query for headers returns on
    the thirteen peers come in descending order of their throughput. *)
Lemma idlePeers_descending_capacity_witness :
  let s := finalState thirteenPeers in
  sort_contract mergeSort ∧
  reachable (s.1, s.2) ∧
  ∃ res total,
    idlePeers mergeSort enumOrder 63 65 (idleCheckOf Headers) (throughputOf Headers)
              s.1 s.2 = Return (res, total) ∧
    StronglySorted (λ a b, capOf Headers s.2 b ≤ capOf Headers s.2 a) res.
Proof.
  assert (reachable ((finalState thirteenPeers).1, (finalState thirteenPeers).2))
    as Hreach.
  { apply (reachable_finalState thirteenPeers
             (imap (λ i name, Registered name (Pos.of_nat (1 + i)))
                ["p01"; "p02"; "p03"; "p04"; "p05"; "p06"; "p07";
                 "p08"; "p09"; "p10"; "p11"; "p12"; "p13"])).
    vm_compute. reflexivity. }
  destruct (idlePeers_descending_capacity (clock := nanoClock) mergeSort Headers enumOrder
              63 65 (finalState thirteenPeers).1 (finalState thirteenPeers).2
              mergeSort_contract Hreach)
    as (res & total & Hres & Hsorted & _).
  split_and!; [exact mergeSort_contract|exact Hreach|].
  exists res, total. split; [exact Hres|exact Hsorted].
Defined.

(** Counterexample to C4 as stated: thirteen idle peers, of which the last
    of the traversal has throughput 50 and the others 10.  sort.Sort moves
    the pivot of its first partition to the front, and peers of throughput
    10 come back in another order than the traversal found them in: session
    13 was found before session 5 and is returned after it. *)
Lemma idlePeers_reorders_equal_capacity :
  let s := finalState thirteenPeers in
  reachable (s.1, s.2) ∧
  AllPeers enumOrder s.1 = [13; 11; 12; 10; 7; 3; 5; 9; 1; 6; 2; 4; 8]%positive ∧
  capOf Headers s.2 <$> AllPeers enumOrder s.1
    = [10; 10; 10; 10; 10; 10; 10; 10; 10; 10; 10; 10; 50] ∧
  HeaderIdlePeers goSort enumOrder s.1 s.2
    = Return ([8; 5; 12; 10; 7; 3; 13; 9; 1; 6; 2; 4; 11]%positive, 13) ∧
  ¬ ∀ res total,
      HeaderIdlePeers goSort enumOrder s.1 s.2 = Return (res, total) →
      ties_keep_order (capOf Headers s.2) (AllPeers enumOrder s.1) res.
Proof.
  assert (HeaderIdlePeers goSort enumOrder
            (finalState thirteenPeers).1 (finalState thirteenPeers).2
          = Return ([8; 5; 12; 10; 7; 3; 13; 9; 1; 6; 2; 4; 11]%positive, 13)) as Hres
    by (vm_compute; reflexivity).
  assert (AllPeers enumOrder (finalState thirteenPeers).1
          = [13; 11; 12; 10; 7; 3; 5; 9; 1; 6; 2; 4; 8]%positive) as Hall
    by (vm_compute; reflexivity).
  split_and!.
  - apply (reachable_finalState thirteenPeers
             (imap (λ i name, Registered name (Pos.of_nat (1 + i)))
                ["p01"; "p02"; "p03"; "p04"; "p05"; "p06"; "p07";
                 "p08"; "p09"; "p10"; "p11"; "p12"; "p13"])).
    vm_compute. reflexivity.
  - exact Hall.
  - vm_compute. reflexivity.
  - exact Hres.
  - intros Hkeep. specialize (Hkeep _ _ Hres 13%positive 5%positive).
    rewrite Hall in Hkeep.
    assert (before 13%positive 5%positive
              [8; 5; 12; 10; 7; 3; 13; 9; 1; 6; 2; 4; 11]%positive)
      as (i & j & Hi & Hj & Hij).
    { apply Hkeep.
      - vm_compute. reflexivity.
      - exists 0%nat, 6%nat. split_and!; [reflexivity..|lia]. }
    assert (i = 6%nat) as ->.
    { do 13 (destruct i as [|i]; [first [discriminate Hi|reflexivity]|]).
      discriminate Hi. }
    assert (j = 1%nat) as ->.
    { do 13 (destruct j as [|j]; [first [discriminate Hj|reflexivity]|]).
      discriminate Hj. }
    lia.
Qed.

(** C2 on sessions A (10 receipts and 50 state entries a second) and B (30
    receipts and 20 state entries a second), both idle: ReceiptIdlePeers
    returns A before B, the order of their state throughputs and the reverse
    of the order of their receipt throughputs. *)
Lemma ReceiptIdlePeers_ranks_by_state_throughput :
  let s := finalState receiptsAndState in
  reachable (s.1, s.2) ∧
  rates_Capacity ReceiptsMsg time_Second s.2 1 = Return 10 ∧
  rates_Capacity ReceiptsMsg time_Second s.2 2 = Return 30 ∧
  rates_Capacity NodeDataMsg time_Second s.2 1 = Return 50 ∧
  rates_Capacity NodeDataMsg time_Second s.2 2 = Return 20 ∧
  ReceiptIdlePeers goSort enumOrder s.1 s.2 = Return ([1; 2]%positive, 2) ∧
  NodeDataIdlePeers goSort enumOrder s.1 s.2 = Return ([1; 2]%positive, 2).
Proof.
  split_and!; [|vm_compute; reflexivity..].
  apply (reachable_finalState receiptsAndState [Registered "A" 1; Registered "B" 2]).
  vm_compute. reflexivity.
Qed.

End Closed.
(** * More of the peer bookkeeping *)

Section MoreProperties.
Context {clock : Clock} {msgrate : Msgrate} {chain : Chain} {limits : Limits}.

Ltac unmonad := unfold mbind, outcome_bind, mret, outcome_ret in *.
Ltac wsimpl := unfold set_conn, set_trk, go in *; simpl in *.

Lemma reachable_exec c s s' : reachable s → exec c s = Return s' → reachable s'.
Proof.
  intros (cs & evs & Hr) He. exists (cs ++ [c]), (evs ++ (eventsOf c s ++ [])).
  rewrite run_app, Hr. unmonad. simpl. rewrite He. by unmonad.
Qed.

Lemma reachable_Fetch now p a ps w r w' :
  reachable (ps, w) → Fetch now p a w = Return (r, w') → reachable (ps, w').
Proof.
  intros Hreach Hf. apply (reachable_exec (call_Fetch now p a) (ps, w)); [done|].
  simpl. by rewrite Hf.
Qed.

Lemma reachable_SetIdle k p delivered deliveryTime ps w w' :
  reachable (ps, w) → SetIdle k p delivered deliveryTime w = Return w' →
  reachable (ps, w').
Proof.
  intros Hreach Hs.
  apply (reachable_exec (call_SetIdle k p delivered deliveryTime) (ps, w)); [done|].
  simpl. by rewrite Hs.
Qed.

Lemma registered_tracked ps w i p :
  reachable (ps, w) → peers ps !! i = Some p →
  ∃ c t r, conns w !! p = Some c ∧ id c = i ∧ rates c = Some t ∧ trks w !! t = Some r.
Proof.
  intros Hreach Hp. apply reachable_state_ok in Hreach.
  destruct Hreach as (Hconns & Hpeers & _). cbn [fst snd] in *.
  destruct (Hpeers i p Hp) as (c & Hc & Hid & [t Ht]).
  destruct (Hconns p c Hc) as (_ & _ & Hrates). destruct (Hrates t Ht) as [r Hr].
  by exists c, t, r.
Qed.

Lemma flag_set_flag_other k k' b c : k' ≠ k → flag k' (set_flag k b c) = flag k' c.
Proof. intros Hk. rewrite flag_set_flag. by rewrite decide_False. Qed.

Lemma started_set_started_other k k' t c :
  k' ≠ k → started k' (set_started k t c) = started k' c.
Proof. intros Hk. rewrite started_set_started. by rewrite decide_False. Qed.

(** ** Fetching *)

(** X12: a Fetch on a session whose version allows it and whose flag of the
    kind is down returns nil, raises the flag of the kind and sets the start
    time of the kind to the present; it starts one request to the remote
    peer of the session (headers upwards from the number, without gaps; the
    hashes of the headers of the request, in their order; the hashes
    given).  The flags and start times of the other kinds, the lacking set,
    the tracker, the other sessions and the requests started before are what
    they were. *)
Theorem Fetch_starts_one_request now p a w c :
  conns w !! p = Some c →
  (minVersion (kindOf a) ≤ version c)%N →
  flag (kindOf a) c = false →
  ∃ c',
    Fetch now p a w =
      Return (None, mkWorld (<[p := c']> (conns w)) (trks w)
                            (wire w ++ [(peer c, requestOf a)])) ∧
    flag (kindOf a) c' = true ∧ started (kindOf a) c' = now ∧
    (∀ k, k ≠ kindOf a → flag k c' = flag k c ∧ started k c' = started k c) ∧
    id c' = id c ∧ version c' = version c ∧ peer c' = peer c ∧
    rates c' = rates c ∧ lacking c' = lacking c.
Proof.
  intros Hc Hv Hidle.
  exists (set_started (kindOf a) now (set_flag (kindOf a) true c)).
  rewrite (Fetch_unfold _ _ _ _ _ Hc), Hidle. apply N.ltb_ge in Hv as ->.
  split_and!; [done| | | |by destruct (kindOf a)..].
  - rewrite flag_set_started, flag_set_flag. by rewrite decide_True.
  - rewrite started_set_started. by rewrite decide_True.
  - intros k Hk. split.
    + by rewrite flag_set_started, flag_set_flag_other.
    + by rewrite started_set_started_other, started_set_flag.
Qed.

(** X13: the four kinds do not hold each other up.  While a fetch of one
    kind is outstanding on a session, a fetch of another kind succeeds
    there, and setting the session idle for that other kind leaves the first
    fetch outstanding: a further fetch of the first kind is still refused
    with errAlreadyFetching. *)
Theorem kinds_do_not_hold_each_other_up now1 now2 now3 p a1 a2 a3 delivered deliveryTime
    w c t r w1 :
  conns w !! p = Some c → rates c = Some t → trks w !! t = Some r →
  Fetch now1 p a1 w = Return (None, w1) →
  kindOf a2 ≠ kindOf a1 → (minVersion (kindOf a2) ≤ version c)%N →
  flag (kindOf a2) c = false →
  kindOf a3 = kindOf a1 →
  ∃ w2 w3 c3,
    Fetch now2 p a2 w1 = Return (None, w2) ∧
    SetIdle (kindOf a2) p delivered deliveryTime w2 = Return w3 ∧
    conns w3 !! p = Some c3 ∧
    flag (kindOf a1) c3 = true ∧ started (kindOf a1) c3 = now1 ∧
    flag (kindOf a2) c3 = false ∧
    Fetch now3 p a3 w3 = Return (Some errAlreadyFetching, w3).
Proof.
  intros Hc Ht Hr Hf1 Hk Hv2 Hidle2 Hk3.
  rewrite (Fetch_unfold _ _ _ _ _ Hc) in Hf1.
  destruct (version c <? minVersion (kindOf a1))%N eqn:Hv1; [done|].
  destruct (flag (kindOf a1) c) eqn:Hidle1; [done|].
  injection Hf1 as <-.
  set (c1 := set_started (kindOf a1) now1 (set_flag (kindOf a1) true c)).
  set (w1 := go (peer c) (requestOf a1) (set_conn p c1 w)).
  assert (conns w1 !! p = Some c1) as Hc1 by (subst w1; wsimpl; apply lookup_insert_eq).
  assert (version c1 = version c) as Hver1 by (subst c1; by destruct (kindOf a1)).
  assert (flag (kindOf a2) c1 = false) as Hidle21.
  { subst c1. by rewrite flag_set_started, flag_set_flag_other. }
  set (c2 := set_started (kindOf a2) now2 (set_flag (kindOf a2) true c1)).
  set (w2 := go (peer c1) (requestOf a2) (set_conn p c2 w1)).
  assert (conns w2 !! p = Some c2) as Hc2 by (subst w2; wsimpl; apply lookup_insert_eq).
  assert (rates c2 = Some t) as Ht2.
  { subst c2 c1. by destruct (kindOf a1), (kindOf a2). }
  assert (trks w2 !! t = Some r) as Hr2 by done.
  set (c3 := set_flag (kindOf a2) false c2).
  assert (flag (kindOf a1) c3 = true) as Hflag3.
  { subst c3 c2 c1.
    rewrite flag_set_flag_other, flag_set_started, flag_set_flag_other by done.
    rewrite flag_set_started, flag_set_flag. by rewrite decide_True. }
  assert (version c3 = version c) as Hver3
    by (subst c3 c2 c1; by destruct (kindOf a1), (kindOf a2)).
  eexists w2, _, c3. split_and!.
  - rewrite (Fetch_unfold _ _ _ _ _ Hc1), Hver1, Hidle21.
    by apply N.ltb_ge in Hv2 as ->.
  - by apply SetIdle_unfold.
  - wsimpl. apply lookup_insert_eq.
  - done.
  - subst c3 c2 c1.
    rewrite started_set_flag, started_set_started_other, started_set_flag by done.
    rewrite started_set_started. by rewrite decide_True.
  - subst c3. rewrite flag_set_flag. by rewrite decide_True.
  - erewrite Fetch_unfold by (wsimpl; apply lookup_insert_eq).
    rewrite Hk3. change (set_flag (kindOf a2) false c2) with c3.
    by rewrite Hver3, Hv1, Hflag3.
Qed.

(** ** The registry and its queries *)

(** X14: AllPeers lists every registered session once, in whatever order the
    map is ranged over, and Len is the length of that list; the sessions an
    idle-peer query returns are among them and are no more than the total it
    returns, which is no more than Len. *)
Theorem AllPeers_and_Len sort_Sort k o ps w :
  sort_contract sort_Sort → reachable (ps, w) →
  NoDup (AllPeers o ps) ∧
  (∀ p, p ∈ AllPeers o ps ↔ ∃ i, Peer i ps = Some p) ∧
  peerSet_Len ps = Z.of_nat (length (AllPeers o ps)) ∧
  ∃ res total,
    IdlePeers sort_Sort k o ps w = Return (res, total) ∧
    (∀ p, p ∈ res → p ∈ AllPeers o ps) ∧
    Z.of_nat (length res) ≤ total ∧ total ≤ peerSet_Len ps.
Proof.
  intros Hsort Hreach.
  destruct (idlePeers_returns sort_Sort k o 63 65 ps w Hsort Hreach)
    as (res & Hres & Hperm & _).
  pose proof (registered_NoDup _ _ (reachable_state_ok _ Hreach)) as Hnodup.
  assert (peerSet_Len ps = Z.of_nat (length (AllPeers o ps))) as Hlen.
  { unfold peerSet_Len, AllPeers. rewrite length_fmap.
    by rewrite (Permutation_length (range_peers_perm o (peers ps))), length_map_to_list. }
  unfold AllPeers in *. split_and!.
  - by rewrite range_peers_perm.
  - intros p. rewrite range_peers_perm, list_elem_of_fmap. unfold Peer. split.
    + intros ([i q] & -> & Hin). exists i. by apply elem_of_map_to_list.
    + intros [i Hi]. exists (i, p). split; [done|]. by apply elem_of_map_to_list.
  - done.
  - exists res, (Z.of_nat (length (filter (λ p, versionIn 63 65 w p = true)
                                         (range_peers o (peers ps)).*2))).
    split_and!.
    + by rewrite IdlePeers_unfold.
    + intros p. rewrite Hperm, !list_elem_of_filter. by intros (_ & _ & Hin).
    + rewrite (Permutation_length Hperm).
      apply inj_le, length_filter.
    + rewrite Hlen. apply inj_le, length_filter.
Qed.

(** X15: the four capacity queries return for a registered session, with
    what the tracker of the session estimates for the message code of the
    kind and the round trip time given, but no more than the limit of the
    kind; they change nothing. *)
Theorem Capacity_within_the_limit ps w i p targetRTT :
  reachable (ps, w) → peers ps !! i = Some p →
  ∃ c t r,
    conns w !! p = Some c ∧ rates c = Some t ∧ trks w !! t = Some r ∧
    HeaderCapacity p targetRTT w
      = Return (Z.min (Tracker_Capacity r BlockHeadersMsg targetRTT) MaxHeaderFetch) ∧
    BlockCapacity p targetRTT w
      = Return (Z.min (Tracker_Capacity r BlockBodiesMsg targetRTT) MaxBlockFetch) ∧
    ReceiptCapacity p targetRTT w
      = Return (Z.min (Tracker_Capacity r ReceiptsMsg targetRTT) MaxReceiptFetch) ∧
    NodeDataCapacity p targetRTT w
      = Return (Z.min (Tracker_Capacity r NodeDataMsg targetRTT) MaxStateFetch).
Proof.
  intros Hreach Hp.
  destruct (registered_tracked ps w i p Hreach Hp) as (c & t & r & Hc & _ & Ht & Hr).
  exists c, t, r. split_and!; [done..| | | |];
    unfold HeaderCapacity, BlockCapacity, ReceiptCapacity, NodeDataCapacity,
      rates_Capacity, tracker_of;
    rewrite (deref_Some _ _ _ Hc); unmonad; rewrite Ht, Hr; f_equal;
    match goal with |- context [?a <? ?b] => destruct (Z.ltb_spec a b) end; lia.
Qed.

Lemma IdlePeers_members sort_Sort k o ps w :
  sort_contract sort_Sort → reachable (ps, w) →
  ∃ res,
    IdlePeers sort_Sort k o ps w =
      Return (res, Z.of_nat (length (filter (λ p, versionIn 63 65 w p = true)
                                            (range_peers o (peers ps)).*2))) ∧
    ∀ p, p ∈ res ↔
         ∃ i c, peers ps !! i = Some p ∧ conns w !! p = Some c ∧
                (63 ≤ version c)%N ∧ (version c ≤ 65)%N ∧ flag k c = false.
Proof.
  intros Hsort Hreach.
  destruct (idlePeers_returns sort_Sort k o 63 65 ps w Hsort Hreach)
    as (res & Hres & Hperm & _).
  apply reachable_state_ok in Hreach. destruct Hreach as (_ & Hpeers & _).
  cbn [fst snd] in *.
  exists res. split; [by rewrite IdlePeers_unfold|].
  intros p. rewrite Hperm, !list_elem_of_filter, range_peers_perm.
  rewrite list_elem_of_fmap. unfold idleFor, versionIn. split.
  - intros (Hidle & Hver & [i q] & -> & Hin). simpl in *.
    apply elem_of_map_to_list in Hin.
    destruct (Hpeers i q Hin) as (c & Hc & _). rewrite Hc in Hidle, Hver.
    apply andb_true_iff in Hver as [Hlo Hhi].
    apply N.leb_le in Hlo, Hhi. apply negb_true_iff in Hidle.
    by exists i, c.
  - intros (i & c & Hin & Hc & Hlo & Hhi & Hidle). rewrite Hc, Hidle.
    split_and!; [done| |].
    + apply andb_true_iff. split; by apply N.leb_le.
    + exists (i, p). split; [done|]. by apply elem_of_map_to_list.
Qed.

Lemma versionIn_set_conn lo hi w p c c' q :
  conns w !! p = Some c → version c' = version c →
  versionIn lo hi (set_conn p c' w) q = versionIn lo hi w q.
Proof.
  intros Hc Hv. unfold versionIn. wsimpl. rewrite lookup_insert.
  case_decide as Hq; [|done]. subst q. by rewrite Hc, Hv.
Qed.

(** X16: a session that is fetched from is left out by the idle-peer query
    of the kind of the fetch until it is set idle for that kind, and by no
    other query.  For a registered session of version 63 to 65 and a Fetch
    that returns nil: before the fetch the query of its kind returns the
    session, after it the query returns the same sessions but this one, the
    queries of the other kinds return the sessions they did, and the totals
    stay; once the session is set idle, the query returns it again. *)
Theorem IdlePeers_leaves_out_the_busy sort_Sort o ps w i p c now a w' :
  sort_contract sort_Sort → reachable (ps, w) →
  peers ps !! i = Some p → conns w !! p = Some c →
  (63 ≤ version c)%N → (version c ≤ 65)%N →
  Fetch now p a w = Return (None, w') →
  ∀ k, ∃ res res' total,
    IdlePeers sort_Sort k o ps w = Return (res, total) ∧
    IdlePeers sort_Sort k o ps w' = Return (res', total) ∧
    (∀ q, q ∈ res' ↔ q ∈ res ∧ ¬ (q = p ∧ k = kindOf a)) ∧
    (k = kindOf a →
       p ∈ res ∧ (p ∉ res') ∧
       ∀ delivered deliveryTime, ∃ w'' res'',
         SetIdle k p delivered deliveryTime w' = Return w'' ∧
         IdlePeers sort_Sort k o ps w'' = Return (res'', total) ∧
         ∀ q, q ∈ res'' ↔ q ∈ res).
Proof.
  intros Hsort Hreach Hp Hc Hlo Hhi Hf k.
  pose proof (reachable_Fetch _ _ _ _ _ _ _ Hreach Hf) as Hreach'.
  destruct (registered_tracked ps w i p Hreach Hp) as (c0 & t & r & Hc0 & _ & Ht & Hr).
  rewrite Hc in Hc0. injection Hc0 as <-.
  rewrite (Fetch_unfold _ _ _ _ _ Hc) in Hf.
  destruct (version c <? minVersion (kindOf a))%N eqn:Hv; [done|].
  destruct (flag (kindOf a) c) eqn:Hidle; [done|].
  injection Hf as <-.
  set (c1 := set_started (kindOf a) now (set_flag (kindOf a) true c)) in *.
  set (w1 := go (peer c) (requestOf a) (set_conn p c1 w)) in *.
  assert (version c1 = version c) as Hver1 by (subst c1; by destruct (kindOf a)).
  assert (conns w1 !! p = Some c1) as Hc1 by (subst w1; wsimpl; apply lookup_insert_eq).
  assert (∀ q, q ≠ p → conns w1 !! q = conns w !! q) as Hother.
  { intros q Hq. subst w1. wsimpl. by rewrite lookup_insert_ne. }
  assert (∀ k', flag k' c1 = if decide (k' = kindOf a) then true else flag k' c) as Hflag1.
  { intros k'. subst c1. by rewrite flag_set_started, flag_set_flag. }
  destruct (IdlePeers_members sort_Sort k o ps w Hsort Hreach) as (res & Hres & Hin).
  destruct (IdlePeers_members sort_Sort k o ps w1 Hsort Hreach') as (res' & Hres' & Hin').
  assert (filter (λ q, versionIn 63 65 w1 q = true) (range_peers o (peers ps)).*2
          = filter (λ q, versionIn 63 65 w q = true) (range_peers o (peers ps)).*2) as Htot.
  { apply list_filter_iff. intros q.
    change (versionIn 63 65 w1 q) with (versionIn 63 65 (set_conn p c1 w) q).
    by rewrite (versionIn_set_conn 63 65 w p c c1 q Hc Hver1). }
  rewrite Htot in Hres'.
  eexists res, res', _. split_and!; [exact Hres|exact Hres'| |].
  - intros q. rewrite Hin', Hin. split.
    + intros (j & d & Hj & Hd & Hdlo & Hdhi & Hdidle).
      destruct (decide (q = p)) as [->|Hq].
      * rewrite Hc1 in Hd. injection Hd as <-.
        rewrite Hflag1 in Hdidle. case_decide as Hk; [done|].
        split; [|by intros [_ ?]].
        exists j, c. rewrite <- Hver1. by split_and!.
      * rewrite Hother in Hd by done. split; [|by intros [? _]].
        by exists j, d.
    + intros [(j & d & Hj & Hd & Hdlo & Hdhi & Hdidle) Hnot].
      destruct (decide (q = p)) as [->|Hq].
      * rewrite Hc in Hd. injection Hd as <-.
        exists j, c1. rewrite Hver1, Hflag1.
        rewrite decide_False by (intros ->; by apply Hnot). by split_and!.
      * exists j, d. rewrite Hother by done. by split_and!.
  - intros ->. split_and!.
    + apply Hin. by exists i, c.
    + rewrite Hin'. intros (j & d & _ & Hd & _ & _ & Hdidle).
      rewrite Hc1 in Hd. injection Hd as <-.
      rewrite Hflag1 in Hdidle. by rewrite decide_True in Hdidle.
    + intros delivered deliveryTime.
      assert (rates c1 = Some t) as Ht1 by (subst c1; by destruct (kindOf a)).
      assert (trks w1 !! t = Some r) as Hr1 by done.
      pose proof (SetIdle_unfold (kindOf a) p delivered deliveryTime w1 c1 t r Hc1 Ht1 Hr1)
        as Hset.
      set (c2 := set_flag (kindOf a) false c1) in *.
      set (w2 := set_conn p c2 (set_trk t _ w1)) in *.
      pose proof (reachable_SetIdle _ _ _ _ _ _ _ Hreach' Hset) as Hreach2.
      destruct (IdlePeers_members sort_Sort (kindOf a) o ps w2 Hsort Hreach2)
        as (res2 & Hres2 & Hin2).
      assert (version c2 = version c) as Hver2
        by (subst c2 c1; by destruct (kindOf a)).
      assert (conns w2 !! p = Some c2) as Hc2 by (subst w2; wsimpl; apply lookup_insert_eq).
      assert (∀ q, q ≠ p → conns w2 !! q = conns w !! q) as Hother2.
      { intros q Hq. subst w2 w1. wsimpl. by rewrite !lookup_insert_ne. }
      assert (filter (λ q, versionIn 63 65 w2 q = true) (range_peers o (peers ps)).*2
              = filter (λ q, versionIn 63 65 w q = true) (range_peers o (peers ps)).*2)
        as Htot2.
      { apply list_filter_iff. intros q. unfold versionIn.
        destruct (decide (q = p)) as [->|Hq].
        - by rewrite Hc2, Hc, Hver2.
        - by rewrite Hother2. }
      rewrite Htot2 in Hres2.
      exists w2, res2. split_and!; [done|done|].
      intros q. rewrite Hin2, Hin. split.
      * intros (j & d & Hj & Hd & Hdlo & Hdhi & Hdidle).
        destruct (decide (q = p)) as [->|Hq].
        -- rewrite Hc2 in Hd. injection Hd as <-. exists j, c.
           rewrite <- Hver2. by split_and!.
        -- rewrite Hother2 in Hd by done. by exists j, d.
      * intros (j & d & Hj & Hd & Hdlo & Hdhi & Hdidle).
        destruct (decide (q = p)) as [->|Hq].
        -- rewrite Hc in Hd. injection Hd as <-. exists j, c2.
           rewrite Hver2. split_and!; [done..|].
           subst c2. rewrite flag_set_flag. by rewrite decide_True.
        -- exists j, d. rewrite Hother2 by done. by split_and!.
Qed.

(** ** The lacking set, below its bound and at it *)

Lemma dropLacking_full_head o (s : gset N) :
  Z.of_nat (size s) = maxLackingHashes →
  ∃ drop, head (range_lacking o s) = Some drop ∧ drop ∈ s ∧
          dropLacking o (size s) s = s ∖ {[drop]}.
Proof.
  intros Hsz.
  destruct (size s) as [|fuel] eqn:Hfuel; [unfold maxLackingHashes in Hsz; lia|].
  simpl. rewrite Hfuel. case_decide; [|lia].
  destruct (range_lacking_head o s) as (drop & rest & -> & Hin).
  { intros ->. by rewrite size_empty in Hfuel. }
  exists drop. split_and!; [done..|].
  apply dropLacking_below. rewrite size_drop by done.
  unfold maxLackingHashes in *. lia.
Qed.

(** X17: below 4096 entries MarkLacking adds the hash and forgets nothing.
    At 4096 entries it first drops the entry that ranging over the set
    yields first, also when the set holds the hash already: marking a hash
    again that a full set holds leaves the set with 4095 entries, unless the
    entry dropped is that hash.  Nothing else of the session changes. *)
Theorem MarkLacking_below_and_at_the_bound o p hash w c :
  conns w !! p = Some c →
  Z.of_nat (size (lacking c)) ≤ 4096 →
  ∃ s',
    MarkLacking o p hash w = Return (set_conn p (set_lacking s' c) w) ∧
    (Z.of_nat (size (lacking c)) < 4096 → s' = {[hash]} ∪ lacking c) ∧
    (Z.of_nat (size (lacking c)) = 4096 →
       ∃ drop,
         head (range_lacking o (lacking c)) = Some drop ∧
         s' = {[hash]} ∪ (lacking c ∖ {[drop]}) ∧
         (drop ≠ hash →
            Lacks p drop (set_conn p (set_lacking s' c) w) = Return false ∧
            (hash ∈ lacking c → Z.of_nat (size s') = 4095))).
Proof.
  intros Hc Hsize. eexists. split; [by apply MarkLacking_unfold|]. split.
  - intros Hbelow. by rewrite dropLacking_below.
  - intros Hfull.
    destruct (dropLacking_full_head o (lacking c) Hfull) as (drop & Hhead & Hin & ->).
    exists drop. split_and!; [done..|].
    intros Hne. split.
    + erewrite Lacks_unfold by (wsimpl; apply lookup_insert_eq).
      cbn [lacking set_lacking]. by rewrite bool_decide_eq_false_2 by set_solver.
    + intros Hhash.
      replace ({[hash]} ∪ lacking c ∖ {[drop]}) with (lacking c ∖ {[drop]})
        by set_solver.
      rewrite size_drop by done. lia.
Qed.

(** ** Registering and removing *)

(** X18: a session that is registered and removed again leaves the registry
    and the tracked ids as they were, and is announced on both feeds.  It
    keeps the tracker that Register gave it; registering it once more gives
    it another, new one. *)
Theorem Register_then_Unregister ps w p c :
  reachable (ps, w) → conns w !! p = Some c → peers ps !! id c = None →
  ∃ ps1 w1 ps2 c1 t,
    Register p ps w = Return (None, ps1, w1) ∧
    Peer (id c) ps1 = Some p ∧
    Unregister (id c) ps1 = (None, ps2) ∧
    peers ps2 = peers ps ∧
    trackers (ps_rates ps2) = trackers (ps_rates ps) ∧
    newPeerFeed ps2 = newPeerFeed ps ++ [p] ∧
    peerDropFeed ps2 = peerDropFeed ps ++ [p] ∧
    conns w1 !! p = Some c1 ∧ rates c1 = Some t ∧
    trks w !! t = None ∧ is_Some (trks w1 !! t) ∧
    ∃ ps3 w3 c3 t3,
      Register p ps2 w1 = Return (None, ps3, w3) ∧
      conns w3 !! p = Some c3 ∧ rates c3 = Some t3 ∧ t3 ≠ t.
Proof.
  intros Hreach Hc Hp.
  apply reachable_state_ok in Hreach. destruct Hreach as (_ & _ & Htracked).
  cbn [fst snd] in *.
  pose proof (proj2 (Htracked (id c)) Hp) as Ht.
  set (t := fresh (dom (trks w))).
  set (r := NewTracker (MeanCapacities (tracked (ps_rates ps) w))
                       (MedianRoundTrip (tracked (ps_rates ps) w))).
  set (c1 := set_rates (Some t) c).
  set (w1 := set_conn p c1 (set_trk t r w)).
  set (ps1 := mkPeerSet (<[id c := p]> (peers ps))
                        (mkTrackers (<[id c := t]> (trackers (ps_rates ps))))
                        (newPeerFeed ps ++ [p]) (peerDropFeed ps)).
  set (ps2 := mkPeerSet (peers ps) (mkTrackers (trackers (ps_rates ps)))
                        (newPeerFeed ps ++ [p]) (peerDropFeed ps ++ [p])).
  assert (conns w1 !! p = Some c1) as Hc1 by (subst w1; wsimpl; apply lookup_insert_eq).
  assert (trks w1 !! t = Some r) as Hr1 by (subst w1; wsimpl; apply lookup_insert_eq).
  exists ps1, w1, ps2, c1, t. split_and!.
  - by rewrite (Register_unfold _ _ _ _ Hc), Hp, Ht.
  - unfold Peer. subst ps1. simpl. apply lookup_insert_eq.
  - rewrite Unregister_unfold. subst ps1 ps2. cbn [peers ps_rates trackers newPeerFeed
      peerDropFeed]. rewrite !lookup_insert_eq. by rewrite !delete_insert_id.
  - done.
  - done.
  - done.
  - done.
  - done.
  - done.
  - apply not_elem_of_dom, is_fresh.
  - by eexists.
  - eexists _, _, _, (fresh (dom (trks w1))). split_and!.
    + rewrite (Register_unfold _ _ _ _ Hc1). subst ps2 c1.
      cbn [peers ps_rates trackers id set_rates]. by rewrite Hp, Ht.
    + wsimpl. apply lookup_insert_eq.
    + done.
    + intros Heq. pose proof (is_fresh (dom (trks w1))) as Hfresh.
      rewrite Heq in Hfresh. apply Hfresh, elem_of_dom. by eexists.
Qed.

Lemma feeds_ok_exec c ps w ps' w' :
  feeds_ok ps → exec c (ps, w) = Return (ps', w') → feeds_ok ps'.
Proof.
  intros Hok He. destruct c; simpl in He.
  - by injection He as <- <-.
  - destruct (peerConnection_Reset p w); [|done]. by injection He as <- <-.
  - destruct (Fetch now p a w) as [[? ?]|]; [|done]. by injection He as <- <-.
  - destruct (SetIdle k p delivered deliveryTime w); [|done]. by injection He as <- <-.
  - destruct (MarkLacking o p hash w); [|done]. by injection He as <- <-.
  - destruct (peerSet_Reset o ps w); [|done]. by injection He as <- <-.
  - destruct (conns w !! p) as [c|] eqn:Hc.
    2:{ unfold Register in He. by rewrite (deref_None _ _ Hc) in He. }
    rewrite (Register_unfold _ _ _ _ Hc) in He.
    destruct (peers ps !! id c) as [q|] eqn:Hq; [by injection He as <- <-|].
    simpl in He.
    destruct (trackers (ps_rates ps) !! id c); [by injection He as <- <-|].
    injection He as <- <-. destruct Hok as (Hlen & Hreg & Hdrop).
    unfold feeds_ok. cbn [peers newPeerFeed peerDropFeed]. split_and!.
    + rewrite length_app, map_size_insert_None by done. simpl. lia.
    + intros i q. rewrite lookup_insert. case_decide.
      * intros [= <-]. set_solver.
      * intros Hi. apply elem_of_app. left. by eapply Hreg.
    + intros q Hin. apply elem_of_app. left. by apply Hdrop.
  - injection He as <- <-. rewrite Unregister_unfold.
    destruct (peers ps !! id0) as [q|] eqn:Hq; [|done].
    destruct Hok as (Hlen & Hreg & Hdrop).
    unfold feeds_ok. cbn [snd peers newPeerFeed peerDropFeed]. split_and!.
    + rewrite length_app, map_size_delete_Some by done. simpl.
      assert (size (peers ps) ≠ 0%nat) by (by eapply map_size_ne_0_lookup_2).
      lia.
    + intros i q'. rewrite lookup_delete. case_decide; [done|]. apply Hreg.
    + intros q'. rewrite elem_of_app. intros [Hin|Hin]; [by apply Hdrop|].
      apply list_elem_of_singleton in Hin as ->. by eapply Hreg.
Qed.

Lemma feeds_ok_run cs s s' evs :
  feeds_ok s.1 → run cs s = Return (s', evs) → feeds_ok s'.1.
Proof.
  revert s evs. induction cs as [|c cs IH]; intros s evs Hok Hr; simpl in Hr.
  - by injection Hr as <- <-.
  - destruct (exec c s) as [[ps1 w1]|] eqn:He; [|done]. unmonad.
    destruct (run cs (ps1, w1)) as [[s2 evs2]|] eqn:Hr2; [|done].
    injection Hr as <- <-. eapply (IH (ps1, w1)); [|done].
    destruct s as [ps w]. by eapply feeds_ok_exec.
Qed.

(** X19: whatever the history, the feed of new peers has as many events as
    the feed of dropped peers and the registry have sessions together, and
    every session that is registered or was dropped has been announced on
    the feed of new peers. *)
Theorem feeds_account_for_the_registry ps w :
  reachable (ps, w) →
  Z.of_nat (length (newPeerFeed ps))
    = Z.of_nat (length (peerDropFeed ps)) + peerSet_Len ps ∧
  (∀ i p, Peer i ps = Some p → p ∈ newPeerFeed ps) ∧
  (∀ p, p ∈ peerDropFeed ps → p ∈ newPeerFeed ps).
Proof.
  intros (cs & evs & Hr).
  destruct (feeds_ok_run cs initial (ps, w) evs) as (Hlen & Hreg & Hdrop); [|done|].
  { unfold feeds_ok. simpl. split_and!; [done| |done].
    intros i p. by rewrite lookup_empty. }
  cbn [fst] in *. unfold peerSet_Len, Peer. split_and!; [lia|done..].
Qed.

(** ** The sort interface *)

Lemma index_Some {A} (l : list A) i :
  0 ≤ i < Z.of_nat (length l) → ∃ x, index l i = Some x ∧ l !! Z.to_nat i = Some x.
Proof.
  intros Hi. unfold index. destruct (Z.ltb_spec i 0); [lia|].
  destruct (lookup_lt_is_Some_2 l (Z.to_nat i)) as [x Hx]; [lia|]. by exists x.
Qed.

Lemma Swap_pairs d i j :
  length (sort_p d) = length (sort_tp d) →
  0 ≤ i < peerCapacitySort_Len d → 0 ≤ j < peerCapacitySort_Len d →
  let pairs := zip (sort_p d) (sort_tp d) in
  let d' := peerCapacitySort_Swap d i j in
  ∃ x y, pairs !! Z.to_nat i = Some x ∧ pairs !! Z.to_nat j = Some y ∧
         zip (sort_p d') (sort_tp d') = <[Z.to_nat i := y]> (<[Z.to_nat j := x]> pairs) ∧
         length (sort_p d') = length (sort_p d) ∧
         length (sort_tp d') = length (sort_tp d).
Proof.
  intros Hlen Hi Hj pairs d'. unfold peerCapacitySort_Len in *.
  destruct (index_Some (sort_p d) i Hi) as (pi & Hpi & Hpi').
  destruct (index_Some (sort_p d) j Hj) as (pj & Hpj & Hpj').
  destruct (index_Some (sort_tp d) i ltac:(lia)) as (ti & Hti & Hti').
  destruct (index_Some (sort_tp d) j ltac:(lia)) as (tj & Htj & Htj').
  exists (pi, ti), (pj, tj). subst pairs d'.
  unfold peerCapacitySort_Swap, swap. cbn [sort_p sort_tp].
  rewrite Hpi, Hpj, Hti, Htj. split_and!.
  - by rewrite lookup_zip_with, Hpi', Hti'.
  - by rewrite lookup_zip_with, Hpj', Htj'.
  - by rewrite !insert_zip_with.
  - by rewrite !length_insert.
  - by rewrite !length_insert.
Qed.

(** X21: Swap exchanges the peers and the throughputs at two indices
    together: the peer at either index is afterwards at the other with its
    throughput, and the rest stays where it is.  So whatever Swaps a sort
    performs within the bounds that Len gives, every peer keeps its own
    throughput beside it, and Len stays. *)
Theorem Swap_keeps_each_peer_with_its_throughput d i j swaps :
  length (sort_p d) = length (sort_tp d) →
  0 ≤ i < peerCapacitySort_Len d → 0 ≤ j < peerCapacitySort_Len d →
  Forall (λ ij, 0 ≤ ij.1 < peerCapacitySort_Len d ∧ 0 ≤ ij.2 < peerCapacitySort_Len d)
         swaps →
  let pairs := λ d, zip (sort_p d) (sort_tp d) in
  let d1 := peerCapacitySort_Swap d i j in
  let dn := foldl (λ d ij, peerCapacitySort_Swap d ij.1 ij.2) d swaps in
  (index (pairs d1) i = index (pairs d) j ∧
   index (pairs d1) j = index (pairs d) i ∧
   ∀ k, k ≠ i → k ≠ j → index (pairs d1) k = index (pairs d) k) ∧
  peerCapacitySort_Len dn = peerCapacitySort_Len d ∧
  length (sort_p dn) = length (sort_tp dn) ∧
  pairs dn ≡ₚ pairs d.
Proof.
  intros Hlen Hi Hj Hswaps pairs d1 dn. split.
  - destruct (Swap_pairs d i j Hlen Hi Hj) as (x & y & Hx & Hy & Hzip & _).
    subst pairs d1. cbv beta. rewrite Hzip. unfold index.
    destruct (Z.ltb_spec i 0); [lia|]. destruct (Z.ltb_spec j 0); [lia|].
    assert (Z.to_nat i < length (zip (sort_p d) (sort_tp d)))%nat
      by (by eapply lookup_lt_Some).
    assert (Z.to_nat j < length (zip (sort_p d) (sort_tp d)))%nat
      by (by eapply lookup_lt_Some).
    split_and!.
    + rewrite list_lookup_insert_eq by (by rewrite length_insert). by rewrite Hy.
    + destruct (decide (Z.to_nat i = Z.to_nat j)) as [Heq|Hne].
      * rewrite Heq in *. rewrite list_lookup_insert_eq by (by rewrite length_insert).
        congruence.
      * rewrite list_lookup_insert_ne by done.
        rewrite list_lookup_insert_eq by done. by rewrite Hx.
    + intros k Hki Hkj. destruct (Z.ltb_spec k 0); [done|].
      rewrite !list_lookup_insert_ne by lia. done.
  - subst dn. clear d1 Hi Hj i j. revert d Hlen Hswaps.
    induction swaps as [|[i j] swaps IH]; intros d Hlen Hswaps; [done|].
    apply Forall_cons in Hswaps as [[Hi Hj] Hswaps]. cbn [fst snd] in Hi, Hj.
    destruct (Swap_pairs d i j Hlen Hi Hj) as (x & y & Hx & Hy & Hzip & Hlp & Hlt).
    cbn [foldl fst snd].
    assert (peerCapacitySort_Len (peerCapacitySort_Swap d i j) = peerCapacitySort_Len d)
      as HLen by (unfold peerCapacitySort_Len; by rewrite Hlp).
    destruct (IH (peerCapacitySort_Swap d i j)) as (H1 & H2 & H3).
    { by rewrite Hlp, Hlt. }
    { eapply Forall_impl; [done|]. intros [a b]. by rewrite HLen. }
    split_and!.
    + by rewrite H1.
    + done.
    + subst pairs. cbv beta in *. rewrite H3, Hzip.
      by apply Permutation_insert_swap.
Qed.

End MoreProperties.
(** ** Closed examples of the further properties *)

Section MoreClosed.
#[local] Existing Instance nanoClock.
#[local] Existing Instance lastRateTracker.
#[local] Existing Instance hashChain.
#[local] Existing Instance smallLimits.

Lemma reachable_registeredPeer :
  reachable ((finalState registeredPeer).1, (finalState registeredPeer).2).
Proof.
  apply (reachable_finalState registeredPeer [Registered "A" 1]).
  vm_compute. reflexivity.
Qed.

Lemma reachable_threeVersions :
  reachable ((finalState threeVersions).1, (finalState threeVersions).2).
Proof.
  apply (reachable_finalState threeVersions
           [Registered "a" 1; Registered "b" 2; Registered "c" 3]).
  vm_compute. reflexivity.
Qed.

(** Witness of X12: session A, registered at version 64, is asked for a
    hundred headers from number 0 on at time 5. *)
Lemma Fetch_starts_one_request_witness :
  let w := (finalState registeredPeer).2 in
  ∃ c',
    Fetch 5 1 (headersArgs 0 100) w =
      Return (None, mkWorld (<[1%positive := c']> (conns w)) (trks w)
                            (wire w ++ [(101%positive,
                                         RequestHeadersByNumber 0 100 0 false)])) ∧
    flag Headers c' = true ∧ started Headers c' = 5 ∧
    flag Bodies c' = false ∧ lacking c' = ∅.
Proof.
  eassert (conns (finalState registeredPeer).2 !! 1%positive = Some _) as Hc
    by (vm_compute; reflexivity).
  destruct (Fetch_starts_one_request (clock := nanoClock) 5 1 (headersArgs 0 100) _ _ Hc)
    as (c' & Hfetch & Hflag & Hstart & Hother & _ & _ & _ & _ & Hlacking).
  - vm_compute. discriminate.
  - reflexivity.
  - exists c'. split_and!.
    + exact Hfetch.
    + exact Hflag.
    + exact Hstart.
    + destruct (Hother Bodies) as [-> _]; [discriminate|reflexivity].
    + rewrite Hlacking. reflexivity.
Defined.

(** Witness of X13: headers and bodies are fetched from session A at once;
    the bodies arrive, and the headers are still outstanding. *)
Lemma kinds_do_not_hold_each_other_up_witness :
  let w := (finalState registeredPeer).2 in
  ∃ w1 w2 w3 c3,
    Fetch 0 1 (headersArgs 0 100) w = Return (None, w1) ∧
    Fetch 1 1 (bodiesArgs oneBody) w1 = Return (None, w2) ∧
    SetIdle Bodies 1 1 4 w2 = Return w3 ∧
    conns w3 !! 1%positive = Some c3 ∧
    flag Headers c3 = true ∧ started Headers c3 = 0 ∧ flag Bodies c3 = false ∧
    Fetch 2 1 (headersArgs 100 100) w3 = Return (Some errAlreadyFetching, w3).
Proof.
  eassert (conns (finalState registeredPeer).2 !! 1%positive = Some _) as Hc
    by (vm_compute; reflexivity).
  eassert (Fetch 0 1 (headersArgs 0 100) (finalState registeredPeer).2 = Return (None, _))
    as Hf by (rewrite (Fetch_unfold _ _ _ _ _ Hc); reflexivity).
  eexists.
  edestruct (kinds_do_not_hold_each_other_up (clock := nanoClock) (chain := hashChain)
               0 1 2 1
               (headersArgs 0 100) (bodiesArgs oneBody)
               (headersArgs 100 100) 1 4)
    as (w2 & w3 & c3 & H2 & H3 & H4 & H5 & H6 & H7 & H8).
  - exact Hc.
  - reflexivity.
  - vm_compute. reflexivity.
  - exact Hf.
  - discriminate.
  - vm_compute. discriminate.
  - reflexivity.
  - reflexivity.
  - exists w2, w3, c3. split_and!; [exact Hf|exact H2|exact H3|exact H4|exact H5|exact H6|
                                    exact H7|exact H8].
Defined.

(** Witness of X14: the registry of the sessions of versions 61, 63
    and 65. *)
Lemma AllPeers_and_Len_witness :
  let s := finalState threeVersions in
  NoDup (AllPeers enumOrder s.1) ∧
  (∀ p, p ∈ AllPeers enumOrder s.1 ↔ ∃ i, Peer i s.1 = Some p) ∧
  peerSet_Len s.1 = Z.of_nat (length (AllPeers enumOrder s.1)) ∧
  ∃ res total,
    IdlePeers mergeSort Headers enumOrder s.1 s.2 = Return (res, total) ∧
    (∀ p, p ∈ res → p ∈ AllPeers enumOrder s.1) ∧
    Z.of_nat (length res) ≤ total ∧ total ≤ peerSet_Len s.1.
Proof.
  exact (AllPeers_and_Len (clock := nanoClock) mergeSort Headers enumOrder _ _
           mergeSort_contract reachable_threeVersions).
Defined.

(** Witness of X15: session A has delivered 500 headers in a second and no
    bodies yet; its header capacity is the limit of 192, its block capacity
    the 10 it started with. *)
Lemma Capacity_within_the_limit_witness :
  let s := finalState fastPeer in
  HeaderCapacity 1 time_Second s.2 = Return 192 ∧
  BlockCapacity 1 time_Second s.2 = Return 10.
Proof.
  assert (reachable ((finalState fastPeer).1, (finalState fastPeer).2)) as Hreach.
  { apply (reachable_finalState fastPeer [Registered "A" 1]). vm_compute. reflexivity. }
  destruct (Capacity_within_the_limit (clock := nanoClock) (limits := smallLimits)
              _ _ "A" 1 time_Second Hreach)
    as (c & t & r & Hc & Ht & Hr & Hheader & Hblock & _).
  { vm_compute. reflexivity. }
  vm_compute in Hc. injection Hc as <-.
  simpl in Ht. injection Ht as <-.
  vm_compute in Hr. injection Hr as <-.
  split.
  - rewrite Hheader. vm_compute. reflexivity.
  - rewrite Hblock. vm_compute. reflexivity.
Defined.

(** Witness of X16: headers are fetched from session b, of version 63. *)
Lemma IdlePeers_leaves_out_the_busy_witness :
  let s := finalState threeVersions in
  ∃ w',
    Fetch 0 2 (headersArgs 0 100) s.2 = Return (None, w') ∧
    ∃ res res' total,
      IdlePeers mergeSort Headers enumOrder s.1 s.2 = Return (res, total) ∧
      IdlePeers mergeSort Headers enumOrder s.1 w' = Return (res', total) ∧
      2%positive ∈ res ∧ (2%positive ∉ res') ∧
      (∀ q, q ∈ res' ↔ q ∈ res ∧ ¬ (q = 2%positive ∧ Headers = Headers)).
Proof.
  eassert (conns (finalState threeVersions).2 !! 2%positive = Some _) as Hc
    by (vm_compute; reflexivity).
  eassert (Fetch 0 2 (headersArgs 0 100) (finalState threeVersions).2 = Return (None, _))
    as Hf by (rewrite (Fetch_unfold _ _ _ _ _ Hc); reflexivity).
  eexists. split; [exact Hf|].
  assert (peers (finalState threeVersions).1 !! "b" = Some 2%positive) as Hp
    by (vm_compute; reflexivity).
  match type of Hc with
  | _ = Some ?c =>
      destruct (IdlePeers_leaves_out_the_busy (clock := nanoClock) mergeSort enumOrder
                  _ _ "b" 2 c 0 (headersArgs 0 100) _
                  mergeSort_contract reachable_threeVersions Hp Hc
                  ltac:(vm_compute; discriminate) ltac:(vm_compute; discriminate)
                  Hf Headers)
        as (res & res' & total & Hres & Hres' & Hin & Hk)
  end.
  destruct (Hk eq_refl) as (Hq & Hq' & _).
  exists res, res', total. split_and!; [exact Hres|exact Hres'|exact Hq|exact Hq'|exact Hin].
Defined.

(** Witness of X17: a session that lacks the 4096 hashes 0 to 4095 is told
    of hash 5 again. *)
Lemma MarkLacking_below_and_at_the_bound_witness :
  ∃ c s' drop,
    conns (marked 4096) !! 1%positive = Some c ∧
    Z.of_nat (size (lacking c)) = 4096 ∧ 5%N ∈ lacking c ∧
    MarkLacking enumOrder 1 5 (marked 4096)
      = Return (set_conn 1 (set_lacking s' c) (marked 4096)) ∧
    head (range_lacking enumOrder (lacking c)) = Some drop ∧
    s' = {[5%N]} ∪ (lacking c ∖ {[drop]}) ∧
    (drop ≠ 5%N → Z.of_nat (size s') = 4095).
Proof.
  assert (Z.of_nat (size (list_to_set (N.of_nat <$> seq 0 4096) : gset N)) = 4096)
    as Hsize.
  { rewrite size_list_to_set by apply (NoDup_fmap_2 _), NoDup_seq.
    rewrite length_fmap, length_seq. reflexivity. }
  assert (5%N ∈ (list_to_set (N.of_nat <$> seq 0 4096) : gset N)) as Hold.
  { rewrite elem_of_list_to_set, list_elem_of_fmap. exists 5%nat.
    split; [reflexivity|]. apply list_elem_of_In, in_seq. lia. }
  edestruct (MarkLacking_below_and_at_the_bound (clock := nanoClock) enumOrder 1 5
               (marked 4096)) as (s' & Hmark & _ & Hfull).
  { reflexivity. }
  { cbn [lacking]. rewrite Hsize. lia. }
  destruct (Hfull Hsize) as (drop & Hhead & Hset & Hdrop).
  eexists _, s', drop.
  split_and!; [reflexivity|exact Hsize|exact Hold|exact Hmark|exact Hhead|exact Hset|].
  intros Hne. destruct (Hdrop Hne) as [_ Hless]. exact (Hless Hold).
Defined.

(** Witness of X18: a new session is registered, removed and registered
    again. *)
Lemma Register_then_Unregister_witness :
  let s := finalState oldPeer in
  ∃ ps1 w1 ps2,
    Register 1 s.1 s.2 = Return (None, ps1, w1) ∧
    Peer "old" ps1 = Some 1%positive ∧
    Unregister "old" ps1 = (None, ps2) ∧
    peers ps2 = peers s.1 ∧
    newPeerFeed ps2 = [1%positive] ∧ peerDropFeed ps2 = [1%positive] ∧
    ∃ ps3 w3, Register 1 ps2 w1 = Return (None, ps3, w3).
Proof.
  assert (reachable ((finalState oldPeer).1, (finalState oldPeer).2)) as Hreach.
  { apply (reachable_finalState oldPeer []). vm_compute. reflexivity. }
  eassert (conns (finalState oldPeer).2 !! 1%positive = Some _) as Hc
    by (vm_compute; reflexivity).
  destruct (Register_then_Unregister (clock := nanoClock) _ _ 1 _ Hreach Hc)
    as (ps1 & w1 & ps2 & c1 & t & H1 & H2 & H3 & H4 & _ & H5 & H6 & _ & _ & _ & _ &
        ps3 & w3 & c3 & t3 & H7 & _).
  { vm_compute. reflexivity. }
  exists ps1, w1, ps2.
  split_and!; [exact H1|exact H2|exact H3|exact H4|exact H5|exact H6|].
  exists ps3, w3. exact H7.
Defined.

(** Witness of X19: sessions A and B are registered and A is removed. *)
Lemma feeds_account_for_the_registry_witness :
  let s := finalState oneDropped in
  newPeerFeed s.1 = [1%positive; 2%positive] ∧
  peerDropFeed s.1 = [1%positive] ∧
  peerSet_Len s.1 = 1 ∧
  Z.of_nat (length (newPeerFeed s.1))
    = Z.of_nat (length (peerDropFeed s.1)) + peerSet_Len s.1 ∧
  (∀ i p, Peer i s.1 = Some p → p ∈ newPeerFeed s.1) ∧
  (∀ p, p ∈ peerDropFeed s.1 → p ∈ newPeerFeed s.1).
Proof.
  assert (reachable ((finalState oneDropped).1, (finalState oneDropped).2)) as Hreach.
  { apply (reachable_finalState oneDropped
             [Registered "A" 1; Registered "B" 2; Unregistered "A"]).
    vm_compute. reflexivity. }
  split; [vm_compute; reflexivity|].
  split; [vm_compute; reflexivity|].
  split; [vm_compute; reflexivity|].
  exact (feeds_account_for_the_registry (clock := nanoClock) _ _ Hreach).
Defined.

(** Witness of X21: peers 1, 2 and 3 with throughputs 10, 50 and 30. *)
Lemma Swap_keeps_each_peer_with_its_throughput_witness :
  let d := mkPeerCapacitySort [1; 2; 3]%positive [10; 50; 30] in
  let dn := foldl (λ d ij, peerCapacitySort_Swap d ij.1 ij.2) d [(0, 1); (1, 2)] in
  sort_p dn = [2; 3; 1]%positive ∧ sort_tp dn = [50; 30; 10] ∧
  peerCapacitySort_Len dn = 3 ∧
  zip (sort_p dn) (sort_tp dn) ≡ₚ [(1%positive, 10); (2%positive, 50); (3%positive, 30)].
Proof.
  destruct (Swap_keeps_each_peer_with_its_throughput
              (mkPeerCapacitySort [1; 2; 3]%positive [10; 50; 30]) 0 1 [(0, 1); (1, 2)])
    as (_ & HLen & _ & Hperm).
  - reflexivity.
  - vm_compute. split; [discriminate|reflexivity].
  - vm_compute. split; [discriminate|reflexivity].
  - repeat constructor; vm_compute; discriminate.
  - split_and!; [reflexivity|reflexivity|exact HLen|exact Hperm].
Defined.

End MoreClosed.

(** * Properties of the segment file *)

Section WalProperties.
Import wal walspec.
Context {units : Units} {os : OS} {lru : LRU} {crc32 : CRC32}.

Ltac unm := unfold mbind, wal.outcome_bind, mret, wal.outcome_ret in *.
Ltac dlia := Z.div_mod_to_equations; lia.
Ltac lenlia :=
  unfold len, sub, make in *;
  repeat first
    [ rewrite length_app in * | rewrite length_drop in * | rewrite length_take in *
    | rewrite length_replicate in * | rewrite length_insert in * ];
  simpl length in *; lia.

(** ** Bytes and fixed-width integers *)

Lemma byte_val_range b : 0 ≤ byte_val b < 256.
Proof.
  unfold byte_val. pose proof (Byte.to_N_bounded b). lia.
Qed.

Lemma byte_val_of z : byte_val (byte_of z) = z mod 256.
Proof.
  unfold byte_val, byte_of.
  assert (0 ≤ z mod 256 < 256) as Hr by (apply Z.mod_pos_bound; lia).
  destruct (Byte.of_N (Z.to_N (z mod 256))) as [b|] eqn:Hb.
  - simpl. apply Byte.to_of_N in Hb. rewrite Hb. lia.
  - pose proof (Byte.to_of_N_option_map (Z.to_N (z mod 256))) as Hm.
    rewrite Hb in Hm. simpl in Hm.
    destruct (N.leb_spec (Z.to_N (z mod 256)) 255); [done|lia].
Qed.

Lemma byte_of_val b : byte_of (byte_val b) = b.
Proof.
  unfold byte_of, byte_val. pose proof (byte_val_range b) as Hr.
  unfold byte_val in Hr. rewrite Z.mod_small by lia.
  by rewrite N2Z.id, Byte.of_to_N.
Qed.

Lemma byte_of_mod z : byte_of (z mod 256) = byte_of z.
Proof. unfold byte_of. by rewrite Z.mod_mod by lia. Qed.

Lemma land_shiftl_low a b n : 0 ≤ n → 0 ≤ a < 2 ^ n → Z.land a (Z.shiftl b n) = 0.
Proof.
  intros Hn Ha. apply Z.bits_inj'. intros i Hi.
  rewrite Z.land_spec, Z.bits_0.
  destruct (Z.lt_ge_cases i n) as [Hlt|Hge].
  - rewrite Z.shiftl_spec_low by done. apply andb_false_r.
  - rewrite <- (Z.mod_small a (2 ^ n)) by done.
    by rewrite Z.mod_pow2_bits_high by lia.
Qed.

Lemma lor_shiftl a b n : 0 ≤ n → 0 ≤ a < 2 ^ n → Z.lor a (Z.shiftl b n) = a + b * 2 ^ n.
Proof.
  intros Hn Ha. rewrite <- Z.add_nocarry_lor by (by apply land_shiftl_low).
  by rewrite Z.shiftl_mul_pow2.
Qed.

Lemma lor_mul a b n : 0 ≤ n → 0 ≤ a < 2 ^ n → Z.lor a (b * 2 ^ n) = a + b * 2 ^ n.
Proof. intros Hn Ha. rewrite <- lor_shiftl by done. by rewrite Z.shiftl_mul_pow2. Qed.

Lemma lor_128 v : 0 ≤ v < 256 → Z.lor v 128 = v mod 128 + 128.
Proof.
  intros Hv. change 128 with (Z.shiftl 1 7) at 1.
  destruct (Z.lt_ge_cases v 128) as [Hlt|Hge].
  - rewrite Z.mod_small by lia. rewrite lor_shiftl by (change (2 ^ 7) with 128; lia).
    change (2 ^ 7) with 128. lia.
  - replace (v mod 128) with (v - 128) by dlia.
    assert (v = Z.lor (v - 128) (Z.shiftl 1 7)) as Hv'.
    { rewrite lor_shiftl by (change (2 ^ 7) with 128; lia).
      change (2 ^ 7) with 128. lia. }
    rewrite Hv' at 1. rewrite <- Z.lor_assoc, Z.lor_diag, <- Hv'. lia.
Qed.

Lemma i64_small z : - 2 ^ 63 ≤ z < 2 ^ 63 → i64 z = z.
Proof. intros Hz. unfold i64. rewrite Z.mod_small; lia. Qed.

Lemma i64_u64 z : - 2 ^ 63 ≤ z < 2 ^ 63 → i64 (u64 z) = z.
Proof.
  intros Hz. unfold i64, u64.
  destruct (Z.neg_nonneg_cases z).
  - replace (z mod 2 ^ 64) with (z + 2 ^ 64).
    + replace (z + 2 ^ 64 + 2 ^ 63) with (z + 2 ^ 63 + 1 * 2 ^ 64) by lia.
      rewrite Z.mod_add by lia. rewrite Z.mod_small; lia.
    + symmetry. replace z with (z + 2 ^ 64 + (-1) * 2 ^ 64) at 1 by lia.
      rewrite Z.mod_add by lia. apply Z.mod_small. lia.
  - rewrite (Z.mod_small z) by lia. rewrite Z.mod_small; lia.
Qed.

Lemma u32_small z : 0 ≤ z < 2 ^ 32 → u32 z = z.
Proof. intros Hz. by apply Z.mod_small. Qed.

Lemma u64_small z : 0 ≤ z < 2 ^ 64 → u64 z = z.
Proof. intros Hz. by apply Z.mod_small. Qed.

Lemma u64_range z : 0 ≤ u64 z < 2 ^ 64.
Proof. apply Z.mod_pos_bound. lia. Qed.

Lemma u32_range z : 0 ≤ u32 z < 2 ^ 32.
Proof. apply Z.mod_pos_bound. lia. Qed.

(** ** Slices *)

Lemma len_nonneg {A} (l : list A) : 0 ≤ len l.
Proof. unfold len. lia. Qed.

Lemma to_nat_len {A} (l : list A) : Z.to_nat (len l) = length l.
Proof. unfold len. lia. Qed.

Lemma len_app {A} (l k : list A) : len (l ++ k) = len l + len k.
Proof. unfold len. rewrite length_app. lia. Qed.

Lemma len_make n : 0 ≤ n → len (make n) = n.
Proof. intros Hn. unfold len, make. rewrite length_replicate. lia. Qed.

Lemma slice_ok {A} (l : list A) lo hi :
  0 ≤ lo → lo ≤ hi → hi ≤ len l →
  slice l lo hi = Return (take (Z.to_nat (hi - lo)) (drop (Z.to_nat lo) l)).
Proof.
  intros Hlo Hhi Hlen. unfold slice.
  destruct (Z.leb_spec 0 lo); [|lia]. destruct (Z.leb_spec lo hi); [|lia].
  by destruct (Z.leb_spec hi (len l)); [|lia].
Qed.

Lemma slice_panics {A} (l : list A) lo hi :
  lo < 0 ∨ hi < lo ∨ len l < hi → slice l lo hi = Panic outOfRange.
Proof.
  intros H. unfold slice.
  destruct (Z.leb_spec 0 lo); [|done]. destruct (Z.leb_spec lo hi); [|done].
  by destruct (Z.leb_spec hi (len l)); [lia|].
Qed.

Lemma slice_from {A} (l : list A) lo :
  0 ≤ lo → lo ≤ len l → slice l lo (len l) = Return (drop (Z.to_nat lo) l).
Proof.
  intros Hlo Hlen. rewrite slice_ok by lia. f_equal.
  apply take_ge. rewrite length_drop. unfold len. lia.
Qed.

Lemma store_ok l i b :
  0 ≤ i < len l → store l i b = Return (<[Z.to_nat i := b]> l).
Proof.
  intros Hi. unfold store.
  destruct (Z.leb_spec 0 i); [|lia]. by destruct (Z.ltb_spec i (len l)); [|lia].
Qed.

Lemma at_ok l i :
  0 ≤ i < len l → at_ l i = Return (default Byte.x00 (l !! Z.to_nat i)).
Proof.
  intros Hi. unfold at_.
  destruct (Z.leb_spec 0 i); [|lia]. by destruct (Z.ltb_spec i (len l)); [|lia].
Qed.

Lemma copy_same_length dst src : length src = length dst → copy dst src = src.
Proof.
  intros Hlen. unfold copy. rewrite <- Hlen, take_ge, drop_ge by lia.
  apply app_nil_r.
Qed.

(** ** Varints *)

Lemma uvarint_bytes_length fuel x k :
  0 ≤ x < 128 ^ Z.of_nat k → (1 ≤ k)%nat →
  (1 ≤ length (uvarint_bytes fuel x) ≤ k)%nat.
Proof.
  revert x k. induction fuel as [|fuel IH]; intros x k Hx Hk; simpl; [lia|].
  destruct (Z.leb_spec 128 x) as [Hge|Hlt]; simpl; [|lia].
  destruct k as [|[|k]]; [lia|simpl in Hx; lia|].
  assert (0 ≤ x / 128 < 128 ^ Z.of_nat (S k)) as Hx'.
  { split; [dlia|]. apply Z.div_lt_upper_bound; [lia|].
    rewrite <- Z.pow_succ_r by lia. rewrite <- Nat2Z.inj_succ. lia. }
  specialize (IH (x / 128) (S k) Hx'). lia.
Qed.

Lemma uvarint_length32 x : 0 ≤ x < 2 ^ 32 → 1 ≤ len (uvarint x) ≤ 5.
Proof.
  intros Hx. unfold len, uvarint.
  destruct (uvarint_bytes_length 10 x 5); [|lia..].
  change (128 ^ Z.of_nat 5) with (2 ^ 35). lia.
Qed.

Lemma uvarint_length64 x : 0 ≤ x < 2 ^ 64 → 1 ≤ len (uvarint x) ≤ 10.
Proof.
  intros Hx. unfold len, uvarint.
  destruct (uvarint_bytes_length 10 x 10); [|lia..].
  change (128 ^ Z.of_nat 10) with (2 ^ 70). lia.
Qed.

Lemma PutUvarint_loop_spec fuel pre suf x :
  0 ≤ x →
  (length (uvarint_bytes fuel x) ≤ length suf)%nat →
  x < 128 ^ (Z.of_nat fuel + 1) →
  binary.PutUvarint_loop fuel (pre ++ suf) (len pre) x =
    Return (pre ++ uvarint_bytes fuel x ++ drop (length (uvarint_bytes fuel x)) suf,
            len pre + len (uvarint_bytes fuel x)).
Proof.
  revert pre suf x. induction fuel as [|fuel IH]; intros pre suf x Hx Hlen Hbound.
  - simpl in *. destruct (Z.leb_spec 128 x) as [Hge|Hlt]; [lia|].
    destruct suf as [|s0 suf]; [simpl in Hlen; lia|].
    rewrite store_ok by (rewrite len_app; unfold len; simpl; lia).
    unm. unfold len. rewrite Nat2Z.id.
    rewrite insert_app_r_alt by lia. rewrite Nat.sub_diag. simpl.
    f_equal; f_equal; lia.
  - cbn [binary.PutUvarint_loop uvarint_bytes] in *.
    destruct (Z.leb_spec 128 x) as [Hge|Hlt].
    + destruct suf as [|s0 suf]; [simpl in Hlen; lia|].
      rewrite store_ok by (rewrite len_app; unfold len; simpl; lia).
      unm. rewrite byte_val_of, lor_128 by (apply Z.mod_pos_bound; lia).
      replace (x mod 256 mod 128) with (x mod 128) by dlia.
      unfold len at 1. rewrite Nat2Z.id.
      rewrite insert_app_r_alt by lia. rewrite Nat.sub_diag. simpl.
      rewrite Z.shiftr_div_pow2 by lia. change (2 ^ 7) with 128.
      set (b := byte_of (x mod 128 + 128)).
      replace (len pre + 1) with (len (pre ++ [b])) by (rewrite len_app; done).
      rewrite (cons_middle b pre suf), (app_assoc pre [b] suf).
      rewrite IH.
      * rewrite <- !app_assoc. simpl. f_equal; f_equal.
        rewrite len_app. unfold len. simpl length. lia.
      * dlia.
      * simpl in Hlen. lia.
      * apply Z.div_lt_upper_bound; [lia|].
        rewrite <- Z.pow_succ_r by lia.
        replace (Z.succ (Z.of_nat fuel + 1)) with (Z.of_nat (S fuel) + 1) by lia. done.
    + destruct suf as [|s0 suf]; [simpl in Hlen; lia|].
      rewrite store_ok by (rewrite len_app; unfold len; simpl; lia).
      unm. unfold len. rewrite Nat2Z.id.
      rewrite insert_app_r_alt by lia. rewrite Nat.sub_diag. simpl.
      f_equal; f_equal; lia.
Qed.

Lemma PutUvarint_from_spec pre suf x :
  0 ≤ x < 2 ^ 64 →
  len (uvarint x) ≤ len suf →
  PutUvarint_from (pre ++ suf) (len pre) x =
    Return (pre ++ uvarint x ++ drop (length (uvarint x)) suf, len (uvarint x)).
Proof.
  intros Hx Hlen. unfold PutUvarint_from, on_slice.
  rewrite slice_from by lenlia.
  unm. rewrite !to_nat_len, drop_app_length.
  unfold binary.PutUvarint.
  pose proof (PutUvarint_loop_spec 10 [] suf x) as Hspec. simpl app in Hspec.
  change (len []) with 0 in Hspec.
  rewrite Hspec; [|lia|unfold len in Hlen; fold (uvarint x); lia|simpl; lia].
  fold (uvarint x). rewrite take_app_length, drop_all, app_nil_r.
  by rewrite Z.add_0_l.
Qed.

Lemma Uvarint_loop_spec fuel x rest j acc :
  0 ≤ x → 0 ≤ j ≤ 9 → 0 ≤ acc < 2 ^ (7 * j) → acc + x * 2 ^ (7 * j) < 2 ^ 64 →
  x < 128 ^ (Z.of_nat fuel + 1) →
  binary.Uvarint_loop (uvarint_bytes fuel x ++ rest) j acc (7 * j) =
    (acc + x * 2 ^ (7 * j), j + len (uvarint_bytes fuel x)).
Proof.
  revert x j acc.
  assert (∀ x j acc, 0 ≤ x < 128 → 0 ≤ j ≤ 9 → 0 ≤ acc < 2 ^ (7 * j) →
            acc + x * 2 ^ (7 * j) < 2 ^ 64 →
            binary.Uvarint_loop (byte_of x :: rest) j acc (7 * j) =
              (acc + x * 2 ^ (7 * j), j + 1)) as Hlast.
  { intros x j acc Hx Hj Hacc Hsum. simpl.
    unfold binary.MaxVarintLen64.
    destruct (Z.eqb_spec j 10); [lia|].
    rewrite byte_val_of, Z.mod_small by lia.
    destruct (Z.ltb_spec x 128); [|lia].
    assert (0 < 2 ^ (7 * j)) as Hpos by (apply Z.pow_pos_nonneg; lia).
    destruct (Z.eqb_spec j (10 - 1)) as [->|Hj9]; simpl.
    - destruct (Z.ltb_spec 1 x) as [Hgt|Hle].
      + exfalso. change (2 ^ 64) with (2 * 2 ^ (7 * 9)) in Hsum. nia.
      + rewrite Z.shiftl_mul_pow2 by lia. rewrite u64_small by nia.
        by rewrite lor_mul by lia.
    - rewrite Z.shiftl_mul_pow2 by lia. rewrite u64_small by nia.
      by rewrite lor_mul by lia. }
  induction fuel as [|fuel IH]; intros x j acc Hx Hj Hacc Hsum Hbound.
  - simpl uvarint_bytes. simpl app. change (128 ^ (Z.of_nat 0 + 1)) with 128 in Hbound.
    rewrite Hlast by lia. done.
  - cbn [uvarint_bytes]. destruct (Z.leb_spec 128 x) as [Hge|Hlt].
    2:{ simpl app. rewrite Hlast by lia. done. }
    assert (0 < 2 ^ (7 * j)) as Hpos by (apply Z.pow_pos_nonneg; lia).
    assert (2 ^ (7 * (j + 1)) = 128 * 2 ^ (7 * j)) as Hpow.
    { replace (7 * (j + 1)) with (7 + 7 * j) by lia.
      rewrite Z.pow_add_r by lia. done. }
    assert (1 ≤ x / 128) as Hq by dlia.
    assert (x = 128 * (x / 128) + x mod 128) as Hdm by dlia.
    assert (0 ≤ x mod 128 < 128) as Hm by dlia.
    assert (j + 1 ≤ 9) as Hj'.
    { assert (2 ^ (7 * (j + 1)) < 2 ^ 64) as Hlt by nia.
      apply Z.pow_lt_mono_r_iff in Hlt; lia. }
    simpl app. cbn [binary.Uvarint_loop]. unfold binary.MaxVarintLen64.
    destruct (Z.eqb_spec j 10); [lia|].
    rewrite byte_val_of, Z.mod_small by lia.
    destruct (Z.ltb_spec (x mod 128 + 128) 128); [lia|].
    change 127 with (Z.ones 7). rewrite Z.land_ones by lia.
    change (2 ^ 7) with 128.
    replace ((x mod 128 + 128) mod 128) with (x mod 128) by dlia.
    rewrite Z.shiftl_mul_pow2 by lia. rewrite u64_small by nia.
    rewrite lor_mul by lia.
    replace (7 * j + 7) with (7 * (j + 1)) by lia.
    rewrite IH.
    + f_equal; [rewrite Hpow; nia|]. unfold len. simpl length. lia.
    + lia.
    + lia.
    + rewrite Hpow. nia.
    + rewrite Hpow. nia.
    + apply Z.div_lt_upper_bound; [lia|].
      rewrite <- Z.pow_succ_r by lia.
      replace (Z.succ (Z.of_nat fuel + 1)) with (Z.of_nat (S fuel) + 1) by lia. done.
Qed.

Lemma Uvarint_uvarint x rest :
  0 ≤ x < 2 ^ 64 → binary.Uvarint (uvarint x ++ rest) = (x, len (uvarint x)).
Proof.
  intros Hx. unfold binary.Uvarint, uvarint.
  pose proof (Uvarint_loop_spec 10 x rest 0 0) as Hspec.
  change (7 * 0) with 0 in Hspec. rewrite Hspec; [|lia..|simpl; lia].
  f_equal. lia.
Qed.

(** ** Chunk positions *)

Lemma PutUvarint_from_step pre suf x :
  0 ≤ x < 2 ^ 64 →
  len (uvarint x) ≤ len suf →
  PutUvarint_from (pre ++ suf) (len pre) x =
    Return ((pre ++ uvarint x) ++ drop (length (uvarint x)) suf, len (uvarint x)).
Proof. intros Hx Hlen. rewrite PutUvarint_from_spec by done. by rewrite <- app_assoc. Qed.

Lemma len_drop {A} (l : list A) n : len (drop n l) = Z.max 0 (len l - Z.of_nat n).
Proof. unfold len. rewrite length_drop. lia. Qed.

Lemma Encode_spec cp :
  ChunkPosition_ok cp →
  Encode cp = Return (uvarint (SegmentId cp) ++ uvarint (BlockNumber cp) ++
                      uvarint (u64 (ChunkOffset cp)) ++ uvarint (ChunkSize cp)).
Proof.
  intros (Hs & Hb & Ho & Hc). unfold Encode.
  pose proof (uvarint_length32 _ Hs) as L1.
  pose proof (uvarint_length32 _ Hb) as L2.
  pose proof (uvarint_length64 _ (u64_range (ChunkOffset cp))) as L3.
  pose proof (uvarint_length32 _ Hc) as L4.
  pose proof (u64_range (ChunkOffset cp)) as Ho'.
  rewrite !(u64_small (SegmentId cp)), !(u64_small (BlockNumber cp)),
    !(u64_small (ChunkSize cp)) by lia.
  set (buf := make _).
  assert (len buf = 25) as Hbuf by (subst buf; by rewrite len_make).
  change buf with ([] ++ buf) at 1. change 0 with (len (@nil Byte.byte)) at 1.
  rewrite PutUvarint_from_step by lenlia. unm. cbv beta iota.
  set (e1 := uvarint (SegmentId cp)) in *.
  replace (len [] + len e1) with (len ([] ++ e1)) by (rewrite len_app; done).
  rewrite PutUvarint_from_step by lenlia. cbv beta iota.
  set (e2 := uvarint (BlockNumber cp)) in *.
  replace (len ([] ++ e1) + len e2) with (len (([] ++ e1) ++ e2)) by (by rewrite !len_app).
  rewrite PutUvarint_from_step by lenlia. cbv beta iota.
  set (e3 := uvarint (u64 (ChunkOffset cp))) in *.
  replace (len (([] ++ e1) ++ e2) + len e3) with (len ((([] ++ e1) ++ e2) ++ e3))
    by (by rewrite !len_app).
  rewrite PutUvarint_from_step by lenlia. cbv beta iota.
  set (e4 := uvarint (ChunkSize cp)) in *.
  replace (len ((([] ++ e1) ++ e2) ++ e3) + len e4)
    with (len (((([] ++ e1) ++ e2) ++ e3) ++ e4)) by (by rewrite !len_app).
  rewrite slice_ok by lenlia.
  rewrite Z.sub_0_r, to_nat_len. change (Z.to_nat (len [])) with 0%nat.
  rewrite drop_0, take_app_length.
  simpl. by rewrite <- !app_assoc.
Qed.

Lemma Uvarint_from_at pre x rest :
  0 ≤ x < 2 ^ 64 →
  Uvarint_from (pre ++ uvarint x ++ rest) (len pre) = Return (x, len (uvarint x)).
Proof.
  intros Hx. unfold Uvarint_from.
  rewrite slice_from by lenlia.
  unm. rewrite to_nat_len, drop_app_length. by rewrite Uvarint_uvarint.
Qed.

Lemma Decode_spec a b c d rest :
  0 ≤ a < 2 ^ 64 → 0 ≤ b < 2 ^ 64 → 0 ≤ c < 2 ^ 64 → 0 ≤ d < 2 ^ 64 →
  DecodeChunkPosition (uvarint a ++ uvarint b ++ uvarint c ++ uvarint d ++ rest) =
    Return (Some (mkChunkPosition (u32 a) (u32 b) (i64 c) (u32 d))).
Proof.
  intros Ha Hb Hc Hd. unfold DecodeChunkPosition.
  pose proof (uvarint_length64 _ Ha) as La.
  destruct (Z.eqb_spec (len (uvarint a ++ uvarint b ++ uvarint c ++ uvarint d ++ rest)) 0)
    as [H0|_].
  { rewrite len_app in H0.
    pose proof (len_nonneg (uvarint b ++ uvarint c ++ uvarint d ++ rest)). lia. }
  pose proof (Uvarint_from_at [] a (uvarint b ++ uvarint c ++ uvarint d ++ rest) Ha) as H1.
  simpl app in H1. change (len []) with 0 in H1. rewrite H1. unm. cbv beta iota.
  pose proof (Uvarint_from_at (uvarint a) b (uvarint c ++ uvarint d ++ rest) Hb) as H2.
  rewrite Z.add_0_l, H2. cbv beta iota.
  pose proof (Uvarint_from_at (uvarint a ++ uvarint b) c (uvarint d ++ rest) Hc) as H3.
  rewrite len_app, <- app_assoc in H3. rewrite H3. cbv beta iota.
  pose proof (Uvarint_from_at ((uvarint a ++ uvarint b) ++ uvarint c) d rest Hd) as H4.
  rewrite !len_app, <- !app_assoc in H4. rewrite H4. done.
Qed.

(** ** Parts of lists *)

Lemma slice_sub {A} (l : list A) lo hi :
  0 ≤ lo → lo ≤ hi → hi ≤ len l → slice l lo hi = Return (sub l lo (hi - lo)).
Proof. intros. by rewrite slice_ok. Qed.

Lemma len_sub {A} (l : list A) p n :
  0 ≤ p → 0 ≤ n → p + n ≤ len l → len (sub l p n) = n.
Proof. intros Hp Hn Hl. unfold sub. lenlia. Qed.

Lemma sub_app_l {A} (l k : list A) p n :
  0 ≤ p → 0 ≤ n → p + n ≤ len l → sub (l ++ k) p n = sub l p n.
Proof.
  intros Hp Hn Hl. unfold sub.
  rewrite drop_app_le by lenlia. rewrite take_app_le by lenlia. done.
Qed.

Lemma sub_app_r {A} (l k : list A) q m :
  0 ≤ q → sub (l ++ k) (len l + q) m = sub k q m.
Proof.
  intros Hq. unfold sub. replace (Z.to_nat (len l + q)) with (length l + Z.to_nat q)%nat
    by lenlia.
  by rewrite drop_app_add.
Qed.

Lemma sub_sub {A} (l : list A) p n q m :
  0 ≤ p → 0 ≤ q → 0 ≤ m → q + m ≤ n → sub (sub l p n) q m = sub l (p + q) m.
Proof.
  intros Hp Hq Hm Hn. unfold sub.
  replace (Z.to_nat n) with (Z.to_nat q + (Z.to_nat n - Z.to_nat q))%nat by lia.
  rewrite <- take_drop_commute, take_take, drop_drop.
  f_equal; [lia|]. f_equal. lia.
Qed.

Lemma sub_take {A} (l : list A) n q m :
  0 ≤ q → 0 ≤ m → q + m ≤ n → sub (take (Z.to_nat n) l) q m = sub l q m.
Proof.
  intros Hq Hm Hn. pose proof (sub_sub l 0 n q m) as H.
  unfold sub at 2 in H. change (Z.to_nat 0) with 0%nat in H. rewrite drop_0 in H.
  rewrite H by lia. done.
Qed.

Lemma sub_all {A} (l : list A) : sub l 0 (len l) = l.
Proof. unfold sub. simpl. rewrite to_nat_len. apply firstn_all. Qed.

Lemma sub_split {A} (l : list A) p n m :
  0 ≤ p → 0 ≤ n → 0 ≤ m → sub l p (n + m) = sub l p n ++ sub l (p + n) m.
Proof.
  intros Hp Hn Hm. unfold sub.
  replace (Z.to_nat (n + m)) with (Z.to_nat n + Z.to_nat m)%nat by lia.
  rewrite <- take_take_drop, drop_drop.
  f_equal. f_equal. f_equal. lia.
Qed.

(** ** The header of a chunk *)

Lemma Uint16_bytes n :
  0 ≤ n < 2 ^ 16 → binary.Uint16 [byte_of n; byte_of (Z.shiftr n 8)] = Return n.
Proof.
  intros Hn. unfold binary.Uint16. rewrite !at_ok by (unfold len; simpl; lia).
  unm. simpl. rewrite !byte_val_of, Z.shiftr_div_pow2 by lia.
  rewrite lor_shiftl by dlia. f_equal. change (2 ^ 8) with 256. dlia.
Qed.

Lemma Uint32_bytes s :
  0 ≤ s < 2 ^ 32 →
  binary.Uint32 [byte_of s; byte_of (Z.shiftr s 8); byte_of (Z.shiftr s 16);
                 byte_of (Z.shiftr s 24)] = Return s.
Proof.
  intros Hs. unfold binary.Uint32. rewrite !at_ok by (unfold len; simpl; lia).
  unm. simpl. rewrite !byte_val_of, !Z.shiftr_div_pow2 by lia.
  rewrite (lor_shiftl _ _ 8) by dlia.
  rewrite (lor_shiftl _ _ 16) by (change (2 ^ 8) with 256; change (2 ^ 16) with 65536; dlia).
  rewrite (lor_shiftl _ _ 24)
    by (change (2 ^ 8) with 256; change (2 ^ 16) with 65536;
        change (2 ^ 24) with 16777216; dlia).
  f_equal. change (2 ^ 8) with 256. change (2 ^ 16) with 65536.
  change (2 ^ 24) with 16777216. dlia.
Qed.

Lemma chunkHeader_length chunkType payload : len (chunkHeader chunkType payload) = 7.
Proof. reflexivity. Qed.

Lemma chunkBytes_length chunkType payload :
  len (chunkBytes chunkType payload) = 7 + len payload.
Proof. unfold chunkBytes. by rewrite len_app, chunkHeader_length. Qed.

(** writeInternal with its header buffer of seven bytes. *)
Lemma writeInternal_unfold data chunkType seg :
  len (header seg) = 7 →
  writeInternal data chunkType seg =
    let h := chunkHeader chunkType data in
    let seg := set_header h seg in
    let r1 := File_Write (fd seg) h in
    let seg := set_fd r1.1 seg in
    match r1.2 with
    | Some e => Return (Some e, seg)
    | None =>
        let r2 := File_Write (fd seg) data in
        let seg := set_fd r2.1 seg in
        match r2.2 with
        | Some e => Return (Some e, seg)
        | None =>
            if blockSize <? currentBlockSize seg then Panic wrongBlockSize
            else
              let size := u32 (currentBlockSize seg + u32 (u32 (len data) + 7)) in
              if size =? blockSize
              then Return (None, set_currentBlock (u32 (currentBlockNumber seg + 1)) 0 seg)
              else Return (None, set_currentBlock (currentBlockNumber seg) size seg)
        end
    end.
Proof.
  intros Hlen. unfold writeInternal.
  destruct (header seg) as [|a0 [|a1 [|a2 [|a3 [|a4 [|a5 [|a6 [|]]]]]]]] eqn:Hh;
    try (unfold len in Hlen; simpl in Hlen; lia).
  clear Hlen.
  unfold on_slice, binary.PutUint16, binary.PutUint32.
  rewrite !slice_ok by (unfold len; simpl; lia). unm. simpl take. simpl drop.
  rewrite !at_ok by (unfold len; simpl; lia).
  rewrite !store_ok by (unfold len; simpl; lia). simpl.
  match goal with
  | |- context [File_Write (fd seg) ?l] => change l with (chunkHeader chunkType data)
  end.
  destruct (File_Write (fd seg) (chunkHeader chunkType data)) as [fd1 [e|]]; simpl; [done|].
  destruct (File_Write fd1 data) as [fd2 [e|]]; simpl; [done|].
  destruct (blockSize <? currentBlockSize seg); [done|].
  unfold chunkHeaderSize. by destruct (_ =? blockSize).
Qed.

(** ** Writing a chunk *)

Section Segment.
Hypothesis units_ok : Units_ok.
Hypothesis os_ok : OS_ok.
Hypothesis lru_ok : LRU_ok.
Hypothesis crc32_ok : CRC32_ok.

Lemma blockSize_range : 32 ≤ blockSize ≤ 65536.
Proof. unfold blockSize. unfold Units_ok in units_ok. lia. Qed.

Lemma coherent_app seg F X c : coherent seg F c → coherent seg (F ++ X) c.
Proof.
  intros Hc c0 bn v Hc0 Hbn Hget. destruct (Hc c0 bn v Hc0 Hbn Hget) as [Hlen ->].
  pose proof blockSize_range. split; [rewrite len_app; pose proof (len_nonneg X); lia|].
  symmetry. apply sub_app_l; nia.
Qed.

Lemma chunk_at_app F X bn off chunkType payload :
  chunk_at F bn off chunkType payload → chunk_at (F ++ X) bn off chunkType payload.
Proof.
  intros (Hbn & Hoff & Hfit & Hlen & Hsub). unfold chunk_at.
  pose proof blockSize_range. pose proof (len_nonneg payload). unfold chunkHeaderSize in *.
  split_and!; [done..| |].
  - rewrite len_app. pose proof (len_nonneg X). lia.
  - rewrite sub_app_l by nia. done.
Qed.

Lemma chunks_at_app F X bn off cs : chunks_at F bn off cs → chunks_at (F ++ X) bn off cs.
Proof.
  revert bn off. induction cs as [|[chunkType payload] cs IH]; intros bn off; simpl; [done|].
  intros [H1 H2]. split; [by apply chunk_at_app|by apply IH].
Qed.

Lemma writeInternal_returns data chunkType seg :
  seg_ok seg → ∃ r, writeInternal data chunkType seg = Return r.
Proof.
  intros (Hbn & Hbs & Hlen & Hroom & Hh & Hpool & Hcache).
  rewrite writeInternal_unfold by done. cbv zeta.
  destruct (File_Write _ _) as [fd1 [e|]]; simpl; [by eexists|].
  destruct (File_Write _ _) as [fd2 [e|]]; simpl; [by eexists|].
  destruct (Z.ltb_spec blockSize (currentBlockSize seg)); [lia|].
  destruct (_ =? blockSize); by eexists.
Qed.

Lemma writeInternal_ok data chunkType seg seg' :
  seg_ok seg →
  currentBlockSize seg + 7 + len data ≤ blockSize →
  (currentBlockNumber seg + 2) * blockSize < 2 ^ 32 →
  writeInternal data chunkType seg = Return (None, seg') →
  seg_ok seg' ∧ closed seg' = closed seg ∧ id seg' = id seg ∧
  File_contents (fd seg') = File_contents (fd seg) ++ chunkBytes chunkType data ∧
  chunk_at (File_contents (fd seg')) (currentBlockNumber seg) (currentBlockSize seg)
           chunkType data ∧
  (currentBlockNumber seg', currentBlockSize seg') =
    (if currentBlockSize seg + 7 + len data =? blockSize
     then (currentBlockNumber seg + 1, 0)
     else (currentBlockNumber seg, currentBlockSize seg + 7 + len data)).
Proof.
  intros (Hbn & Hbs & Hlen & Hroom & Hh & Hpool & Hcache) Hfit Hnext.
  pose proof blockSize_range as Hblock. pose proof (len_nonneg data) as Hdata.
  rewrite writeInternal_unfold by done. cbv zeta.
  destruct (File_Write (fd (set_header _ seg)) _) as [fd1 [e|]] eqn:Hw1; simpl; [done|].
  destruct (File_Write fd1 data) as [fd2 [e|]] eqn:Hw2; simpl; [done|].
  simpl in Hw1.
  pose proof (File_Write_appends os_ok (fd seg) (chunkHeader chunkType data)) as Ha1.
  rewrite Hw1 in Ha1. simpl in Ha1. specialize (Ha1 eq_refl).
  pose proof (File_Write_appends os_ok fd1 data) as Ha2.
  rewrite Hw2 in Ha2. simpl in Ha2. specialize (Ha2 eq_refl).
  assert (File_contents fd2 = File_contents (fd seg) ++ chunkBytes chunkType data) as HF.
  { rewrite Ha2, Ha1. unfold chunkBytes. by rewrite app_assoc. }
  destruct (Z.ltb_spec blockSize (currentBlockSize seg)); [lia|].
  rewrite (u32_small (len data)), (u32_small (len data + 7)),
    (u32_small (currentBlockSize seg + (len data + 7))) by lia.
  assert (chunk_at (File_contents fd2) (currentBlockNumber seg) (currentBlockSize seg)
                   chunkType data) as Hchunk.
  { unfold chunk_at, chunkHeaderSize. rewrite HF, len_app, chunkBytes_length.
    split_and!; [lia..|].
    rewrite <- Hlen. rewrite <- (Z.add_0_r (len (File_contents (fd seg)))).
    rewrite sub_app_r by lia. rewrite <- (chunkBytes_length chunkType data).
    apply sub_all. }
  assert (coherent seg (File_contents fd2) (cache seg)) as Hcache'.
  { rewrite HF. by apply coherent_app. }
  destruct (Z.eqb_spec (currentBlockSize seg + (len data + 7)) blockSize) as [Hfull|Hpart];
    intros [= <-]; simpl.
  - destruct (Z.eqb_spec (currentBlockSize seg + 7 + len data) blockSize); [|lia].
    rewrite u32_small by nia.
    split_and!; try done. unfold seg_ok. simpl.
    split_and!; try done; try lia.
    rewrite HF, len_app, chunkBytes_length. lia.
  - destruct (Z.eqb_spec (currentBlockSize seg + 7 + len data) blockSize); [lia|].
    split_and!; try done; [|f_equal; lia]. unfold seg_ok. simpl.
    split_and!; try done; try lia.
    rewrite HF, len_app, chunkBytes_length. lia.
Qed.

(** ** Writing a record *)

Lemma chained_cons chunkType payload cs :
  cs ≠ [] → terminal chunkType = false → chained cs → chained ((chunkType, payload) :: cs).
Proof. intros Hne Ht Hc. destruct cs; [done|]. by split. Qed.

Lemma tailChunks_nonempty cs : tailChunks cs → cs ≠ [].
Proof. intros (middle & last & -> & _). by destruct middle. Qed.

Lemma tailChunks_chained cs : tailChunks cs → chained cs.
Proof.
  intros (middle & last & -> & _). induction middle as [|m middle IH]; [done|].
  rewrite fmap_cons. apply chained_cons; [by destruct middle|done|exact IH].
Qed.

Lemma chunksOf_chained cs : chunksOf cs → chained cs.
Proof.
  intros [(data & ->)|(first & rest & -> & _ & Htail)]; [done|].
  apply chained_cons; [by apply tailChunks_nonempty|done|by apply tailChunks_chained].
Qed.

Lemma copy_make part n : len part = n → copy (make n) part = part.
Proof.
  intros Hn. apply copy_same_length. unfold make. rewrite length_replicate. lenlia.
Qed.

Lemma Write_loop_done fuel data dataSize k seg :
  Write_loop fuel data dataSize 0 k seg = Return (inl k, seg).
Proof. by destruct fuel. Qed.

Lemma Write_loop_spec fuel data l k seg :
  let N := len data in
  let c := currentBlockSize seg in
  let F := File_contents (fd seg) in
  seg_ok seg →
  0 < l ≤ N → N < 2 ^ 32 →
  c + 7 < blockSize →
  (l = N → blockSize - c - 7 < N) →
  (l < N → c = 0) →
  len F + 2 * l + (if l =? N then 14 else 7) + 2 * blockSize ≤ 2 ^ 32 →
  0 ≤ k → k + l < 2 ^ 32 →
  (Z.to_nat l ≤ fuel)%nat →
  ∃ r seg', Write_loop fuel data N l k seg = Return (r, seg') ∧
    ∀ count, r = inl count →
      ∃ cs,
        count = k + Z.of_nat (length cs) ∧
        7 * Z.of_nat (length cs) ≤ l + (if l =? N then 14 else 7) ∧
        (if l =? N
         then ∃ first rest, cs = (ChunkTypeFirst, first) :: rest ∧ 0 < len first ∧
                            tailChunks rest
         else tailChunks cs) ∧
        seg_ok seg' ∧ closed seg' = closed seg ∧ id seg' = id seg ∧
        (∃ X, File_contents (fd seg') = F ++ X) ∧
        len (File_contents (fd seg')) = len F + l + 7 * Z.of_nat (length cs) ∧
        chunks_at (File_contents (fd seg')) (currentBlockNumber seg) c cs ∧
        mjoin cs.*2 = sub data (N - l) l ∧
        writePosition seg' = endOf (currentBlockNumber seg) c cs ∧
        fills c cs.
Proof.
  intros N. revert l k seg. pose proof blockSize_range as Hblock.
  induction fuel as [|fuel IH];
    intros l k seg c F Hok Hl HN Hc Hfirst Hrest Hroom Hk Hkl Hfuel; [lia|].
  cbn [Write_loop]. destruct (Z.ltb_spec 0 l) as [_|?]; [|lia].
  pose proof Hok as (Hbn & Hbs & Hlen & _ & Hh & Hpool & Hcache).
  fold c in Hbs, Hlen. fold F in Hlen.
  assert (len F + 2 * l + 7 + 2 * blockSize ≤ 2 ^ 32) as Hroom'
    by (destruct (l =? N); lia).
  rewrite (u32_small (blockSize - c)), (u32_small (blockSize - c - chunkHeaderSize))
    by (unfold chunkHeaderSize; lia).
  unfold chunkHeaderSize. fold c.
  set (chunkSize := if l <? blockSize - c - 7 then l else blockSize - c - 7).
  assert (0 < chunkSize ≤ l ∧ chunkSize ≤ blockSize - c - 7) as (Hcs & Hcap).
  { subst chunkSize. destruct (Z.ltb_spec l (blockSize - c - 7)); lia. }
  assert (l = N → chunkSize < l) as Hfirst' by (intros; lia).
  rewrite (u32_small (N - l)), (u32_small (N - l + chunkSize)) by lia.
  destruct (Z.ltb_spec N (N - l + chunkSize)) as [?|_]; [lia|].
  rewrite slice_sub by (fold N; lia).
  replace (N - l + chunkSize - (N - l)) with chunkSize by lia. unm.
  set (part := sub data (N - l) chunkSize).
  assert (len part = chunkSize) as Hpart by (subst part; apply len_sub; fold N; lia).
  rewrite copy_make by done.
  set (chunkType := if l =? N then ChunkTypeFirst
                    else if l =? chunkSize then ChunkTypeLast else ChunkTypeMiddle).
  assert ((if l =? N then writeInternal part ChunkTypeFirst seg
           else if l =? chunkSize then writeInternal part ChunkTypeLast seg
                else writeInternal part ChunkTypeMiddle seg)
          = writeInternal part chunkType seg) as ->.
  { subst chunkType. destruct (l =? N); [done|]. by destruct (l =? chunkSize). }
  destruct (writeInternal_returns part chunkType seg Hok) as [[err seg1] Hw]. rewrite Hw.
  destruct err as [e|]; [by eexists _, _|].
  destruct (writeInternal_ok part chunkType seg seg1 Hok) as
    (Hok1 & Hclosed1 & Hid1 & HF1 & Hchunk1 & Hpos1); [fold c; lia|nia|done|].
  fold c F in HF1, Hchunk1, Hpos1.
  rewrite (u32_small (l - chunkSize)), (u32_small (k + 1)) by lia.
  assert (len (File_contents (fd seg1)) = len F + 7 + chunkSize) as HlenF1.
  { rewrite HF1, len_app, chunkBytes_length. lia. }
  destruct (Z.eq_dec chunkSize l) as [Hlast|Hmore].
  - (* the last chunk *)
    assert (l ≠ N) as HlN by lia.
    assert (chunkType = ChunkTypeLast) as HcT.
    { subst chunkType. destruct (Z.eqb_spec l N); [done|].
      by destruct (Z.eqb_spec l chunkSize). }
    replace (l - chunkSize) with 0 by lia. rewrite Write_loop_done.
    eexists _, _. split; [done|].
    intros count [= <-]. exists [(chunkType, part)].
    destruct (Z.eqb_spec l N) as [?|_]; [done|].
    split_and!.
    + simpl. lia.
    + simpl. lia.
    + exists [], part. rewrite HcT. split; [done|]. constructor; [lia|constructor].
    + done.
    + done.
    + done.
    + by eexists.
    + rewrite HlenF1. simpl. lia.
    + done.
    + simpl. rewrite app_nil_r. unfold part. by rewrite Hlast.
    + unfold writePosition. simpl. unfold chunkHeaderSize.
      destruct (Z.eqb_spec (c + 7 + len part) blockSize) as [Hfull|Hpartial];
        injection Hpos1 as -> ->; [|done].
      destruct (Z.leb_spec blockSize (0 + 7)); [lia|].
      by destruct (Z.leb_spec blockSize (c + 7 + len part + 7)); [|lia].
    + done.
  - (* a chunk that fills its block *)
    assert (chunkSize = blockSize - c - 7) as Hfill.
    { subst chunkSize. destruct (Z.ltb_spec l (blockSize - c - 7)); [lia|done]. }
    destruct (Z.eqb_spec (c + 7 + len part) blockSize) as [_|?]; [|lia].
    injection Hpos1 as Hbn1 Hbs1.
    destruct (IH (l - chunkSize) (k + 1) seg1) as (r & seg' & Hloop & Hpost);
      [ exact Hok1 | lia | done | rewrite Hbs1; lia | lia | intros _; exact Hbs1
      | rewrite HlenF1; destruct (Z.eqb_spec (l - chunkSize) N); [lia|];
        destruct (Z.eqb_spec l N); lia
      | lia | lia | lia | ].
    rewrite Hloop. eexists _, _. split; [done|].
    intros count ->. destruct (Hpost count eq_refl) as
      (cs & -> & Hn & Hshape & Hok' & Hclosed' & Hid' & [X HX] & HlenF' & Hchunks & Hjoin
       & Hend & Hfills).
    destruct (Z.eqb_spec (l - chunkSize) N) as [?|_]; [lia|].
    rewrite Hbn1, Hbs1 in Hchunks, Hend. rewrite Hbs1 in Hfills.
    assert (cs ≠ []) as Hne by (by apply tailChunks_nonempty).
    exists ((chunkType, part) :: cs). split_and!.
    + simpl length. lia.
    + simpl length. destruct (Z.eqb_spec l N); lia.
    + destruct (Z.eqb_spec l N) as [HlN|HlN].
      * exists part, cs. subst chunkType. destruct (Z.eqb_spec l N); [|done].
        split_and!; [done|lia|done].
      * destruct Hshape as (middle & last & -> & Hall).
        exists (part :: middle), last. subst chunkType.
        destruct (Z.eqb_spec l N); [done|]. destruct (Z.eqb_spec l chunkSize); [lia|].
        split; [done|]. constructor; [lia|done].
    + done.
    + congruence.
    + congruence.
    + exists (chunkBytes chunkType part ++ X). by rewrite HX, HF1, <- app_assoc.
    + rewrite HlenF', HlenF1. simpl length. lia.
    + simpl. split; [|done]. rewrite HX. by apply chunk_at_app.
    + change (mjoin ((chunkType, part) :: cs).*2) with (part ++ mjoin cs.*2).
      rewrite Hjoin. subst part.
      replace (N - (l - chunkSize)) with (N - l + chunkSize) by lia.
      rewrite <- sub_split by lia. f_equal. lia.
    + rewrite Hend. simpl. by destruct cs.
    + simpl. destruct cs; [done|]. unfold chunkHeaderSize. split; [lia|done].
Qed.

Lemma Size_ok seg : seg_ok seg → Size seg = len (File_contents (fd seg)).
Proof.
  intros (Hbn & Hbs & Hlen & Hroom & _). unfold Size.
  pose proof blockSize_range. rewrite (u32_small (_ * _)) by nia.
  rewrite u32_small by nia. lia.
Qed.

Lemma roomFor_cons data datas seg seg' :
  seg_ok seg → seg_ok seg' →
  len (File_contents (fd seg')) ≤ len (File_contents (fd seg)) + 2 * len data + 21 →
  roomFor (data :: datas) seg → roomFor datas seg'.
Proof.
  intros Hok Hok' Hgrow. unfold roomFor. rewrite !Size_ok by done. simpl. lia.
Qed.

Lemma roomFor_head data datas seg : roomFor (data :: datas) seg → roomFor [data] seg.
Proof.
  unfold roomFor. simpl.
  assert (0 ≤ foldr (λ d acc, 2 * len d + 21 + acc) 0 datas) as Hpos.
  { induction datas as [|d datas IH]; simpl; [done|]. pose proof (len_nonneg d). lia. }
  lia.
Qed.

(** What is written before a record if the block cannot take its header. *)
Lemma Write_spec fuel data seg :
  let F := File_contents (fd seg) in
  let padding := if blockSize <=? currentBlockSize seg + 7
                 then blockSize - currentBlockSize seg else 0 in
  seg_ok seg → closed seg = false → roomFor [data] seg → (length data ≤ fuel)%nat →
  ∃ r seg', Write fuel data seg = Return (r, seg') ∧
    ∀ pos, r = inl pos →
      ∃ cs,
        seg_ok seg' ∧ closed seg' = false ∧ id seg' = id seg ∧
        (∃ X, File_contents (fd seg') = F ++ X) ∧
        SegmentId pos = id seg ∧
        (BlockNumber pos, ChunkOffset pos) = writePosition seg ∧
        ChunkSize pos = len data + 7 * Z.of_nat (length cs) ∧
        7 * Z.of_nat (length cs) ≤ len data + 14 ∧
        len (File_contents (fd seg')) = len F + padding + ChunkSize pos ∧
        chunksOf cs ∧
        chunks_at (File_contents (fd seg')) (BlockNumber pos) (ChunkOffset pos) cs ∧
        mjoin cs.*2 = data ∧
        writePosition seg' = endOf (BlockNumber pos) (ChunkOffset pos) cs ∧
        fills (ChunkOffset pos) cs ∧
        (ChunkOffset pos + 7 + len data ≤ blockSize ↔ cs = [(ChunkTypeFull, data)]).
Proof.
  intros F padding Hok Hopen Hroom Hfuel.
  pose proof blockSize_range as Hblock. pose proof (len_nonneg data) as Hdata.
  pose proof Hok as (Hbn & Hbs & Hlen & Hlim & Hh & Hpool & Hcache). fold F in Hlen.
  unfold roomFor in Hroom. rewrite Size_ok in Hroom by done. fold F in Hroom.
  simpl in Hroom.
  unfold Write. rewrite Hopen. unfold chunkHeaderSize.
  rewrite (u32_small (currentBlockSize seg + 7)) by lia.
  (* the padding *)
  match goal with
  | |- context [if blockSize <=? currentBlockSize seg + 7 then ?a else ?b] =>
      set (pad := if blockSize <=? currentBlockSize seg + 7 then a else b)
  end.
  assert (∃ err seg1,
            pad = (err, seg1) ∧
            (err = None →
               seg_ok seg1 ∧ closed seg1 = false ∧ id seg1 = id seg ∧
               (∃ X, File_contents (fd seg1) = F ++ X) ∧
               len (File_contents (fd seg1)) = len F + padding ∧
               (currentBlockNumber seg1, currentBlockSize seg1) = writePosition seg ∧
               currentBlockSize seg1 + 7 < blockSize ∧ padding ≤ 7))
    as (err & seg1 & -> & Hpad).
  { unfold writePosition, chunkHeaderSize. subst padding pad.
    destruct (Z.leb_spec blockSize (currentBlockSize seg + 7)) as [Hfull|Hfits].
    - destruct (Z.ltb_spec (currentBlockSize seg) blockSize); [|lia].
      rewrite (u32_small (blockSize - _)) by lia.
      destruct (File_Write _ _) as [fd1 [e|]] eqn:Hw; [by eexists _, _|].
      eexists _, _. split; [done|]. intros _. simpl.
      pose proof (File_Write_appends os_ok (fd seg)
                    (make (blockSize - currentBlockSize seg))) as Ha.
      rewrite Hw in Ha. simpl in Ha. specialize (Ha eq_refl).
      rewrite u32_small by nia.
      split_and!; try done; try lia.
      + unfold seg_ok. simpl. split_and!; try done; try lia.
        * rewrite Ha, len_app, len_make by lia. fold F. nia.
        * rewrite Ha. apply coherent_app. exact Hcache.
      + by eexists.
      + rewrite Ha, len_app, len_make by lia. done.
    - exists None, seg. split; [done|]. intros _.
      split_and!; try done; try lia.
      + exists []. by rewrite app_nil_r.
      + fold F. lia. }
  destruct err as [e|]; [by eexists _, _|].
  destruct (Hpad eq_refl) as (Hok1 & Hopen1 & Hid1 & [X1 HX1] & HlenF1 & Hpos1 & Hc1 & Hpad7).
  clear Hpad.
  pose proof Hok1 as (Hbn1 & Hbs1 & Hlen1 & Hlim1 & _).
  rewrite (u32_small (len data)) by lia.
  rewrite (u32_small (currentBlockSize seg1 + len data)) by lia.
  rewrite (u32_small (currentBlockSize seg1 + len data + 7)) by lia.
  destruct (Z.leb_spec (currentBlockSize seg1 + len data + 7) blockSize) as [Hfits|Hlong].
  - (* one chunk *)
    destruct (writeInternal_returns data ChunkTypeFull seg1 Hok1) as [[err seg2] Hw].
    rewrite Hw. unm. destruct err as [e|]; [by eexists _, _|].
    eexists _, _. split; [done|]. intros pos [= <-].
    destruct (writeInternal_ok data ChunkTypeFull seg1 seg2 Hok1) as
      (Hok2 & Hclosed2 & Hid2 & HF2 & Hchunk2 & Hpos2); [lia|nia|done|].
    exists [(ChunkTypeFull, data)].
    cbn [SegmentId BlockNumber ChunkOffset ChunkSize set_ChunkSize length].
    rewrite (u32_small (len data + 7)) by lia.
    split_and!.
    + done.
    + congruence.
    + congruence.
    + exists (X1 ++ chunkBytes ChunkTypeFull data). by rewrite HF2, HX1, <- app_assoc.
    + done.
    + done.
    + lia.
    + lia.
    + rewrite HF2, len_app, chunkBytes_length, HlenF1. lia.
    + left. by eexists.
    + simpl. by split.
    + simpl. by rewrite app_nil_r.
    + unfold writePosition. simpl. unfold chunkHeaderSize.
      destruct (Z.eqb_spec (currentBlockSize seg1 + 7 + len data) blockSize) as [Hfull|Hpart];
        injection Hpos2 as -> ->; [|done].
      destruct (Z.leb_spec blockSize (0 + 7)); [lia|].
      by destruct (Z.leb_spec blockSize (currentBlockSize seg1 + 7 + len data + 7)); [|lia].
    + done.
    + split; [done|]. intros _. lia.
  - (* a chain of chunks *)
    destruct (Write_loop_spec fuel data (len data) 0 seg1) as (r & seg2 & Hloop & Hpost);
      [ done | lia | lia | done | intros _; lia | lia
      | rewrite Z.eqb_refl; lia | lia | lia | unfold len in *; lia | ].
    rewrite Hloop. unm. destruct r as [count|e]; [|by eexists _, _].
    eexists _, _. split; [done|]. intros pos [= <-].
    destruct (Hpost count eq_refl) as
      (cs & -> & Hn & Hshape & Hok2 & Hclosed2 & Hid2 & [X2 HX2] & HlenF2 & Hchunks & Hjoin
       & Hend & Hfills).
    rewrite Z.eqb_refl in Hn, Hshape. destruct Hshape as (first & rest & -> & Hf & Htail).
    exists ((ChunkTypeFirst, first) :: rest).
    cbn [SegmentId BlockNumber ChunkOffset ChunkSize set_ChunkSize].
    rewrite Z.add_0_l. rewrite (u32_small (_ * 7)) by lia.
    rewrite u32_small by lia.
    split_and!.
    + done.
    + congruence.
    + congruence.
    + exists (X1 ++ X2). by rewrite HX2, HX1, <- app_assoc.
    + done.
    + done.
    + lia.
    + lia.
    + rewrite HlenF2, HlenF1. lia.
    + right. by exists first, rest.
    + done.
    + rewrite Hjoin. replace (len data - len data) with 0 by lia. apply sub_all.
    + done.
    + done.
    + split; [lia|]. by intros [=].
Qed.

(** ** Reading a chunk *)

Lemma getCacheKey_eq seg bn :
  0 ≤ bn < 2 ^ 32 → getCacheKey seg bn = bn + (id seg mod 2 ^ 32) * 2 ^ 32.
Proof.
  intros Hbn. unfold getCacheKey, u64. rewrite Z.shiftl_mul_pow2 by lia.
  change (2 ^ 64) with (2 ^ 32 * 2 ^ 32). rewrite Z.mul_mod_distr_r by lia.
  rewrite Z.lor_comm. by apply lor_mul.
Qed.

Lemma getCacheKey_inj seg bn bn' :
  0 ≤ bn < 2 ^ 32 → 0 ≤ bn' < 2 ^ 32 →
  getCacheKey seg bn = getCacheKey seg bn' → bn = bn'.
Proof. intros Hbn Hbn'. rewrite !getCacheKey_eq by done. lia. Qed.

Lemma chunkBytes_header chunkType payload :
  sub (chunkBytes chunkType payload) 0 7 = chunkHeader chunkType payload.
Proof.
  unfold chunkBytes. rewrite sub_app_l by (rewrite ?chunkHeader_length; lia).
  rewrite <- (chunkHeader_length chunkType payload). apply sub_all.
Qed.

Lemma chunkBytes_payload chunkType payload :
  sub (chunkBytes chunkType payload) 7 (len payload) = payload.
Proof.
  unfold chunkBytes. rewrite <- (chunkHeader_length chunkType payload) at 1.
  rewrite <- (Z.add_0_r (len (chunkHeader _ _))). rewrite sub_app_r by lia.
  apply sub_all.
Qed.

Lemma chunkBytes_checked chunkType payload :
  sub (chunkBytes chunkType payload) 4 (3 + len payload) =
    sub (chunkHeader chunkType payload) 4 3 ++ payload.
Proof.
  pose proof (len_nonneg payload).
  rewrite sub_split by lia. change (4 + 3) with 7. rewrite chunkBytes_payload.
  f_equal.
Qed.

Lemma chunkHeader_slices chunkType payload :
  let n := u16 (u32 (len payload)) in
  let rest := [byte_of n; byte_of (Z.shiftr n 8); chunkType] in
  let sum := Update (ChecksumIEEE rest) payload in
  slice (chunkHeader chunkType payload) 4 6 = Return [byte_of n; byte_of (Z.shiftr n 8)] ∧
  slice (chunkHeader chunkType payload) 0 4 =
    Return [byte_of sum; byte_of (Z.shiftr sum 8); byte_of (Z.shiftr sum 16);
            byte_of (Z.shiftr sum 24)] ∧
  at_ (chunkHeader chunkType payload) 6 = Return chunkType ∧
  sub (chunkHeader chunkType payload) 4 3 = rest.
Proof. done. Qed.

Lemma stored_header sum chunkType payload :
  sub (headerOf sum chunkType payload ++ payload) 0 7 = headerOf sum chunkType payload.
Proof. by rewrite sub_app_l by (unfold len; simpl; lia). Qed.

Lemma stored_payload sum chunkType payload :
  sub (headerOf sum chunkType payload ++ payload) 7 (len payload) = payload.
Proof.
  change 7 with (len (headerOf sum chunkType payload) + 0) at 1.
  rewrite sub_app_r by lia. apply sub_all.
Qed.

Lemma stored_checked sum chunkType payload :
  sub (headerOf sum chunkType payload ++ payload) 4 (3 + len payload) =
    sub (headerOf sum chunkType payload) 4 3 ++ payload.
Proof.
  pose proof (len_nonneg payload).
  rewrite sub_split by lia. change (4 + 3) with 7. rewrite stored_payload.
  f_equal.
Qed.

Lemma headerOf_slices sum chunkType payload :
  let n := u16 (u32 (len payload)) in
  slice (headerOf sum chunkType payload) 4 6 = Return [byte_of n; byte_of (Z.shiftr n 8)] ∧
  slice (headerOf sum chunkType payload) 0 4 =
    Return [byte_of sum; byte_of (Z.shiftr sum 8); byte_of (Z.shiftr sum 16);
            byte_of (Z.shiftr sum 24)] ∧
  at_ (headerOf sum chunkType payload) 6 = Return chunkType ∧
  sub (headerOf sum chunkType payload) 4 3 = [byte_of n; byte_of (Z.shiftr n 8); chunkType].
Proof. done. Qed.

Lemma readInternal_loop_stored fuel seg result bh c bn off sum chunkType payload :
  let F := File_contents (fd seg) in
  len F < 2 ^ 32 → 0 ≤ sum < 2 ^ 32 →
  stored_at F bn off sum chunkType payload →
  buffers_ok bh → coherent seg F c →
  ∃ bh' c', buffers_ok bh' ∧ coherent seg F c' ∧
    readInternal_loop (S fuel) seg (len F) result bh c bn off =
      if negb (sum =? ChecksumIEEE (checked chunkType payload))
      then Return (inr ErrInvalidCRC, bh', c')
      else if terminal chunkType
      then Return (inl (result ++ payload,
                        if blockSize <=? off + 7 + len payload + 7
                        then mkChunkPosition (id seg) (bn + 1) 0 0
                        else mkChunkPosition (id seg) bn (off + 7 + len payload) 0),
                   bh', c')
      else readInternal_loop fuel seg (len F) (result ++ payload) bh' c' (bn + 1) 0.
Proof.
  intros F HF Hsum (Hbn & Hoff & Hfit & Hin & Hbytes) (Hblk & Hhdr) Hcoh.
  pose proof blockSize_range as Hblock. pose proof (len_nonneg payload) as Hpay.
  unfold chunkHeaderSize in *.
  assert (0 ≤ bn * blockSize) as Hbn0 by nia.
  assert (bn + 1 < 2 ^ 32) as Hbn1 by nia.
  cbn [readInternal_loop].
  rewrite (u32_small (bn * blockSize)) by lia.
  set (size := if len F <? blockSize + bn * blockSize
               then len F - bn * blockSize else blockSize).
  assert (off + 7 + len payload ≤ size ≤ blockSize ∧ bn * blockSize + size ≤ len F)
    as (Hsize & Hsize').
  { subst size. destruct (Z.ltb_spec (len F) (blockSize + bn * blockSize)); lia. }
  destruct (Z.leb_spec size off) as [?|_]; [lia|].
  (* what the block buffer holds once the block is loaded *)
  assert (∀ B, sub B 0 size = sub F (bn * blockSize) size →
               sub B off (7 + len payload) = (headerOf sum chunkType payload ++ payload)) as Hloaded.
  { intros B Hsub. rewrite <- Hbytes.
    rewrite <- (sub_sub F (bn * blockSize) size off) by lia.
    rewrite <- Hsub. rewrite sub_sub by lia. done. }
  match goal with
  | |- context [@mbind _ _ (option error * blockAndHeader * option Cache)%type _ ?K _] =>
      set (k := K)
  end.
  (* the chunk is taken from the buffer *)
  assert (∀ bh1 c1,
            len (block bh1) = blockSize → len (header_ bh1) = 7 →
            sub (block bh1) off (7 + len payload) = (headerOf sum chunkType payload ++ payload) →
            k (None, bh1, c1) =
              let bh' := mkBlockAndHeader (block bh1) (headerOf sum chunkType payload) in
              if negb (sum =? ChecksumIEEE (checked chunkType payload))
              then Return (inr ErrInvalidCRC, bh', c1)
              else if terminal chunkType
              then Return (inl (result ++ payload,
                                if blockSize <=? off + 7 + len payload + 7
                                then mkChunkPosition (id seg) (bn + 1) 0 0
                                else mkChunkPosition (id seg) bn (off + 7 + len payload) 0),
                           bh', c1)
              else readInternal_loop fuel seg (len F) (result ++ payload) bh' c1 (bn + 1) 0)
    as Hk.
  { intros bh1 c1 HB Hh HBbytes. subst k. cbv beta iota zeta. unfold chunkHeaderSize.
    cbn [block header_].
    destruct (headerOf_slices sum chunkType payload) as (Hs46 & Hs04 & Hat6 & Hs43).
    assert (u16 (u32 (len payload)) = len payload) as Hn.
    { unfold u16, u32. rewrite (Z.mod_small (len payload) (2 ^ 32)) by lia.
      apply Z.mod_small. lia. }
    rewrite Hn in Hs46, Hs43.
    assert (sub (block bh1) off 7 = headerOf sum chunkType payload) as P1.
    { rewrite <- stored_header, <- HBbytes. rewrite sub_sub by lia.
      by rewrite Z.add_0_r. }
    assert (sub (block bh1) (off + 7) (len payload) = payload) as P2.
    { rewrite <- (stored_payload sum chunkType payload) at 2. rewrite <- HBbytes.
      by rewrite sub_sub by lia. }
    assert (sub (block bh1) (off + 4) (3 + len payload)
            = sub (headerOf sum chunkType payload) 4 3 ++ payload) as P3.
    { rewrite <- stored_checked, <- HBbytes. by rewrite sub_sub by lia. }
    rewrite !(i64_small (off + 7)) by lia.
    rewrite slice_sub by lia. replace (off + 7 - off) with 7 by lia. rewrite P1.
    unm. rewrite copy_same_length by (unfold len in Hh; simpl; lia).
    rewrite Hs46. rewrite Uint16_bytes by lia.
    rewrite !(i64_small (off + 7 + len payload)), !(i64_small (off + 4)) by lia.
    rewrite slice_sub by lia. replace (off + 7 + len payload - (off + 7)) with (len payload)
      by lia. rewrite P2.
    rewrite slice_sub by lia.
    replace (off + 7 + len payload - (off + 4)) with (3 + len payload) by lia.
    rewrite P3, Hs43, Hs04.
    rewrite Uint32_bytes by done.
    unfold checked. rewrite Hn.
    destruct (sum =? ChecksumIEEE _); cbn [negb]; [|done].
    rewrite Hat6. fold (terminal chunkType).
    rewrite (i64_small (off + 7 + len payload + 7)) by lia.
    rewrite (u32_small (bn + 1)) by lia. done. }
  assert (size = blockSize → (bn + 1) * blockSize ≤ len F) as Hwhole.
  { subst size. destruct (Z.ltb_spec (len F) (blockSize + bn * blockSize)); lia. }
  (* the block is read from the file *)
  assert (slice (block bh) 0 size = Return (sub (block bh) 0 size)) as Hdst.
  { rewrite slice_sub by lia. by rewrite Z.sub_0_r. }
  assert (len (sub (block bh) 0 size) = size) as Hdstlen by (apply len_sub; lia).
  pose proof (File_ReadAt_within os_ok (fd seg) size (bn * blockSize)) as Hread.
  fold F in Hread. specialize (Hread ltac:(lia) ltac:(lia) ltac:(lia)).
  set (got := sub F (bn * blockSize) size) in *.
  assert (len got = size) as Hgot by (subst got; apply len_sub; lia).
  set (B := copy (sub (block bh) 0 size) got ++ drop (Z.to_nat size) (block bh)).
  assert (B = got ++ drop (Z.to_nat size) (block bh)) as HB.
  { subst B. rewrite copy_same_length; [done|]. unfold len in *. lia. }
  assert (len B = blockSize) as HBlen.
  { rewrite HB, len_app, Hgot, len_drop. lia. }
  assert (sub B 0 size = got) as HBsub.
  { rewrite HB. rewrite sub_app_l by lia. rewrite <- Hgot. apply sub_all. }
  destruct c as [c0|].
  - destruct (Cache_Get c0 (getCacheKey seg bn)) as [[cachedBlock|] c1] eqn:Hget.
    + (* cache hit *)
      destruct (Hcoh c0 bn cachedBlock eq_refl) as [Hfull Hv]; [lia|by rewrite Hget|].
      assert (size = blockSize) as Hsz.
      { subst size. destruct (Z.ltb_spec (len F) (blockSize + bn * blockSize)); lia. }
      assert (len cachedBlock = blockSize) as Hcl by (rewrite Hv; apply len_sub; lia).
      exists (mkBlockAndHeader cachedBlock (headerOf sum chunkType payload)), (Some c1).
      split_and!.
      * by split.
      * intros c' bn' v' [= <-] Hbn' Hg. apply (Hcoh c0 bn' v' eq_refl Hbn').
        apply (Cache_Get_Get lru_ok c0 (getCacheKey seg bn)). by rewrite Hget.
      * unm. rewrite copy_same_length by (unfold len in *; lia).
        rewrite Hk; [done|done|done|]. apply Hloaded. cbn [block].
        rewrite Hsz. rewrite <- Hcl at 1. rewrite sub_all.
        subst got. by rewrite Hsz.
    + (* cache miss *)
      rewrite Hdst. unm. rewrite Hdstlen, Hread. fold B.
      destruct (Z.eqb_spec size blockSize) as [Hsz|Hsz].
      * exists (mkBlockAndHeader B (headerOf sum chunkType payload)),
          (Some (Cache_Add c1 (getCacheKey seg bn) B)).
        split_and!.
        -- by split.
        -- intros c' bn' v' [= <-] Hbn' Hg.
           apply (Cache_Get_Add lru_ok) in Hg as [[Hkey ->]|Hg].
           ++ apply getCacheKey_inj in Hkey; [|lia..]. subst bn'.
              split; [by apply Hwhole|].
              transitivity got; [|subst got; by rewrite Hsz].
              rewrite <- HBsub, Hsz, <- HBlen. symmetry. apply sub_all.
           ++ apply (Hcoh c0 bn' v' eq_refl Hbn').
              apply (Cache_Get_Get lru_ok c0 (getCacheKey seg bn)). by rewrite Hget.
        -- cbn [block]. rewrite copy_make by done.
           rewrite Hk; [done|done|done|]. apply Hloaded. by cbn [block].
      * exists (mkBlockAndHeader B (headerOf sum chunkType payload)), (Some c1).
        split_and!.
        -- by split.
        -- intros c' bn' v' [= <-] Hbn' Hg. apply (Hcoh c0 bn' v' eq_refl Hbn').
           apply (Cache_Get_Get lru_ok c0 (getCacheKey seg bn)). by rewrite Hget.
        -- rewrite Hk; [done|done|done|]. apply Hloaded. by cbn [block].
  - (* no cache *)
    rewrite Hdst. unm. rewrite Hdstlen, Hread. fold B.
    exists (mkBlockAndHeader B (headerOf sum chunkType payload)), None.
    split_and!.
    + by split.
    + by intros c' bn' v' [=].
    + rewrite Hk; [done|done|done|]. apply Hloaded. by cbn [block].
Qed.

Lemma readInternal_loop_chunk fuel seg result bh c bn off chunkType payload :
  let F := File_contents (fd seg) in
  len F < 2 ^ 32 →
  chunk_at F bn off chunkType payload →
  buffers_ok bh → coherent seg F c →
  ∃ bh' c', buffers_ok bh' ∧ coherent seg F c' ∧
    readInternal_loop (S fuel) seg (len F) result bh c bn off =
      if terminal chunkType
      then Return (inl (result ++ payload,
                        if blockSize <=? off + 7 + len payload + 7
                        then mkChunkPosition (id seg) (bn + 1) 0 0
                        else mkChunkPosition (id seg) bn (off + 7 + len payload) 0),
                   bh', c')
      else readInternal_loop fuel seg (len F) (result ++ payload) bh' c' (bn + 1) 0.
Proof.
  intros F HF Hchunk Hbh Hcoh.
  set (n := u16 (u32 (len payload))).
  set (sum := Update (ChecksumIEEE [byte_of n; byte_of (Z.shiftr n 8); chunkType]) payload).
  assert (sum = ChecksumIEEE (checked chunkType payload)) as Hsum
    by apply (Update_ChecksumIEEE crc32_ok).
  destruct (readInternal_loop_stored fuel seg result bh c bn off sum chunkType payload HF)
    as (bh' & c' & Hbh' & Hc' & Hloop); [|exact Hchunk|done|done|].
  { rewrite Hsum. apply (ChecksumIEEE_range crc32_ok). }
  exists bh', c'. split_and!; [done..|].
  fold F in Hloop. rewrite Hloop. by rewrite <- Hsum, Z.eqb_refl.
Qed.

(** ** Reading a record *)

Lemma readInternal_loop_chain cs fuel seg result bh c bn off :
  let F := File_contents (fd seg) in
  len F < 2 ^ 32 →
  chunks_at F bn off cs → chained cs →
  buffers_ok bh → coherent seg F c →
  (length cs ≤ fuel)%nat →
  ∃ bh' c', buffers_ok bh' ∧ coherent seg F c' ∧
    readInternal_loop fuel seg (len F) result bh c bn off =
      Return (inl (result ++ mjoin cs.*2,
                   mkChunkPosition (id seg) (endOf bn off cs).1 (endOf bn off cs).2 0),
              bh', c').
Proof.
  intros F HF. subst F. revert fuel result bh c bn off.
  induction cs as [|[chunkType payload] cs IH];
    intros fuel result bh c bn off Hchunks Hchained Hbh Hc Hfuel; [done|].
  destruct fuel as [|fuel]; [simpl in Hfuel; lia|].
  destruct Hchunks as [Hchunk Hchunks].
  destruct (readInternal_loop_chunk fuel seg result bh c bn off chunkType payload
              HF Hchunk Hbh Hc) as (bh1 & c1 & Hbh1 & Hc1 & ->).
  destruct cs as [|c2 cs].
  - simpl in Hchained. rewrite Hchained. exists bh1, c1. split_and!; [done..|].
    simpl. rewrite app_nil_r. unfold chunkHeaderSize.
    by destruct (blockSize <=? off + 7 + len payload + 7).
  - destruct Hchained as [-> Hchained].
    destruct (IH fuel (result ++ payload) bh1 c1 (bn + 1) 0 Hchunks Hchained Hbh1 Hc1)
      as (bh' & c' & Hbh' & Hc' & ->); [simpl in *; lia|].
    exists bh', c'. split_and!; [done..|].
    change (mjoin ((chunkType, payload) :: c2 :: cs).*2)
      with (payload ++ mjoin (c2 :: cs).*2).
    by rewrite app_assoc.
Qed.

Lemma buffers_ok_new : buffers_ok newBlockAndHeader.
Proof.
  pose proof blockSize_range. split; simpl; unfold chunkHeaderSize; by rewrite len_make by lia.
Qed.

Lemma readInternal_record fuel seg bn off cs :
  let F := File_contents (fd seg) in
  seg_ok seg → closed seg = false →
  chunks_at F bn off cs → chained cs → (length cs ≤ fuel)%nat →
  ∃ seg', seg_ok seg' ∧ untouched seg seg' ∧
    readInternal fuel seg bn off =
      Return (inl (mjoin cs.*2,
                   mkChunkPosition (id seg) (endOf bn off cs).1 (endOf bn off cs).2 0),
              seg').
Proof.
  intros F Hok Hopen Hchunks Hchained Hfuel.
  pose proof Hok as (Hbn & Hbs & Hlen & Hlim & Hh & Hpool & Hcache).
  pose proof blockSize_range as Hblock.
  assert (len F < 2 ^ 32) as HF by (subst F; nia).
  unfold readInternal. rewrite Hopen.
  assert (∃ bh pool, blockPool_Get seg = (bh, set_blockPool pool seg) ∧
                     buffers_ok bh ∧ Forall buffers_ok pool) as (bh & pool & -> & Hbh & Hpool').
  { unfold blockPool_Get. destruct (blockPool seg) as [|bh pool] eqn:Hp.
    - exists newBlockAndHeader, []. split_and!; [|apply buffers_ok_new|done].
      destruct seg. simpl in *. by rewrite Hp.
    - apply Forall_cons in Hpool as [Hbh Hpool]. by exists bh, pool. }
  assert (Size (set_blockPool pool seg) = len F) as -> by (by apply Size_ok).
  destruct (readInternal_loop_chain cs fuel (set_blockPool pool seg) [] bh (cache seg)
              bn off HF Hchunks Hchained Hbh Hcache Hfuel)
    as (bh' & c' & Hbh' & Hc' & Hloop).
  change (cache (set_blockPool pool seg)) with (cache seg).
  change (File_contents (fd (set_blockPool pool seg))) with F in Hloop.
  rewrite Hloop. unm. eexists. split_and!; [| |done].
  - unfold seg_ok, blockPool_Put. simpl.
    split_and!; [lia|lia|lia|done|done|done|by constructor|exact Hc'].
  - done.
Qed.

Lemma readInternal_EOF fuel seg bn off :
  let F := File_contents (fd seg) in
  seg_ok seg → closed seg = false → (1 ≤ fuel)%nat →
  0 ≤ bn → bn * blockSize < 2 ^ 32 →
  len F - bn * blockSize ≤ off → blockSize ≤ off ∨ len F < blockSize + bn * blockSize →
  ∃ seg', seg_ok seg' ∧ untouched seg seg' ∧
    readInternal fuel seg bn off = Return (inr io_EOF, seg').
Proof.
  intros F Hok Hopen Hfuel Hbn0 Hbn1 Hoff Hcase.
  pose proof Hok as (Hbn & Hbs & Hlen & Hlim & Hh & Hpool & Hcache).
  pose proof blockSize_range as Hblock.
  unfold readInternal. rewrite Hopen.
  assert (∃ bh pool, blockPool_Get seg = (bh, set_blockPool pool seg) ∧
                     buffers_ok bh ∧ Forall buffers_ok pool) as (bh & pool & -> & Hbh & Hpool').
  { unfold blockPool_Get. destruct (blockPool seg) as [|bh pool] eqn:Hp.
    - exists newBlockAndHeader, []. split_and!; [|apply buffers_ok_new|done].
      destruct seg. simpl in *. by rewrite Hp.
    - apply Forall_cons in Hpool as [Hbh Hpool]. by exists bh, pool. }
  assert (Size (set_blockPool pool seg) = len F) as -> by (by apply Size_ok).
  destruct fuel as [|fuel]; [lia|]. cbn [readInternal_loop].
  rewrite (u32_small (bn * blockSize)) by lia.
  destruct (Z.ltb_spec (len F) (blockSize + bn * blockSize)).
  - destruct (Z.leb_spec (len F - bn * blockSize) off); [|lia].
    unm. eexists. split_and!; [| |done]; [|done].
    unfold seg_ok, blockPool_Put. simpl.
    split_and!; [lia|lia|lia|done|done|done|by constructor|exact Hcache].
  - destruct (Z.leb_spec blockSize off); [|lia].
    unm. eexists. split_and!; [| |done]; [|done].
    unfold seg_ok, blockPool_Put. simpl.
    split_and!; [lia|lia|lia|done|done|done|by constructor|exact Hcache].
Qed.

(** ** Records one behind the other *)

Lemma tailChunks_length cs :
  tailChunks cs → Z.of_nat (length cs) ≤ len (mjoin cs.*2).
Proof.
  intros (middle & last & -> & Hall). induction middle as [|m middle IH].
  - simpl. apply Forall_cons in Hall as [Hl _]. rewrite app_nil_r. lia.
  - rewrite fmap_cons. simpl app in Hall |- *.
    apply Forall_cons in Hall as [Hm Hall]. specialize (IH Hall).
    change (mjoin ((ChunkTypeMiddle, m) :: ?l).*2) with (m ++ mjoin l.*2).
    rewrite len_app. simpl length. lia.
Qed.

Lemma chunksOf_length cs :
  chunksOf cs → (length cs ≤ length (mjoin cs.*2) + 1)%nat.
Proof.
  intros [(data & ->)|(first & rest & -> & Hf & Htail)]; [simpl; lia|].
  apply tailChunks_length in Htail.
  change (mjoin ((ChunkTypeFirst, first) :: rest).*2) with (first ++ mjoin rest.*2).
  rewrite length_app. unfold len in *. simpl length. lia.
Qed.

Lemma record_at_app F X pos data next :
  record_at F pos data next → record_at (F ++ X) pos data next.
Proof.
  intros (cs & Hcs & Hchunks & Hjoin & Hnext). exists cs.
  split_and!; [done| |done..]. by apply chunks_at_app.
Qed.

Lemma records_at_app F X pos recs next :
  records_at F pos recs next → records_at (F ++ X) pos recs next.
Proof.
  revert pos. induction recs as [|[p data] recs IH]; intros pos; simpl; [done|].
  intros (-> & mid & Hrec & Hrecs). split; [done|]. exists mid.
  split; [by apply record_at_app|by apply IH].
Qed.

Lemma records_at_snoc F pos recs mid data next :
  records_at F pos recs mid → record_at F mid data next →
  records_at F pos (recs ++ [(mid, data)]) next.
Proof.
  revert pos. induction recs as [|[p d] recs IH]; intros pos; simpl.
  - intros -> Hrec. split; [done|]. by exists next.
  - intros (-> & mid' & Hrec' & Hrecs) Hrec. split; [done|]. exists mid'.
    split; [done|]. by apply IH.
Qed.

Lemma Write_record fuel data seg pos seg' :
  seg_ok seg → closed seg = false → roomFor [data] seg → (length data ≤ fuel)%nat →
  Write fuel data seg = Return (inl pos, seg') →
  seg_ok seg' ∧ closed seg' = false ∧ id seg' = id seg ∧
  (∃ X, File_contents (fd seg') = File_contents (fd seg) ++ X) ∧
  len (File_contents (fd seg')) ≤ len (File_contents (fd seg)) + 2 * len data + 21 ∧
  SegmentId pos = id seg ∧ placeOf pos = writePosition seg ∧
  record_at (File_contents (fd seg')) (writePosition seg) data (writePosition seg').
Proof.
  intros Hok Hopen Hroom Hfuel Hw.
  destruct (Write_spec fuel data seg Hok Hopen Hroom Hfuel) as (r & seg1 & Hw' & Hpost).
  rewrite Hw in Hw'. injection Hw' as <- <-.
  destruct (Hpost pos eq_refl) as
    (cs & Hok' & Hopen' & Hid' & HX & Hsid & Hplace & Hsize & Hn & Hlen & Hcs & Hchunks
     & Hjoin & Hend & _).
  split_and!; try done.
  - rewrite Hlen, Hsize. pose proof blockSize_range.
    destruct (Z.leb_spec blockSize (currentBlockSize seg + 7)); lia.
  - exists cs. rewrite <- Hplace. by split_and!.
Qed.

Lemma WriteAll_records fuel datas seg poss seg' :
  seg_ok seg → closed seg = false → roomFor datas seg →
  Forall (λ data, (length data ≤ fuel)%nat) datas →
  WriteAll fuel datas seg = Return (inl poss, seg') →
  seg_ok seg' ∧ closed seg' = false ∧ id seg' = id seg ∧
  (∃ X, File_contents (fd seg') = File_contents (fd seg) ++ X) ∧
  length poss = length datas ∧
  Forall (λ pos, SegmentId pos = id seg) poss ∧
  records_at (File_contents (fd seg')) (writePosition seg) (zip (placeOf <$> poss) datas)
             (writePosition seg').
Proof.
  revert seg poss seg'. induction datas as [|data datas IH];
    intros seg poss seg' Hok Hopen Hroom Hfuel Hw; simpl in Hw.
  - injection Hw as <- <-. split_and!; try done. exists []. by rewrite app_nil_r.
  - apply Forall_cons in Hfuel as [Hfuel1 Hfuel].
    destruct (Write fuel data seg) as [[[pos|e] seg1]| |] eqn:Hw1; try done.
    unm. destruct (Write_record fuel data seg pos seg1 Hok Hopen
                     (roomFor_head _ _ _ Hroom) Hfuel1 Hw1)
      as (Hok1 & Hopen1 & Hid1 & [X1 HX1] & Hgrow & Hsid & Hplace & Hrec).
    destruct (WriteAll fuel datas seg1) as [[[poss1|e] seg2]| |] eqn:Hw2; try done.
    injection Hw as <- <-.
    destruct (IH seg1 poss1 seg2 Hok1 Hopen1) as
      (Hok2 & Hopen2 & Hid2 & [X2 HX2] & Hlen2 & Hsids & Hrecs); [|done|done|].
    { exact (roomFor_cons data datas seg seg1 Hok Hok1 Hgrow Hroom). }
    split_and!; try done.
    + congruence.
    + exists (X1 ++ X2). by rewrite HX2, HX1, <- app_assoc.
    + simpl. by rewrite Hlen2.
    + constructor; [done|]. by rewrite <- Hid1.
    + simpl. split; [done|]. exists (writePosition seg1).
      split; [|done]. rewrite HX2. by apply record_at_app.
Qed.

Lemma Next_record fuel seg pos data next :
  seg_ok seg → closed seg = false →
  record_at (File_contents (fd seg)) pos data next → (length data + 1 ≤ fuel)%nat →
  ∃ size seg',
    seg_ok seg' ∧ untouched seg seg' ∧
    Next fuel (mkSegmentReader pos.1 pos.2) seg =
      Return (inl (data, mkChunkPosition (id seg) pos.1 pos.2 size),
              mkSegmentReader next.1 next.2, seg').
Proof.
  intros Hok Hopen (cs & Hcs & Hchunks & Hjoin & Hnext) Hfuel.
  destruct (readInternal_record fuel seg pos.1 pos.2 cs Hok Hopen Hchunks)
    as (seg' & Hok' & Hsame & Hread).
  { by apply chunksOf_chained. }
  { pose proof (chunksOf_length cs Hcs). rewrite Hjoin in *. lia. }
  unfold Next. rewrite Hopen. cbn [blockNumber chunkOffset]. rewrite Hread. unm.
  rewrite Hjoin, <- Hnext. eexists _, seg'. split_and!; [done|done|]. reflexivity.
Qed.

Lemma NextAll_records fuel seg pos recs next :
  seg_ok seg → closed seg = false →
  records_at (File_contents (fd seg)) pos recs next →
  Forall (λ r, (length r.2 + 1 ≤ fuel)%nat) recs →
  ∃ items seg',
    seg_ok seg' ∧ untouched seg seg' ∧
    NextAll fuel (length recs) (mkSegmentReader pos.1 pos.2) seg =
      Return (inl items, mkSegmentReader next.1 next.2, seg') ∧
    items.*1 = recs.*2 ∧ placeOf <$> items.*2 = recs.*1 ∧
    Forall (λ item, SegmentId item.2 = id seg) items.
Proof.
  revert seg pos. induction recs as [|[p data] recs IH]; intros seg pos Hok Hopen Hrecs Hfuel.
  - simpl in Hrecs. subst next. exists [], seg. by split_and!.
  - destruct Hrecs as (-> & mid & Hrec & Hrecs).
    apply Forall_cons in Hfuel as [Hfuel1 Hfuel]. simpl in Hfuel1.
    destruct (Next_record fuel seg pos data mid Hok Hopen Hrec Hfuel1)
      as (size & seg1 & Hok1 & Hsame1 & Hnext).
    pose proof Hsame1 as (Hid1 & Hfd1 & _ & _ & Hclosed1 & _).
    destruct (IH seg1 mid Hok1) as (items & seg2 & Hok2 & Hsame2 & Hall & H1 & H2 & H3);
      [congruence|by rewrite Hfd1|done|].
    exists ((data, mkChunkPosition (id seg) pos.1 pos.2 size) :: items), seg2.
    split_and!.
    + done.
    + destruct Hsame1 as (? & ? & ? & ? & ? & ?), Hsame2 as (? & ? & ? & ? & ? & ?).
      unfold untouched. split_and!; congruence.
    + cbn [NextAll length]. rewrite Hnext. unm. by rewrite Hall.
    + rewrite !fmap_cons. by rewrite H1.
    + rewrite !fmap_cons. rewrite H2. by destruct pos.
    + constructor; [done|]. by rewrite <- Hid1.
Qed.

Lemma readInternal_end fuel seg :
  seg_ok seg → closed seg = false → (1 ≤ fuel)%nat →
  ∃ seg', seg_ok seg' ∧ untouched seg seg' ∧
    readInternal fuel seg (writePosition seg).1 (writePosition seg).2
      = Return (inr io_EOF, seg').
Proof.
  intros Hok Hopen Hfuel.
  pose proof Hok as (Hbn & Hbs & Hlen & Hlim & _). pose proof blockSize_range as Hblock.
  unfold writePosition, chunkHeaderSize.
  destruct (Z.leb_spec blockSize (currentBlockSize seg + 7)); cbn [fst snd];
    apply readInternal_EOF; try done; try nia.
Qed.

(** ** Opening and closing *)

Lemma openSegmentFile_opens dirPath extName id0 cache0 f n :
  os_OpenFile (SegmentFileName dirPath extName id0) = inl f →
  File_Seek_End f = (n, None) →
  len (File_contents f) + blockSize < 2 ^ 32 →
  coherent (mkSegment id0 f 0 0 false cache0 [] []) (File_contents f) cache0 →
  ∃ seg, openSegmentFile dirPath extName id0 cache0 = Return (inl seg) ∧
         seg_ok seg ∧ closed seg = false ∧ id seg = id0 ∧ fd seg = f ∧
         cache seg = cache0 ∧
         currentBlockNumber seg = len (File_contents f) / blockSize ∧
         currentBlockSize seg = len (File_contents f) mod blockSize.
Proof.
  intros Hopen Hseek Hroom Hcache. unfold openSegmentFile. rewrite Hopen, Hseek.
  pose proof (File_Seek_End_length os_ok f) as Hn. rewrite Hseek in Hn.
  simpl in Hn. specialize (Hn eq_refl). subst n.
  pose proof blockSize_range as Hblock. pose proof (len_nonneg (File_contents f)) as HF.
  rewrite Z.quot_div_nonneg, Z.rem_mod_nonneg by lia.
  assert (blockSize ≠ 0) as Hne by lia.
  assert (0 < blockSize) as Hpos by lia.
  pose proof (Z.div_mod (len (File_contents f)) blockSize Hne) as Hdm.
  pose proof (Z.mod_pos_bound (len (File_contents f)) blockSize Hpos) as Hmod.
  assert (0 ≤ len (File_contents f) / blockSize) as Hdiv by (apply Z.div_pos; lia).
  rewrite !u32_small by nia.
  eexists. split; [done|]. unfold seg_ok. simpl.
  split_and!; try done; try lia; try nia.
Qed.


(** ** Damaged chunks and reads behind the end *)




(** ** What a user of the segment can rely on *)

(** X4: Write on an open segment that is sound and has room returns (it
    neither panics nor loops on); if it returns a position, the segment is
    sound again, still open and of the same id, the file has its former
    contents with something appended, and Size is the length of the file. *)
Theorem Write_keeps_the_segment_sound fuel data seg :
  seg_ok seg → closed seg = false → roomFor [data] seg → (length data ≤ fuel)%nat →
  ∃ r seg',
    Write fuel data seg = Return (r, seg') ∧
    ∀ pos, r = inl pos →
      seg_ok seg' ∧ closed seg' = false ∧ id seg' = id seg ∧
      Size seg' = len (File_contents (fd seg')) ∧
      ∃ X, File_contents (fd seg') = File_contents (fd seg) ++ X.
Proof.
  intros Hok Hopen Hroom Hfuel.
  destruct (Write_spec fuel data seg Hok Hopen Hroom Hfuel) as (r & seg' & Hw & Hpost).
  exists r, seg'. split; [done|]. intros pos ->.
  destruct (Hpost pos eq_refl) as (cs & Hok' & Hopen' & Hid' & HX & _).
  split_and!; [done..|by apply Size_ok|done].
Qed.

(** X5: the position Write returns is where the record starts: in the
    current block behind what is written, or at the start of the next block
    if fewer than eight bytes are left of the current one, which are then
    written as padding.  The record is one Full chunk if it fits into the
    block with its header, and else a First chunk, Middle chunks and a Last
    chunk, one per block, each but the last ending with its block.  ChunkSize
    is the length of the record and seven bytes per chunk, and the file grows
    by that and the padding. *)
Theorem Write_position_and_chunks fuel data seg pos seg' :
  seg_ok seg → closed seg = false → roomFor [data] seg → (length data ≤ fuel)%nat →
  Write fuel data seg = Return (inl pos, seg') →
  let padding := if blockSize <=? currentBlockSize seg + 7
                 then blockSize - currentBlockSize seg else 0 in
  SegmentId pos = id seg ∧
  placeOf pos = writePosition seg ∧
  0 ≤ padding ≤ 7 ∧
  ∃ cs,
    chunksOf cs ∧ mjoin cs.*2 = data ∧
    (ChunkOffset pos + 7 + len data ≤ blockSize ↔ cs = [(ChunkTypeFull, data)]) ∧
    chunks_at (File_contents (fd seg')) (BlockNumber pos) (ChunkOffset pos) cs ∧
    fills (ChunkOffset pos) cs ∧
    ChunkSize pos = len data + 7 * Z.of_nat (length cs) ∧
    len (File_contents (fd seg')) = len (File_contents (fd seg)) + padding + ChunkSize pos.
Proof.
  intros Hok Hopen Hroom Hfuel Hw padding.
  destruct (Write_spec fuel data seg Hok Hopen Hroom Hfuel) as (r & seg1 & Hw' & Hpost).
  rewrite Hw in Hw'. injection Hw' as <- <-.
  destruct (Hpost pos eq_refl) as
    (cs & Hok' & Hopen' & Hid' & HX & Hsid & Hplace & Hsize & Hn & Hlen & Hcs & Hchunks
     & Hjoin & Hend & Hfills & Hfull).
  pose proof blockSize_range. destruct Hok as (_ & Hbs & _).
  split_and!; [done|done|..].
  - subst padding. destruct (Z.leb_spec blockSize (currentBlockSize seg + 7)); lia.
  - subst padding. destruct (Z.leb_spec blockSize (currentBlockSize seg + 7)); lia.
  - exists cs. by split_and!.
Qed.

(** X6: what Write has stored, Read returns: called with the block and the
    offset of the position that Write returned, it yields the record, at once
    and after any number of further records were written. *)
Theorem Write_then_Read fuel data more seg pos seg1 poss seg2 :
  seg_ok seg → closed seg = false → roomFor (data :: more) seg →
  (length data + 1 ≤ fuel)%nat → Forall (λ d, (length d ≤ fuel)%nat) more →
  Write fuel data seg = Return (inl pos, seg1) →
  WriteAll fuel more seg1 = Return (inl poss, seg2) →
  ∃ seg3,
    Read fuel seg2 (BlockNumber pos) (ChunkOffset pos) = Return (inl data, seg3) ∧
    seg_ok seg3 ∧ untouched seg2 seg3.
Proof.
  intros Hok Hopen Hroom Hfuel Hfuels Hw Hws.
  destruct (Write_record fuel data seg pos seg1 Hok Hopen (roomFor_head _ _ _ Hroom)
              ltac:(lia) Hw)
    as (Hok1 & Hopen1 & Hid1 & HX1 & Hgrow & Hsid & Hplace & Hrec).
  destruct (WriteAll_records fuel more seg1 poss seg2 Hok1 Hopen1
              (roomFor_cons data more seg seg1 Hok Hok1 Hgrow Hroom) Hfuels Hws)
    as (Hok2 & Hopen2 & Hid2 & [X2 HX2] & _).
  apply (record_at_app _ X2) in Hrec. rewrite <- HX2, <- Hplace in Hrec.
  destruct Hrec as (cs & Hcs & Hchunks & Hjoin & Hnext).
  destruct (readInternal_record fuel seg2 (BlockNumber pos) (ChunkOffset pos) cs
              Hok2 Hopen2 Hchunks) as (seg3 & Hok3 & Hsame & Hread).
  { by apply chunksOf_chained. }
  { pose proof (chunksOf_length cs Hcs). rewrite Hjoin in *. lia. }
  exists seg3. split_and!; [|done..].
  unfold Read. rewrite Hread. unm. by rewrite Hjoin.
Qed.

(** X7: a reader that starts where the first of a list of records was
    written (for a segment on an empty file, the reader that NewReader
    makes) is given by Next the records in the order in which they were
    written, each with the segment id, the block and the offset that Write
    returned for it, and io.EOF after the last. *)
Theorem Next_replays_the_writes fuel datas seg poss seg' :
  seg_ok seg → closed seg = false → roomFor datas seg →
  (1 ≤ fuel)%nat → Forall (λ d, (length d + 1 ≤ fuel)%nat) datas →
  WriteAll fuel datas seg = Return (inl poss, seg') →
  let start := mkSegmentReader (writePosition seg).1 (writePosition seg).2 in
  (currentBlockNumber seg = 0 → currentBlockSize seg = 0 → start = NewReader seg') ∧
  ∃ items segReader seg1,
    NextAll fuel (length datas) start seg' = Return (inl items, segReader, seg1) ∧
    items.*1 = datas ∧
    placeOf <$> items.*2 = placeOf <$> poss ∧
    Forall (λ item, SegmentId item.2 = id seg) items ∧
    Forall (λ pos, SegmentId pos = id seg) poss ∧
    ∃ seg2, Next fuel segReader seg1 = Return (inr io_EOF, segReader, seg2).
Proof.
  intros Hok Hopen Hroom Hfuel1 Hfuel Hws start.
  pose proof blockSize_range as Hblock.
  split.
  { intros Hbn Hbs. subst start. unfold writePosition, NewReader, chunkHeaderSize.
    rewrite Hbn, Hbs. by destruct (Z.leb_spec blockSize (0 + 7)); [lia|]. }
  destruct (WriteAll_records fuel datas seg poss seg' Hok Hopen Hroom) as
    (Hok' & Hopen' & Hid' & _ & Hlen & Hsids & Hrecs); [|done|].
  { eapply Forall_impl; [done|]. simpl. lia. }
  assert ((zip (placeOf <$> poss) datas).*2 = datas) as Hsnd
    by (apply snd_zip; rewrite length_fmap; lia).
  assert ((zip (placeOf <$> poss) datas).*1 = placeOf <$> poss) as Hfst
    by (apply fst_zip; rewrite length_fmap; lia).
  destruct (NextAll_records fuel seg' (writePosition seg) _ (writePosition seg')
              Hok' Hopen' Hrecs)
    as (items & seg1 & Hok1 & Hsame1 & Hall & H1 & H2 & H3).
  { rewrite <- Hsnd in Hfuel. apply Forall_fmap in Hfuel. exact Hfuel. }
  rewrite length_zip, length_fmap, Hlen, Nat.min_id in Hall.
  exists items, (mkSegmentReader (writePosition seg').1 (writePosition seg').2), seg1.
  split_and!; [done|congruence|congruence| |done|].
  - eapply Forall_impl; [done|]. simpl. congruence.
  - destruct Hsame1 as (Hi & Hf & Hn & Hs & Hc & Hh).
    destruct (readInternal_end fuel seg1 Hok1 ltac:(congruence) Hfuel1)
      as (seg2 & Hok2 & Hsame2 & Hread).
    assert (writePosition seg1 = writePosition seg') as Hwp
      by (unfold writePosition; by rewrite Hn, Hs).
    rewrite Hwp in Hread.
    exists seg2. unfold Next. rewrite Hc, Hopen'. cbn [blockNumber chunkOffset].
    rewrite Hread. done.
Qed.

(** X9: openSegmentFile hands on the error of os.OpenFile and panics if the
    Seek fails; on a file of less than 4 GB, with no cache or with one that
    holds under the keys of the segment nothing but blocks of the file, it
    returns an open segment that is sound, whose Size is the length of the
    file and whose counters are those of any sound segment on that file: a
    segment that is opened again goes on where it was left. *)
Theorem openSegmentFile_sound dirPath extName id0 cache0 :
  (∀ e, os_OpenFile (SegmentFileName dirPath extName id0) = inr e →
        openSegmentFile dirPath extName id0 cache0 = Return (inr e)) ∧
  (∀ f n e, os_OpenFile (SegmentFileName dirPath extName id0) = inl f →
            File_Seek_End f = (n, Some e) →
            openSegmentFile dirPath extName id0 cache0 = Panic (seekFailed e)) ∧
  (∀ f n, os_OpenFile (SegmentFileName dirPath extName id0) = inl f →
          File_Seek_End f = (n, None) →
          len (File_contents f) + blockSize < 2 ^ 32 →
          (∀ seg, id seg = id0 → coherent seg (File_contents f) cache0) →
          ∃ seg, openSegmentFile dirPath extName id0 cache0 = Return (inl seg) ∧
                 seg_ok seg ∧ closed seg = false ∧ id seg = id0 ∧ fd seg = f ∧
                 Size seg = len (File_contents f) ∧
                 ∀ seg0, seg_ok seg0 → fd seg0 = f →
                         currentBlockNumber seg = currentBlockNumber seg0 ∧
                         currentBlockSize seg = currentBlockSize seg0).
Proof.
  split_and!.
  - intros e He. unfold openSegmentFile. by rewrite He.
  - intros f n e Hf Hseek. unfold openSegmentFile. by rewrite Hf, Hseek.
  - intros f n Hf Hseek Hroom Hcache.
    destruct (openSegmentFile_opens dirPath extName id0 cache0 f n Hf Hseek Hroom)
      as (seg & Hopen & Hok & Hclosed & Hid & Hfd & Hc & Hbn & Hbs).
    { by apply Hcache. }
    exists seg. split_and!; try done.
    + rewrite Size_ok by done. by rewrite Hfd.
    + intros seg0 (Hbn0 & Hbs0 & Hlen0 & _) Hfd0. rewrite Hfd0 in Hlen0.
      pose proof blockSize_range. rewrite Hbn, Hbs, Hlen0. split.
      * symmetry. apply (Z.div_unique _ _ _ (currentBlockSize seg0)); lia.
      * symmetry. apply (Z.mod_unique _ _ (currentBlockNumber seg0)); lia.
Qed.



Lemma endOf_distance cs F bn off :
  cs ≠ [] → chunks_at F bn off cs → fills off cs →
  let next := endOf bn off cs in
  let written := len (mjoin cs.*2) + 7 * Z.of_nat (length cs) in
  ∃ pad, 0 ≤ pad ≤ 7 ∧ (pad = 0 ∨ next.2 = 0) ∧
    next.1 * blockSize + next.2 = bn * blockSize + off + written + pad ∧
    0 ≤ next.2 < blockSize ∧ bn ≤ next.1 ∧
    bn * blockSize + off + written ≤ len F.
Proof.
  pose proof blockSize_range as Hblock.
  revert bn off. induction cs as [|[t p] cs IH]; intros bn off Hne Hchunks Hfills; [done|].
  destruct Hchunks as [(Hbn & Hoff & Hfit & Hin & _) Hchunks].
  unfold chunkHeaderSize in *. pose proof (len_nonneg p) as Hp.
  destruct cs as [|c2 cs].
  - cbn [endOf]. unfold chunkHeaderSize.
    change (mjoin [(t, p)].*2) with (p ++ []). rewrite app_nil_r. cbn [length].
    destruct (Z.leb_spec blockSize (off + 7 + len p + 7)); cbn [fst snd].
    + exists (blockSize - (off + 7 + len p)). split_and!; lia.
    + exists 0. split_and!; lia.
  - destruct Hfills as [Hfull Hfills]. unfold chunkHeaderSize in Hfull.
    destruct (IH (bn + 1) 0 ltac:(done) Hchunks Hfills)
      as (pad & Hpad & Hcase & Hnext & Hoff' & Hbn' & Hin').
    change (endOf bn off ((t, p) :: c2 :: cs)) with (endOf (bn + 1) 0 (c2 :: cs)).
    change (mjoin ((t, p) :: c2 :: cs).*2) with (p ++ mjoin (c2 :: cs).*2).
    rewrite len_app. cbn [length] in *.
    exists pad. split_and!; try done; lia.
Qed.

(** X22: the ChunkSize that Next returns with a record is an estimate of the
    ChunkSize that Write returned for it: it is the distance in the file from
    the start of the record to the place where the next record starts (or
    will start), which is the ChunkSize of Write and up to 7 bytes of
    padding at the end of the block.  Segment id, block number and chunk
    offset are those of Write. *)
Theorem Next_estimates_the_ChunkSize fuel data more seg pos seg1 poss seg2 :
  seg_ok seg → closed seg = false → roomFor (data :: more) seg →
  (length data + 1 ≤ fuel)%nat → Forall (λ d, (length d ≤ fuel)%nat) more →
  Write fuel data seg = Return (inl pos, seg1) →
  WriteAll fuel more seg1 = Return (inl poss, seg2) →
  ∃ pos' segReader seg3,
    Next fuel (mkSegmentReader (BlockNumber pos) (ChunkOffset pos)) seg2
      = Return (inl (data, pos'), segReader, seg3) ∧
    SegmentId pos' = SegmentId pos ∧ BlockNumber pos' = BlockNumber pos ∧
    ChunkOffset pos' = ChunkOffset pos ∧
    ChunkSize pos ≤ ChunkSize pos' ≤ ChunkSize pos + 7 ∧
    ChunkSize pos' = blockNumber segReader * blockSize + chunkOffset segReader
                     - (BlockNumber pos * blockSize + ChunkOffset pos) ∧
    (blockNumber segReader, chunkOffset segReader) = writePosition seg1.
Proof.
  intros Hok Hopen Hroom Hfuel Hfuels Hw Hws.
  pose proof blockSize_range as Hblock.
  destruct (Write_spec fuel data seg Hok Hopen (roomFor_head _ _ _ Hroom) ltac:(lia))
    as (r & seg1' & Hw' & Hpost).
  rewrite Hw in Hw'. injection Hw' as <- <-.
  destruct (Hpost pos eq_refl) as
    (cs & Hok1 & Hopen1 & Hid1 & HX1 & Hsid & Hplace & Hsize & Hn & Hlen & Hcs & Hchunks
     & Hjoin & Hend & Hfills & _).
  assert (len (File_contents (fd seg1))
          ≤ len (File_contents (fd seg)) + 2 * len data + 21) as Hgrow.
  { rewrite Hlen, Hsize. destruct Hok as (_ & Hbs & _).
    destruct (Z.leb_spec blockSize (currentBlockSize seg + 7)); lia. }
  destruct (WriteAll_records fuel more seg1 poss seg2 Hok1 Hopen1
              (roomFor_cons data more seg seg1 Hok Hok1 Hgrow Hroom) Hfuels Hws)
    as (Hok2 & Hopen2 & Hid2 & [X2 HX2] & _).
  apply (chunks_at_app _ X2) in Hchunks. rewrite <- HX2 in Hchunks.
  destruct (readInternal_record fuel seg2 (BlockNumber pos) (ChunkOffset pos) cs
              Hok2 Hopen2 Hchunks) as (seg3 & Hok3 & Hsame & Hread).
  { by apply chunksOf_chained. }
  { pose proof (chunksOf_length cs Hcs). rewrite Hjoin in *. lia. }
  assert (cs ≠ []) as Hne.
  { destruct Hcs as [[d ->]|(first & rest & -> & _)]; done. }
  destruct (endOf_distance cs _ _ _ Hne Hchunks Hfills)
    as (pad & Hpad & Hcase & Hnext & Hoff' & Hbn' & Hin).
  rewrite Hjoin in Hnext, Hin.
  set (next := endOf (BlockNumber pos) (ChunkOffset pos) cs) in *.
  destruct cs as [|[t p] cs]; [done|]. destruct Hchunks as [(Hbn & Hoff & Hfit & _) _].
  unfold chunkHeaderSize in Hfit. pose proof (len_nonneg p) as Hp.
  pose proof Hok2 as (Hcbn & Hcbs & Hlen2 & Hlim2 & _).
  assert (next.1 * blockSize + next.2 < 2 ^ 32 ∧ next.1 * blockSize < 2 ^ 32) as [Hn1 Hn2].
  { assert (next.1 ≤ currentBlockNumber seg2 + 1) by nia.
    destruct Hcase; split; nia. }
  assert (0 ≤ BlockNumber pos * blockSize) by nia.
  unfold Next. rewrite Hopen2. cbn [blockNumber chunkOffset]. rewrite Hread. unm.
  cbn [BlockNumber ChunkOffset]. rewrite Hjoin.
  eexists _, _, seg3. split; [reflexivity|].
  cbn [SegmentId BlockNumber ChunkOffset ChunkSize set_ChunkSize blockNumber chunkOffset].
  rewrite (u32_small (next.1 * blockSize)) by nia.
  rewrite (u32_small next.2) by lia.
  rewrite (u32_small (next.1 * blockSize + next.2)) by nia.
  rewrite (u32_small (BlockNumber pos * blockSize)) by nia.
  rewrite (u32_small (ChunkOffset pos)) by lia.
  pose proof (len_nonneg data) as Hdata.
  rewrite (u32_small (BlockNumber pos * blockSize + ChunkOffset pos)) by lia.
  rewrite u32_small by lia.
  split_and!; [congruence|done|done|lia|lia|done|].
  rewrite Hend. by destruct next.
Qed.

End Segment.

(** X8: on a closed segment Write, Read and Next return ErrClosed and Sync
    and Close return no error, and none of them touches the segment or its
    file; Close and Remove leave the segment closed. *)
Theorem closed_segment_refuses fuel data bn off segReader seg :
  (closed seg = true →
     Write fuel data seg = Return (inr ErrClosed, seg) ∧
     Read fuel seg bn off = Return (inr ErrClosed, seg) ∧
     Next fuel segReader seg = Return (inr ErrClosed, segReader, seg) ∧
     Sync seg = None ∧
     Close seg = (None, seg)) ∧
  closed (Close seg).2 = true ∧
  closed (Remove seg).2 = true.
Proof.
  split_and!.
  - intros Hclosed. unfold Write, Read, readInternal, Next, Sync, Close.
    rewrite Hclosed. by split_and!.
  - unfold Close. destruct (closed seg) eqn:Hc; [done|].
    simpl. by destruct (File_Close (fd seg)).
  - unfold Remove. by destruct (closed seg) eqn:Hc.
Qed.

Lemma writeInternal_error data chunkType seg e seg' :
  writeInternal data chunkType seg = Return (Some e, seg') →
  ∃ f b, (File_Write f b).2 = Some e.
Proof.
  unfold writeInternal. unm.
  destruct (on_slice (header seg) 4 6 _) as [[h u]| |]; [|done..].
  destruct (store h 6 chunkType) as [h1| |]; [|done..].
  destruct (slice h1 4 (len h1)) as [rest| |]; [|done..].
  destruct (on_slice h1 0 4 _) as [[h2 u2]| |]; [|done..].
  cbn [fd set_header set_fd].
  destruct (File_Write (fd seg) h2) as [fd1 [e1|]] eqn:H1.
  { intros [= <- <-]. exists (fd seg), h2. by rewrite H1. }
  destruct (File_Write fd1 data) as [fd2 [e2|]] eqn:H2.
  { intros [= <- <-]. exists fd1, data. by rewrite H2. }
  destruct (blockSize <? _); [done|].
  by destruct (_ =? blockSize).
Qed.

Lemma Write_loop_error fuel data dataSize leftSize blockCount seg e seg' :
  Write_loop fuel data dataSize leftSize blockCount seg = Return (inr e, seg') →
  ∃ f b, (File_Write f b).2 = Some e.
Proof.
  revert leftSize blockCount seg.
  induction fuel as [|fuel IH]; intros leftSize blockCount seg; simpl;
    (destruct (0 <? leftSize); [|done]); [done|].
  unm.
  destruct (slice data _ _) as [part| |]; [|done..].
  match goal with
  | |- context [match ?w with Return _ => _ | Panic _ => _ | OutOfFuel => _ end] =>
      destruct w as [[[e1|] seg1]| |] eqn:Hw; [| |done..]
  end.
  - intros [= <- <-].
    repeat match type of Hw with
           | (if ?c then _ else _) = _ => destruct c
           end; by eapply writeInternal_error.
  - apply IH.
Qed.

(** X20: Write returns no error of its own but ErrClosed, which it returns on
    a closed segment and on no other: any other error that it returns is one
    that a Write of the file has reported. *)
Theorem Write_fails_only_with_the_file fuel data seg e seg' :
  Write fuel data seg = Return (inr e, seg') →
  (closed seg = true ∧ e = ErrClosed ∧ seg' = seg) ∨
  (closed seg = false ∧ ∃ f b, (File_Write f b).2 = Some e).
Proof.
  unfold Write. destruct (closed seg) eqn:Hclosed.
  { intros [= <- <-]. by left. }
  intros Hw. right. split; [done|]. revert Hw.
  destruct (blockSize <=? u32 (currentBlockSize seg + chunkHeaderSize)).
  - destruct (currentBlockSize seg <? blockSize).
    + destruct (File_Write (fd seg) (make (u32 (blockSize - currentBlockSize seg))))
        as [fd1 [e1|]] eqn:H1.
      { intros [= <- <-]. eexists _, _. by rewrite H1. }
      cbv beta iota zeta.
      destruct (_ <=? blockSize).
      * unm. destruct (writeInternal data ChunkTypeFull _) as [[[e1|] seg1]| |] eqn:Hw;
          [|done..].
        intros [= <- <-]. by eapply writeInternal_error.
      * unm. destruct (Write_loop fuel data _ _ 0 _) as [[[n|e1] seg1]| |] eqn:Hw;
          [done| |done..].
        intros [= <- <-]. by eapply Write_loop_error.
    + cbv beta iota zeta.
      destruct (_ <=? blockSize).
      * unm. destruct (writeInternal data ChunkTypeFull _) as [[[e1|] seg1]| |] eqn:Hw;
          [|done..].
        intros [= <- <-]. by eapply writeInternal_error.
      * unm. destruct (Write_loop fuel data _ _ 0 _) as [[[n|e1] seg1]| |] eqn:Hw;
          [done| |done..].
        intros [= <- <-]. by eapply Write_loop_error.
  - cbv beta iota zeta.
    destruct (_ <=? blockSize).
    + unm. destruct (writeInternal data ChunkTypeFull _) as [[[e1|] seg1]| |] eqn:Hw;
        [|done..].
      intros [= <- <-]. by eapply writeInternal_error.
    + unm. destruct (Write_loop fuel data _ _ 0 _) as [[[n|e1] seg1]| |] eqn:Hw;
        [done| |done..].
      intros [= <- <-]. by eapply Write_loop_error.
Qed.

(** X1: a position whose fields hold values of their types is encoded in 4
    to 25 bytes, and DecodeChunkPosition gives the position back from them,
    whatever bytes follow them. *)
Theorem ChunkPosition_Encode_Decode cp :
  ChunkPosition_ok cp →
  ∃ buf, Encode cp = Return buf ∧ 4 ≤ len buf ≤ 25 ∧
         ∀ rest, DecodeChunkPosition (buf ++ rest) = Return (Some cp).
Proof.
  intros Hcp. pose proof Hcp as (Hs & Hb & Ho & Hc).
  eexists. split; [by apply Encode_spec|].
  pose proof (uvarint_length32 _ Hs). pose proof (uvarint_length32 _ Hb).
  pose proof (uvarint_length64 _ (u64_range (ChunkOffset cp))).
  pose proof (uvarint_length32 _ Hc).
  split; [rewrite !len_app; lia|].
  intros rest. rewrite <- !app_assoc.
  rewrite Decode_spec by (try apply u64_range; lia).
  rewrite !u32_small, i64_u64 by lia. by destruct cp.
Qed.

Lemma Uvarint_loop_overlong buf i x s :
  0 ≤ i ≤ 10 → 10 - i < len buf →
  (∀ (k : nat) b, Z.of_nat k < 10 - i → buf !! k = Some b → 128 ≤ byte_val b) →
  binary.Uvarint_loop buf i x s = (0, -11).
Proof.
  revert i x s. induction buf as [|b buf IH]; intros i x s Hi Hlen Hall.
  - unfold len in Hlen. simpl in Hlen. lia.
  - simpl. unfold binary.MaxVarintLen64. destruct (Z.eqb_spec i 10) as [->|Hne]; [done|].
    assert (128 ≤ byte_val b) as Hb by (apply (Hall 0%nat); [lia|done]).
    destruct (Z.ltb_spec (byte_val b) 128); [lia|].
    apply IH; [lia|unfold len in *; simpl in Hlen; lia|].
    intros k b' Hk Hb'. apply (Hall (S k)); [lia|done].
Qed.

(** X2: DecodeChunkPosition returns nil for the empty buffer and for no
    other; it takes what it is given for varints without a check, and panics
    with a slice bound out of range on a buffer of more than ten bytes whose
    first ten all have the continuation bit set. *)
Theorem DecodeChunkPosition_malformed buf :
  (DecodeChunkPosition buf = Return None ↔ buf = []) ∧
  (10 < len buf →
   (∀ (i : nat) b, (i < 10)%nat → buf !! i = Some b → 128 ≤ byte_val b) →
   DecodeChunkPosition buf = Panic outOfRange).
Proof.
  split.
  - split; [|by intros ->].
    unfold DecodeChunkPosition. destruct (Z.eqb_spec (len buf) 0) as [H0|Hne].
    { intros _. destruct buf; [done|]. unfold len in H0. simpl in H0. lia. }
    unm. intros H.
    repeat match type of H with
           | match ?m with _ => _ end = _ => destruct m as [[? ?]| |]; try done
           end.
  - intros Hlen Hall. unfold DecodeChunkPosition.
    destruct (Z.eqb_spec (len buf) 0) as [H0|_]; [lia|].
    assert (Uvarint_from buf 0 = Return (0, -11)) as ->.
    { unfold Uvarint_from. rewrite slice_from by lia. unm.
      change (Z.to_nat 0) with 0%nat. rewrite drop_0.
      unfold binary.Uvarint. rewrite Uvarint_loop_overlong; [done|lia|lia|].
      intros k b Hk Hb. apply (Hall k); [lia|done]. }
    unm. unfold Uvarint_from. rewrite slice_panics; [done|]. left. lia.
Qed.

(** X3: the cache key of a block takes the segment id for its upper and
    the block number for its lower 32 bits, so that no two blocks of the
    segments that share a cache have the same key. *)
Theorem getCacheKey_injective seg seg' bn bn' :
  0 ≤ id seg < 2 ^ 32 → 0 ≤ id seg' < 2 ^ 32 →
  0 ≤ bn < 2 ^ 32 → 0 ≤ bn' < 2 ^ 32 →
  getCacheKey seg bn = id seg * 2 ^ 32 + bn ∧
  0 ≤ getCacheKey seg bn < 2 ^ 64 ∧
  (getCacheKey seg bn = getCacheKey seg' bn' → id seg = id seg' ∧ bn = bn').
Proof.
  intros Hid Hid' Hbn Hbn'. rewrite !getCacheKey_eq by done.
  rewrite !Z.mod_small by done. split_and!; lia.
Qed.

End WalProperties.
(** ** The segment on a file in memory *)
Section WalClosed.
Import wal walspec walinst.
#[local] Existing Instance kilobyte.
#[local] Existing Instance ieee.

Lemma kilobyte_ok : @Units_ok kilobyte.
Proof. unfold Units_ok. simpl. lia. Qed.

Lemma memOS_ok existing room : @OS_ok (memOS existing room).
Proof.
  split.
  - intros f b. simpl. unfold memFile_Write.
    by destruct (Z.leb_spec (len b) (mf_room f)).
  - intros f n off Hoff Hn Hlen. simpl in *. unfold memFile_ReadAt.
    destruct (Z.ltb_spec off 0); [lia|].
    rewrite len_sub by done. by rewrite Z.ltb_irrefl.
  - intros f _. done.
Qed.

Lemma lastEntry_ok : @LRU_ok lastEntry.
Proof.
  split.
  - intros c k v k' v'. simpl. destruct (Z.eqb_spec k' k) as [->|]; [|done].
    intros [= ->]. by left.
  - intros c k k' v'. done.
Qed.

Lemma lxor_range a b n :
  0 ≤ a < 2 ^ n → 0 ≤ b < 2 ^ n → 0 ≤ Z.lxor a b < 2 ^ n.
Proof.
  intros Ha Hb. split; [apply Z.lxor_nonneg; lia|].
  destruct (Z.eq_dec a 0) as [->|Ha0]; [by rewrite Z.lxor_0_l; lia|].
  destruct (Z.eq_dec b 0) as [->|Hb0]; [by rewrite Z.lxor_0_r; lia|].
  destruct (Z.eq_dec (Z.lxor a b) 0) as [->|Hne]; [lia|].
  assert (0 ≤ Z.lxor a b) by (apply Z.lxor_nonneg; lia).
  apply Z.log2_lt_pow2; [lia|].
  pose proof (Z.log2_lxor a b ltac:(lia) ltac:(lia)).
  assert (Z.log2 a < n) by (apply Z.log2_lt_pow2; lia).
  assert (Z.log2 b < n) by (apply Z.log2_lt_pow2; lia).
  lia.
Qed.

Lemma crc_step_range crc : 0 ≤ crc < 2 ^ 32 → 0 ≤ crc_step crc < 2 ^ 32.
Proof.
  intros H. unfold crc_step.
  assert (0 ≤ Z.shiftr crc 1 < 2 ^ 32).
  { rewrite Z.shiftr_div_pow2 by lia. change (2 ^ 1) with 2.
    Z.div_mod_to_equations. lia. }
  destruct (Z.odd crc); [|done]. apply lxor_range; [done|lia].
Qed.

Lemma crc_byte_range crc v : 0 ≤ crc < 2 ^ 32 → 0 ≤ crc_byte crc v < 2 ^ 32.
Proof.
  intros H. unfold crc_byte. apply lxor_range.
  - assert (0 ≤ Z.lxor (crc mod 256) (byte_val v) < 2 ^ 32) as H0.
    { pose proof (byte_val_range v).
      assert (0 ≤ Z.lxor (crc mod 256) (byte_val v) < 2 ^ 8); [|lia].
      apply lxor_range; [|lia]. change (2 ^ 8) with 256.
      Z.div_mod_to_equations. lia. }
    generalize dependent (Z.lxor (crc mod 256) (byte_val v)). intros y Hy.
    simpl. by do 8 apply crc_step_range.
  - rewrite Z.shiftr_div_pow2 by lia. change (2 ^ 8) with 256.
    Z.div_mod_to_equations. lia.
Qed.

Lemma crc_fold_range p crc : 0 ≤ crc < 2 ^ 32 → 0 ≤ foldl crc_byte crc p < 2 ^ 32.
Proof.
  revert crc. induction p as [|v p IH]; intros crc H; [done|].
  simpl. by apply IH, crc_byte_range.
Qed.

Lemma ieee_ok : @CRC32_ok ieee.
Proof.
  split.
  - intros p. simpl. unfold crc_update. apply lxor_range; [|lia].
    apply crc_fold_range. change (Z.lxor 0 4294967295) with 4294967295. lia.
  - intros p q. simpl. unfold crc_update.
    rewrite Z.lxor_assoc, Z.lxor_nilpotent, Z.lxor_0_r. by rewrite foldl_app.
Qed.

(** The checksum of the digits 1 to 9 is the check value of CRC-32. *)
Example ChecksumIEEE_check_value :
  ChecksumIEEE [Byte.x31; Byte.x32; Byte.x33; Byte.x34; Byte.x35; Byte.x36; Byte.x37;
                Byte.x38; Byte.x39] = 3421780262.
Proof. vm_compute. reflexivity. Qed.

Lemma emptySegment_ok : seg_ok emptySegment.
Proof.
  unfold seg_ok. change blockSize with 32768. split_and!.
  - done.
  - done.
  - done.
  - done.
  - simpl. lia.
  - reflexivity.
  - constructor.
  - intros c0 bn v [= <-] _. done.
Qed.

Lemma emptySegment_room datas :
  foldr (λ data acc, 2 * len data + 21 + acc) 0 datas ≤ 1000 → roomFor datas emptySegment.
Proof.
  unfold roomFor. change (Size emptySegment) with 0.
  change blockSize with 32768. lia.
Qed.

(** Witness of X1: the position of a record of twelve bytes at the start of
    segment 1. *)
Lemma ChunkPosition_Encode_Decode_witness :
  ∃ buf, Encode (mkChunkPosition 1 0 0 12) = Return buf ∧ 4 ≤ len buf ≤ 25 ∧
         ∀ rest, DecodeChunkPosition (buf ++ rest) = Return (Some (mkChunkPosition 1 0 0 12)).
Proof.
  apply (ChunkPosition_Encode_Decode (mkChunkPosition 1 0 0 12)).
  unfold ChunkPosition_ok. simpl. lia.
Defined.

(** Witness of X2: eleven bytes ff. *)
Lemma DecodeChunkPosition_malformed_witness :
  DecodeChunkPosition overlong = Panic outOfRange.
Proof.
  apply (DecodeChunkPosition_malformed overlong).
  - vm_compute. reflexivity.
  - intros i b Hi Hb. apply lookup_replicate in Hb as [-> _]. vm_compute. discriminate.
Defined.

(** Witness of X3: blocks 3 and 4 of the segment. *)
Lemma getCacheKey_injective_witness :
  getCacheKey emptySegment 3 = id emptySegment * 2 ^ 32 + 3 ∧
  0 ≤ getCacheKey emptySegment 3 < 2 ^ 64 ∧
  (getCacheKey emptySegment 3 = getCacheKey emptySegment 4 →
   id emptySegment = id emptySegment ∧ 3 = 4).
Proof.
  apply (getCacheKey_injective emptySegment emptySegment 3 4); simpl; lia.
Defined.

(** Witness of X4: the first record of a new segment. *)
Lemma Write_keeps_the_segment_sound_witness :
  ∃ r seg',
    Write 5 hello emptySegment = Return (r, seg') ∧
    ∀ pos, r = inl pos →
      seg_ok seg' ∧ closed seg' = false ∧ id seg' = id emptySegment ∧
      Size seg' = len (File_contents (fd seg')) ∧
      ∃ X, File_contents (fd seg') = File_contents (fd emptySegment) ++ X.
Proof.
  apply (Write_keeps_the_segment_sound kilobyte_ok (memOS_ok _ _) 5 hello emptySegment).
  - exact emptySegment_ok.
  - reflexivity.
  - apply emptySegment_room. vm_compute. discriminate.
  - simpl. lia.
Defined.

(** Witness of X5: the first record of a new segment is one Full chunk of
    twelve bytes at the start of the file. *)
Lemma Write_position_and_chunks_witness :
  ∃ seg',
    Write 5 hello emptySegment = Return (inl (mkChunkPosition 1 0 0 12), seg') ∧
    ∃ cs,
      chunksOf cs ∧ mjoin cs.*2 = hello ∧
      (0 + 7 + len hello ≤ blockSize ↔ cs = [(ChunkTypeFull, hello)]) ∧
      chunks_at (File_contents (fd seg')) 0 0 cs ∧
      fills 0 cs ∧
      12 = len hello + 7 * Z.of_nat (length cs) ∧
      len (File_contents (fd seg')) = len (File_contents (fd emptySegment)) + 0 + 12.
Proof.
  eexists. split; [vm_compute; reflexivity|].
  eapply (Write_position_and_chunks kilobyte_ok (memOS_ok _ _) 5 hello emptySegment
            (mkChunkPosition 1 0 0 12)).
  - exact emptySegment_ok.
  - reflexivity.
  - apply emptySegment_room. vm_compute. discriminate.
  - simpl. lia.
  - vm_compute. reflexivity.
Defined.

(** Witness of X6: the first of three records is read after all three were
    written. *)
Lemma Write_then_Read_witness :
  ∃ seg1 poss seg2 seg3,
    Write 6 hello emptySegment = Return (inl (mkChunkPosition 1 0 0 12), seg1) ∧
    WriteAll 6 (tail threeRecords) seg1 = Return (inl poss, seg2) ∧
    Read 6 seg2 0 0 = Return (inl hello, seg3) ∧
    seg_ok seg3 ∧ untouched seg2 seg3.
Proof.
  eexists _, _, _.
  assert (∀ A B C (P : C → Prop), A → B → (A → B → ∃ c, P c) → ∃ c, A ∧ B ∧ P c)
    as Hand by (intros A B C P a b H; destruct (H a b) as [c Hc]; by exists c).
  apply Hand; [vm_compute; reflexivity|vm_compute; reflexivity|].
  intros Hw Hws.
  eapply (Write_then_Read kilobyte_ok (memOS_ok _ _) lastEntry_ok ieee_ok 6 hello
           (tail threeRecords) emptySegment (mkChunkPosition 1 0 0 12) _ _ _
           emptySegment_ok eq_refl); [| | |exact Hw|exact Hws].
  - apply emptySegment_room. vm_compute. discriminate.
  - simpl. lia.
  - repeat constructor; simpl; lia.
Defined.

(** Witness of X7: three records are written to a new segment and read back
    by a reader. *)
Lemma Next_replays_the_writes_witness :
  ∃ poss seg',
    WriteAll 6 threeRecords emptySegment = Return (inl poss, seg') ∧
    ∃ items segReader seg1,
      NextAll 6 3 (NewReader seg') seg' = Return (inl items, segReader, seg1) ∧
      items.*1 = threeRecords ∧
      placeOf <$> items.*2 = placeOf <$> poss ∧
      Forall (λ item, SegmentId item.2 = 1) items ∧
      Forall (λ pos, SegmentId pos = 1) poss ∧
      ∃ seg2, Next 6 segReader seg1 = Return (inr io_EOF, segReader, seg2).
Proof.
  eexists _, _. split; [vm_compute; reflexivity|].
  eapply (Next_replays_the_writes kilobyte_ok (memOS_ok _ _) lastEntry_ok ieee_ok 6
            threeRecords emptySegment).
  - exact emptySegment_ok.
  - reflexivity.
  - apply emptySegment_room. vm_compute. discriminate.
  - lia.
  - repeat constructor; simpl; lia.
  - vm_compute. reflexivity.
Defined.

(** Witness of X8: a closed segment. *)
Lemma closed_segment_refuses_witness :
  Write 5 hello closedSegment = Return (inr ErrClosed, closedSegment) ∧
  Read 5 closedSegment 0 0 = Return (inr ErrClosed, closedSegment) ∧
  Next 5 (NewReader closedSegment) closedSegment
    = Return (inr ErrClosed, NewReader closedSegment, closedSegment) ∧
  Sync closedSegment = None ∧
  Close closedSegment = (None, closedSegment).
Proof.
  apply (closed_segment_refuses 5 hello 0 0 (NewReader closedSegment) closedSegment).
  reflexivity.
Defined.

(** Witness of X9: segment 1 is opened on an empty file. *)
Lemma openSegmentFile_sound_witness :
  ∃ seg : @segment (memOS [] 1048576) lastEntry,
    @openSegmentFile kilobyte (memOS [] 1048576) lastEntry "dir" ".SEG" 1 (Some None)
      = Return (inl seg) ∧
    seg_ok seg ∧ closed seg = false ∧ id seg = 1 ∧
    fd seg = emptyFile ∧
    Size seg = 0 ∧
    ∀ seg0 : @segment (memOS [] 1048576) lastEntry, seg_ok seg0 → fd seg0 = emptyFile →
            currentBlockNumber seg = currentBlockNumber seg0 ∧
            currentBlockSize seg = currentBlockSize seg0.
Proof.
  destruct (openSegmentFile_sound (os := memOS [] 1048576) (lru := lastEntry)
              kilobyte_ok (memOS_ok _ _) "dir" ".SEG" 1 (Some (None : @Cache lastEntry)))
    as (_ & _ & Hopens).
  apply (Hopens emptyFile 0).
  - reflexivity.
  - reflexivity.
  - vm_compute. reflexivity.
  - intros seg _ c0 bn v [= <-] _. done.
Defined.




(** Witness of X20: a record is written to a device that has no room
    left. *)
Lemma Write_fails_only_with_the_file_witness :
  ∃ seg' (f : @File (memOS [] 0)) b,
    Write 5 hello fullSegment = Return (inr (os_error 28), seg') ∧
    (File_Write f b).2 = Some (os_error 28).
Proof.
  eassert (Write 5 hello fullSegment = Return (inr (os_error 28), _)) as Hw
    by (vm_compute; reflexivity).
  destruct (Write_fails_only_with_the_file 5 hello fullSegment _ _ Hw)
    as [(Hclosed & _)|(_ & f & b & Hfile)]; [discriminate|].
  eexists _, f, b. split; [exact Hw|exact Hfile].
Defined.

(** Witness of X22: the first of three records, of five bytes, is read back
    by Next. *)
Lemma Next_estimates_the_ChunkSize_witness :
  ∃ seg1 poss seg2,
    Write 6 hello emptySegment = Return (inl (mkChunkPosition 1 0 0 12), seg1) ∧
    WriteAll 6 (tail threeRecords) seg1 = Return (inl poss, seg2) ∧
    ∃ pos' segReader seg3,
      Next 6 (mkSegmentReader 0 0) seg2 = Return (inl (hello, pos'), segReader, seg3) ∧
      SegmentId pos' = 1 ∧ BlockNumber pos' = 0 ∧ ChunkOffset pos' = 0 ∧
      12 ≤ ChunkSize pos' ≤ 12 + 7 ∧
      ChunkSize pos' = blockNumber segReader * blockSize + chunkOffset segReader
                       - (0 * blockSize + 0) ∧
      (blockNumber segReader, chunkOffset segReader) = writePosition seg1.
Proof.
  eexists _, _, _.
  assert (∀ A B C : Prop, A → B → (A → B → C) → A ∧ B ∧ C) as Hand by tauto.
  apply Hand; [vm_compute; reflexivity|vm_compute; reflexivity|].
  intros Hw Hws.
  eapply (Next_estimates_the_ChunkSize kilobyte_ok (memOS_ok _ _) lastEntry_ok ieee_ok 6
            hello (tail threeRecords) emptySegment (mkChunkPosition 1 0 0 12) _ _ _
            emptySegment_ok eq_refl); [| | |exact Hw|exact Hws].
  - apply emptySegment_room. vm_compute. discriminate.
  - simpl. lia.
  - repeat constructor; simpl; lia.
Defined.

End WalClosed.
